(** * The OTF2 writer of sst-dumpi: request tracker, collective volumes,
      group exclusion and global communicator ids

    A shallow embedding of [dumpi/libotf2dump/otf2writer.cc].  The writer
    object becomes a record, every member function a computation in a small
    monad over that record which also carries the ways a C++ body can stop:
    a [return] statement, a thrown exception, [abort()] and undefined
    behaviour (reading through a past-the-end iterator, indexing a vector or
    an array outside its bounds). *)

From stdpp Require Import base gmap list strings pretty sorting.

Open Scope Z_scope.

(** ** Machine integers *)

(** Conversion to [uint64_t] and to [int] (32 bits, two's complement). *)
Definition to_uint64 (z : Z) : Z := z mod 2 ^ 64.

Definition to_int (z : Z) : Z := (z + 2 ^ 31) mod 2 ^ 32 - 2 ^ 31.

(** ** Data declared by the writer *)

(** The handles [request_t], [comm_t], [mpi_type_t] and the group handles
    are integer typedefs of the header; they are opaque keys here. *)
Abbreviation request_t := Z (only parsing).
Abbreviation comm_t := Z (only parsing).
Abbreviation mpi_type_t := Z (only parsing).
Abbreviation otf2_time_t := Z (only parsing).

Inductive OTF2_WRITER_RESULT : Type :=
| OTF2_WRITER_SUCCESS
| OTF2_WRITER_ERROR_ARCHIVE_ALREADY_OPEN
| OTF2_WRITER_ERROR_UKNOWN_MPI_TYPE.

(** The verbosity levels, in the order in which [logger] lists its cases
    after [OWV_NONE]. *)
Inductive OTF2_WRITER_VERBOSITY : Type :=
| OWV_NONE
| OWV_ABORT
| OWV_ERROR
| OWV_WARN
| OWV_INFO.

#[global] Instance OTF2_WRITER_VERBOSITY_eq_dec : EqDecision OTF2_WRITER_VERBOSITY.
Proof. solve_decision. Defined.

Definition verbosity_level (v : OTF2_WRITER_VERBOSITY) : Z :=
  match v with
  | OWV_NONE => 0
  | OWV_ABORT => 1
  | OWV_ERROR => 2
  | OWV_WARN => 3
  | OWV_INFO => 4
  end.

Inductive REQUEST_TYPE : Type :=
| REQUEST_TYPE_ISEND
| REQUEST_TYPE_IRECV.

(** The payload kept for a posted receive.  The struct is declared in the
    header; its fields are taken in the order of the braced initialiser
    with which [mpi_irecv] fills it. *)
Record irecv_capture : Type := mk_irecv_capture {
  bytes_sent : Z;
  source : Z;
  tag : Z;
  comm : Z;
  request : Z
}.

Record OTF2_MPI_Group : Type := mk_group {
  group_local_id : Z;
  is_comm_world : bool;
  global_ranks : list Z
}.

(** A communicator record as the writer's table [comms_] stores it; the
    children are the keys of the records the [sub_comms] pointers address. *)
Record OTF2_MPI_Comm_rec : Type := mk_comm_rec {
  rec_local_id : Z;
  rec_global_id : Z;
  rec_local_group_id : Z;
  rec_is_root : bool;
  rec_name : string;
  rec_sub_comms : list Z
}.

Inductive OTF2_CollectiveOp : Type :=
| OTF2_COLLECTIVE_OP_BARRIER
| OTF2_COLLECTIVE_OP_BCAST.

(** The records handed to the event writer of the trace library, each with
    the values of the argument expressions at the call site. *)
Inductive event : Type :=
| Enter (time : Z) (region : Z)
| Leave (time : Z) (region : Z)
| MpiIsend (time receiver communicator msg_tag msg_length request_id : Z)
| MpiIsendComplete (time request_id : Z)
| MpiIrecvRequest (time request_id : Z)
| MpiIrecv (time sender communicator msg_tag msg_length request_id : Z)
| MpiCollectiveBegin (time : Z)
| MpiCollectiveEnd (time : Z) (op : OTF2_CollectiveOp)
    (communicator root size_sent size_received : Z).

Record worldConfig : Type := mk_world { size : Z; rank : Z }.

(** The members of [OTF2_Writer] that the translated functions read or
    write, the emitted trace ([evt_writer]) and the lines the logger
    printed ([stdout]).  The timestamps are [uint64_t]; the width of the
    counter [event_count_] is fixed in the header, it is left unbounded
    here. *)
Record OTF2_Writer : Type := mk_writer {
  world_ : worldConfig;
  verbosity_ : OTF2_WRITER_VERBOSITY;
  null_request_ : Z;
  start_time_ : Z;
  stop_time_ : Z;
  event_count_ : Z;
  otf2_regions_table_ : list string;
  type_sizes_ : gmap Z Z;
  request_type : gmap Z REQUEST_TYPE;
  irecv_requests : gmap Z irecv_capture;
  comms_ : gmap Z OTF2_MPI_Comm_rec;
  groups_ : gmap Z OTF2_MPI_Group;
  evt_writer : list event;
  stdout : list string
}.

Definition set_null_request_ (v : Z) (w : OTF2_Writer) : OTF2_Writer :=
  mk_writer (world_ w) (verbosity_ w) v (start_time_ w) (stop_time_ w)
    (event_count_ w) (otf2_regions_table_ w) (type_sizes_ w) (request_type w)
    (irecv_requests w) (comms_ w) (groups_ w) (evt_writer w) (stdout w).

Definition set_verbosity_ (v : OTF2_WRITER_VERBOSITY) (w : OTF2_Writer) : OTF2_Writer :=
  mk_writer (world_ w) v (null_request_ w) (start_time_ w) (stop_time_ w)
    (event_count_ w) (otf2_regions_table_ w) (type_sizes_ w) (request_type w)
    (irecv_requests w) (comms_ w) (groups_ w) (evt_writer w) (stdout w).

Definition set_times (t0 t1 : Z) (w : OTF2_Writer) : OTF2_Writer :=
  mk_writer (world_ w) (verbosity_ w) (null_request_ w) t0 t1
    (event_count_ w) (otf2_regions_table_ w) (type_sizes_ w) (request_type w)
    (irecv_requests w) (comms_ w) (groups_ w) (evt_writer w) (stdout w).

Definition set_regions_table (t : list string) (w : OTF2_Writer) : OTF2_Writer :=
  mk_writer (world_ w) (verbosity_ w) (null_request_ w) (start_time_ w)
    (stop_time_ w) (event_count_ w) t (type_sizes_ w) (request_type w)
    (irecv_requests w) (comms_ w) (groups_ w) (evt_writer w) (stdout w).

Definition set_type_sizes_ (m : gmap Z Z) (w : OTF2_Writer) : OTF2_Writer :=
  mk_writer (world_ w) (verbosity_ w) (null_request_ w) (start_time_ w)
    (stop_time_ w) (event_count_ w) (otf2_regions_table_ w) m (request_type w)
    (irecv_requests w) (comms_ w) (groups_ w) (evt_writer w) (stdout w).

Definition set_request_type (m : gmap Z REQUEST_TYPE) (w : OTF2_Writer) : OTF2_Writer :=
  mk_writer (world_ w) (verbosity_ w) (null_request_ w) (start_time_ w)
    (stop_time_ w) (event_count_ w) (otf2_regions_table_ w) (type_sizes_ w) m
    (irecv_requests w) (comms_ w) (groups_ w) (evt_writer w) (stdout w).

Definition set_irecv_requests (m : gmap Z irecv_capture) (w : OTF2_Writer) : OTF2_Writer :=
  mk_writer (world_ w) (verbosity_ w) (null_request_ w) (start_time_ w)
    (stop_time_ w) (event_count_ w) (otf2_regions_table_ w) (type_sizes_ w)
    (request_type w) m (comms_ w) (groups_ w) (evt_writer w) (stdout w).

Definition set_comms_ (m : gmap Z OTF2_MPI_Comm_rec) (w : OTF2_Writer) : OTF2_Writer :=
  mk_writer (world_ w) (verbosity_ w) (null_request_ w) (start_time_ w)
    (stop_time_ w) (event_count_ w) (otf2_regions_table_ w) (type_sizes_ w)
    (request_type w) (irecv_requests w) m (groups_ w) (evt_writer w) (stdout w).

Definition set_groups_ (m : gmap Z OTF2_MPI_Group) (w : OTF2_Writer) : OTF2_Writer :=
  mk_writer (world_ w) (verbosity_ w) (null_request_ w) (start_time_ w)
    (stop_time_ w) (event_count_ w) (otf2_regions_table_ w) (type_sizes_ w)
    (request_type w) (irecv_requests w) (comms_ w) m (evt_writer w) (stdout w).

(** One record written to the trace; every call of the event writer in the
    source is followed by its own increment of [event_count_]. *)
Definition write_event (e : event) (w : OTF2_Writer) : OTF2_Writer :=
  mk_writer (world_ w) (verbosity_ w) (null_request_ w) (start_time_ w)
    (stop_time_ w) (event_count_ w) (otf2_regions_table_ w) (type_sizes_ w)
    (request_type w) (irecv_requests w) (comms_ w) (groups_ w)
    (evt_writer w ++ [e]) (stdout w).

Definition add_event_count (n : Z) (w : OTF2_Writer) : OTF2_Writer :=
  mk_writer (world_ w) (verbosity_ w) (null_request_ w) (start_time_ w)
    (stop_time_ w) (event_count_ w + n) (otf2_regions_table_ w) (type_sizes_ w)
    (request_type w) (irecv_requests w) (comms_ w) (groups_ w) (evt_writer w)
    (stdout w).

Definition print_line (s : string) (w : OTF2_Writer) : OTF2_Writer :=
  mk_writer (world_ w) (verbosity_ w) (null_request_ w) (start_time_ w)
    (stop_time_ w) (event_count_ w) (otf2_regions_table_ w) (type_sizes_ w)
    (request_type w) (irecv_requests w) (comms_ w) (groups_ w) (evt_writer w)
    (stdout w ++ [s]).

(** ** The monad of member-function bodies *)

(** How the execution of a piece of a body ends.  [R] is the return type of
    the enclosing function, [A] the type of the value the piece computes. *)
Inductive outcome (R A : Type) : Type :=
| Normal (a : A) (w : OTF2_Writer)
| Returned (r : R) (w : OTF2_Writer)
| Thrown (msg : string) (w : OTF2_Writer)
| Aborted
| Undefined.

Arguments Normal {R A} a w.
Arguments Returned {R A} r w.
Arguments Thrown {R A} msg w.
Arguments Aborted {R A}.
Arguments Undefined {R A}.

Definition M (R A : Type) : Type := OTF2_Writer → outcome R A.

Definition ret {R A} (a : A) : M R A := λ w, Normal a w.

Definition bind {R A B} (m : M R A) (k : A → M R B) : M R B :=
  λ w, match m w with
       | Normal a w' => k a w'
       | Returned r w' => Returned r w'
       | Thrown msg w' => Thrown msg w'
       | Aborted => Aborted
       | Undefined => Undefined
       end.

Declare Scope body_scope.
Delimit Scope body_scope with body.
Notation "x <- m ;; k" := (bind m (λ x, k))
  (at level 100, m at next level, right associativity) : body_scope.
Notation "m ;; k" := (bind m (λ _, k))
  (at level 100, right associativity) : body_scope.
Open Scope body_scope.

Definition gets {R A} (f : OTF2_Writer → A) : M R A := λ w, Normal (f w) w.
Definition modify {R} (f : OTF2_Writer → OTF2_Writer) : M R unit :=
  λ w, Normal tt (f w).
Definition return_ {R A} (r : R) : M R A := λ w, Returned r w.
Definition throw {R A} (msg : string) : M R A := λ w, Thrown msg w.
Definition abort {R A} : M R A := λ _, Aborted.
Definition undefined {R A} : M R A := λ _, Undefined.

(** Calling a function: its [return] ends the callee, not the caller.  A
    body of a [void] function may also run off its end. *)
Definition call {R R'} (body : M R R) : M R' R :=
  λ w, match body w with
       | Normal a w' => Normal a w'
       | Returned r w' => Normal r w'
       | Thrown msg w' => Thrown msg w'
       | Aborted => Aborted
       | Undefined => Undefined
       end.

(** [for (int i = i0; ...; ++i)] running [n] times, with the local variables
    the body updates threaded through. *)
Fixpoint for_loop {R L} (n : nat) (i : Z) (body : Z → L → M R L) (locals : L) : M R L :=
  match n with
  | O => ret locals
  | S n' => l' <- body i locals ;; for_loop n' (i + 1) body l'
  end.

(** Reading [a[i]] of a C array or a vector: outside the bounds it is
    undefined behaviour. *)
Definition index {R A} (a : list A) (i : Z) : M R A :=
  if decide (0 ≤ i) then
    match a !! Z.to_nat i with
    | Some x => ret x
    | None => undefined
    end
  else undefined.

(** ** Logging and the enter/leave bracket *)

Definition prepender (level : OTF2_WRITER_VERBOSITY) : string :=
  match level with
  | OWV_ABORT => "OTF2 WRITER (ABRT): "
  | OWV_ERROR => "OTF2 WRITER  (ERR): "
  | OWV_WARN => "OTF2 WRITER  (WRN): "
  | OWV_INFO => "OTF2 WRITER (INFO): "
  | OWV_NONE => "OTF2 WRITER  (UNK): "
  end.

(** [logger]: one line on the standard output when the verbosity admits the
    level. *)
Definition logger {R} (level : OTF2_WRITER_VERBOSITY) (msg : string) : M R unit :=
  v <- gets verbosity_ ;;
  if bool_decide (verbosity_level level ≤ verbosity_level v) && bool_decide (v ≠ OWV_NONE)
  then modify (print_line (prepender level +:+ msg))
  else ret tt.

(** Modelled from the spec: the region table is a string interner (its class
    is declared in the header), "mapping a text value to a stable integer
    ID, insertion-ordered"; interning a known string returns its identifier
    and does not grow the table. *)
Definition table_insert (name : string) (t : list string) : Z * list string :=
  match list_find (λ s, s = name) t with
  | Some (i, _) => (Z.of_nat i, t)
  | None => (Z.of_nat (length t), t ++ [name])
  end.

(** The macro [_ENTER(name)]; its value is the local [this_region]. *)
Definition _ENTER {R} (name : string) (start stop : Z) : M R Z :=
  logger OWV_INFO name ;;
  modify (λ w, set_times (Z.min (start_time_ w) start) (Z.max (stop_time_ w) stop) w) ;;
  t <- gets otf2_regions_table_ ;;
  let '(this_region, t') := table_insert name t in
  modify (set_regions_table t') ;;
  modify (write_event (Enter start this_region)) ;;
  modify (add_event_count 1) ;;
  ret this_region.

(** The macro [_LEAVE()]: it ends with [return OTF2_WRITER_SUCCESS;], so
    nothing that follows it in a body is executed. *)
Definition _LEAVE {A} (stop this_region : Z) : M OTF2_WRITER_RESULT A :=
  modify (write_event (Leave stop this_region)) ;;
  modify (add_event_count 1) ;;
  return_ OTF2_WRITER_SUCCESS.

(** ** Registration *)

Definition register_null_request {R} (request : Z) : M R unit :=
  call (modify (set_null_request_ request)).

Definition set_verbosity {R} (verbosity : OTF2_WRITER_VERBOSITY) : M R unit :=
  call (modify (set_verbosity_ verbosity)).

Definition register_type {R} (type : Z) (size : Z) : M R unit :=
  call (modify (λ w, set_type_sizes_ (<[type := size]> (type_sizes_ w)) w)).

(** ** Byte counts *)

Definition unknown_type_message (type : Z) : string :=
  "Unkown data type (" +:+ pretty (to_int type) +:+ "). Assuming 4 bytes in size.".

(** [count_bytes]: the product is taken in [uint64_t]. *)
Definition count_bytes {R} (type : Z) (count : Z) : M R Z :=
  call (
    sizes <- gets type_sizes_ ;;
    match sizes !! type with
    | None =>
        logger OWV_ERROR (unknown_type_message type) ;;
        return_ (to_uint64 (4 * count))
    | Some sz => return_ (to_uint64 (sz * count))
    end).

(** ** The request tracker *)

Definition incomplete_call {R} (request_id : Z) (type : REQUEST_TYPE) : M R unit :=
  call (
    null <- gets null_request_ ;;
    if decide (request_id ≠ null)
    then modify (λ w, set_request_type (<[request_id := type]> (request_type w)) w)
    else ret tt).

(** [complete_call].  In the receive branch the source copies
    [irecv_it->second] before it compares [irecv_it] with the end of the
    table, so a missing capture is a read through the end iterator. *)
Definition complete_call {R} (request_id : Z) (timestamp : Z) : M R unit :=
  call (
    iter <- gets (λ w, request_type w !! request_id) ;;
    match iter with
    | None =>
        null <- gets null_request_ ;;
        if decide (request_id ≠ null) then abort else return_ tt
    | Some ty =>
        match ty with
        | REQUEST_TYPE_ISEND =>
            modify (write_event (MpiIsendComplete timestamp request_id)) ;;
            modify (add_event_count 1)
        | REQUEST_TYPE_IRECV =>
            irecv_it <- gets (λ w, irecv_requests w !! request_id) ;;
            match irecv_it with
            | None => undefined
            | Some irecv =>
                modify (write_event (MpiIrecv timestamp (source irecv) (comm irecv)
                                       (tag irecv) (bytes_sent irecv) request_id)) ;;
                modify (λ w, set_irecv_requests (delete request_id (irecv_requests w)) w) ;;
                modify (add_event_count 1)
            end
        end ;;
        modify (λ w, set_request_type (delete request_id (request_type w)) w)
    end).

Definition mpi_isend_inner {R} (start : Z) (type : Z) (count : Z)
    (dest : Z) (comm : Z) (tag : Z) (request : Z) : M R OTF2_WRITER_RESULT :=
  call (
    incomplete_call request REQUEST_TYPE_ISEND ;;
    bytes <- count_bytes type count ;;
    modify (write_event (MpiIsend start dest comm tag bytes request)) ;;
    modify (add_event_count 1) ;;
    return_ OTF2_WRITER_SUCCESS).

Definition mpi_isend {R} (start stop : Z) (type : Z) (count : Z)
    (dest : Z) (comm : Z) (tag : Z) (request : Z) : M R OTF2_WRITER_RESULT :=
  call (
    this_region <- _ENTER "MPI_Isend" start stop ;;
    mpi_isend_inner start type count dest comm tag request ;;
    _LEAVE stop this_region).

Definition mpi_irecv {R} (start stop : Z) (type : Z) (count : Z)
    (source : Z) (comm : Z) (tag : Z) (request : Z) : M R OTF2_WRITER_RESULT :=
  call (
    this_region <- _ENTER "MPI_Irecv" start stop ;;
    bytes <- count_bytes type count ;;
    modify (λ w, set_irecv_requests
                   (<[request := mk_irecv_capture bytes source tag comm request]>
                      (irecv_requests w)) w) ;;
    incomplete_call request REQUEST_TYPE_IRECV ;;
    modify (write_event (MpiIrecvRequest start request)) ;;
    modify (add_event_count 1) ;;
    _LEAVE stop this_region).

Definition mpi_wait {R} (start stop : Z) (request : Z) : M R OTF2_WRITER_RESULT :=
  call (
    this_region <- _ENTER "MPI_Wait" start stop ;;
    complete_call request start ;;
    _LEAVE stop this_region).

(** [mpi_waitall]; [called] is the local [std::unordered_set]. *)
Definition mpi_waitall {R} (start stop : Z) (count : Z) (requests : list Z)
    : M R OTF2_WRITER_RESULT :=
  call (
    this_region <- _ENTER "MPI_Waitall" start stop ;;
    for_loop (Z.to_nat count) 0 (λ i (called : gset Z),
      req <- index requests i ;;
      null <- gets null_request_ ;;
      if bool_decide (req ≠ null) && bool_decide (req ∉ called)
      then complete_call req start ;; ret ({[req]} ∪ called)
      else ret called) ∅ ;;
    _LEAVE stop this_region).

Definition mpi_waitsome {R} (start stop : Z) (requests : list Z)
    (outcount : Z) (indices : list Z) : M R OTF2_WRITER_RESULT :=
  call (
    this_region <- _ENTER "MPI_Waitsome" start stop ;;
    for_loop (Z.to_nat outcount) 0 (λ i (_ : unit),
      idx <- index indices i ;;
      req <- index requests idx ;;
      complete_call req start) tt ;;
    _LEAVE stop this_region).

Definition mpi_test {R} (start stop : Z) (request : Z) (flag : Z)
    : M R OTF2_WRITER_RESULT :=
  call (
    this_region <- _ENTER "MPI_Test" start stop ;;
    (if decide (flag ≠ 0) then complete_call request start else ret tt) ;;
    _LEAVE stop this_region).

Definition mpi_testall {R} (start stop : Z) (count : Z) (requests : list Z)
    (flag : Z) : M R OTF2_WRITER_RESULT :=
  call (
    this_region <- _ENTER "MPI_Testall" start stop ;;
    (if decide (flag ≠ 0) then
       for_loop (Z.to_nat count) 0 (λ i (_ : unit),
         req <- index requests i ;;
         complete_call req start) tt
     else ret tt) ;;
    _LEAVE stop this_region).

Definition mpi_testsome {R} (start stop : Z) (requests : list Z)
    (outcount : Z) (indices : list Z) : M R OTF2_WRITER_RESULT :=
  call (
    this_region <- _ENTER "MPI_Testsome" start stop ;;
    for_loop (Z.to_nat outcount) 0 (λ i (_ : unit),
      idx <- index indices i ;;
      req <- index requests idx ;;
      complete_call req start) tt ;;
    _LEAVE stop this_region).

(** The writer as its constructor leaves it, after [open_archive] stored
    the world and the driver registered the null request. *)
Definition new_writer (size rank null : Z) : OTF2_Writer :=
  mk_writer (mk_world size rank) OWV_NONE null (to_uint64 (-1)) 0 0 [] ∅ ∅ ∅ ∅ ∅ [] [].


(** ** Collective volumes *)

(** The three rank and size helpers are stubs in the source (their bodies
    are a [TODO] comment and [return 0;]). *)
Definition get_world_rank {R} (comm_rank : Z) (comm : Z) : M R Z :=
  call (return_ 0).

Definition get_comm_rank {R} (world_rank : Z) (comm : Z) : M R Z :=
  call (return_ 0).

Definition get_comm_size {R} (comm : Z) : M R Z :=
  call (return_ 0).

(** Multiplication of two [int]s: overflow is undefined behaviour. *)
Definition int_mul {R} (a b : Z) : M R Z :=
  if decide (- 2 ^ 31 ≤ a * b < 2 ^ 31) then ret (a * b) else undefined.

(** The macro [COLLECTIVE_WRAPPER(collective, sent, received)]; the two
    volume expressions are evaluated as arguments of the end record. *)
Definition COLLECTIVE_WRAPPER {R} (collective : OTF2_CollectiveOp)
    (start stop comm root : Z) (sent received : M R Z) : M R unit :=
  modify (write_event (MpiCollectiveBegin start)) ;;
  s <- sent ;;
  r <- received ;;
  modify (write_event (MpiCollectiveEnd stop collective comm root s r)) ;;
  modify (add_event_count 2).

Definition mpi_bcast {R} (start stop : Z) (count : Z) (type : Z) (root : Z) (comm : Z)
    : M R OTF2_WRITER_RESULT :=
  call (
    this_region <- _ENTER "MPI_Bcast" start stop ;;
    world_root <- get_world_rank root comm ;;
    world_rank <- gets (λ w, rank (world_ w)) ;;
    let is_root := bool_decide (world_root = world_rank) in
    b <- count_bytes type (to_uint64 count) ;;
    let bytes := to_int b in
    COLLECTIVE_WRAPPER OTF2_COLLECTIVE_OP_BCAST start stop comm root
      (if is_root then sz <- get_comm_size comm ;; int_mul bytes sz else ret 0)
      (ret bytes) ;;
    _LEAVE stop this_region).

(** ** Communicators and groups *)

(** The reserved handles are constants of the header; the values are those
    of the preamble that [write_def_files] quotes: communicator 0 is
    [MPI_COMM_WORLD] and its group is group 1. *)
Definition MPI_COMM_WORLD_ID : Z := 0.
Definition COMM_WORLD_GROUP_ID : Z := 1.

(** A record as [operator[]] creates it for a new key. *)
Definition new_group : OTF2_MPI_Group := mk_group 0 false [].
Definition new_comm : OTF2_MPI_Comm_rec := mk_comm_rec 0 0 0 false "" [].

(** [groups_[k]] and [comms_[k]] taken as references: a missing key is
    inserted first. *)
Definition groups_at {R} (k : Z) : M R unit :=
  g <- gets (λ w, groups_ w !! k) ;;
  match g with
  | Some _ => ret tt
  | None => modify (λ w, set_groups_ (<[k := new_group]> (groups_ w)) w)
  end.

Definition comms_at {R} (k : Z) : M R unit :=
  c <- gets (λ w, comms_ w !! k) ;;
  match c with
  | Some _ => ret tt
  | None => modify (λ w, set_comms_ (<[k := new_comm]> (comms_ w)) w)
  end.

(** Reading and writing through such a reference. *)
Definition group_ref {R} (k : Z) : M R OTF2_MPI_Group :=
  gets (λ w, default new_group (groups_ w !! k)).

Definition comm_ref {R} (k : Z) : M R OTF2_MPI_Comm_rec :=
  gets (λ w, default new_comm (comms_ w !! k)).

Definition group_update {R} (k : Z) (f : OTF2_MPI_Group → OTF2_MPI_Group) : M R unit :=
  modify (λ w, set_groups_ (<[k := f (default new_group (groups_ w !! k))]> (groups_ w)) w).

Definition comm_update {R} (k : Z) (f : OTF2_MPI_Comm_rec → OTF2_MPI_Comm_rec) : M R unit :=
  modify (λ w, set_comms_ (<[k := f (default new_comm (comms_ w !! k))]> (comms_ w)) w).

Definition register_comm_world {R} (id : Z) : M R unit :=
  call (
    groups_at COMM_WORLD_GROUP_ID ;;
    group_update COMM_WORLD_GROUP_ID
      (λ grp, mk_group COMM_WORLD_GROUP_ID true (global_ranks grp)) ;;
    comms_at MPI_COMM_WORLD_ID ;;
    comm_update MPI_COMM_WORLD_ID
      (λ comm, mk_comm_rec MPI_COMM_WORLD_ID MPI_COMM_WORLD_ID COMM_WORLD_GROUP_ID
                 (rec_is_root comm) "MPI_COMM_WORLD" (rec_sub_comms comm))).

(** [mpi_comm_group]: the comparison of the group handles stands after the
    macro [_LEAVE()]. *)
Definition mpi_comm_group {R} (start stop : Z) (comm : Z) (group : Z)
    : M R OTF2_WRITER_RESULT :=
  call (
    this_region <- _ENTER "MPI_Comm_group" start stop ;;
    _LEAVE (A:=unit) stop this_region ;;
    comms_at comm ;;
    comm_st <- comm_ref comm ;;
    (if decide (rec_local_group_id comm_st ≠ group)
     then throw "mismatched commmunicator group in call to MPI_Comm_group"
     else ret tt) ;;
    undefined).

(** ** Exclusion from a group *)

(** [std::set<int>::insert]: the set is its ascending list of elements, an
    iterator a position in that list, the end iterator the length. *)
Fixpoint set_insert (x : Z) (s : list Z) : list Z :=
  match s with
  | [] => [x]
  | y :: s' =>
      if decide (x < y) then x :: y :: s'
      else if decide (x = y) then y :: s'
      else y :: set_insert x s'
  end.

Definition deref {R} (s : list Z) (iter : nat) : M R Z :=
  match s !! iter with
  | Some x => ret x
  | None => undefined
  end.

(** [v.resize(n)] for a vector of [int]: a negative [int] converts to a
    size beyond [max_size()], which the library rejects by throwing. *)
Definition resize (n : Z) (v : list Z) : list Z :=
  take (Z.to_nat n) v ++ replicate (Z.to_nat n - length v) 0.

Definition global_ranks_resize {R} (k : Z) (n : Z) : M R unit :=
  if decide (0 ≤ n)
  then group_update k (λ g, mk_group (group_local_id g) (is_comm_world g)
                              (resize n (global_ranks g)))
  else throw "std::length_error".

(** [groups_[k].global_ranks[i] = x] *)
Definition global_ranks_store {R} (k : Z) (i : Z) (x : Z) : M R unit :=
  g <- group_ref k ;;
  if decide (0 ≤ i < Z.of_nat (length (global_ranks g)))
  then group_update k (λ g, mk_group (group_local_id g) (is_comm_world g)
                              (<[Z.to_nat i := x]> (global_ranks g)))
  else undefined.

(** [mpi_group_excl_first_pass]; the loop carries [iter] and
    [nextInsertIndex]. *)
Definition mpi_group_excl_first_pass {R} (start stop : Z) (group : Z) (count : Z)
    (ranks : list Z) (newgroup : Z) : M R OTF2_WRITER_RESULT :=
  call (
    groups_at group ;;
    groups_at newgroup ;;
    sortedRanks <- for_loop (Z.to_nat count) 0
                     (λ i s, r <- index ranks i ;; ret (set_insert r s)) [] ;;
    parent <- group_ref group ;;
    let numParentRanks := to_int (Z.of_nat (length (global_ranks parent))) in
    global_ranks_resize newgroup (numParentRanks - count) ;;
    for_loop (Z.to_nat numParentRanks) 0
      (λ i '(iter, nextInsertIndex),
         nextToAvoid <- deref sortedRanks iter ;;
         parent <- group_ref group ;;
         nextRank <- index (global_ranks parent) i ;;
         if decide (nextToAvoid = i)
         then ret (S iter, nextInsertIndex)
         else global_ranks_store newgroup nextInsertIndex nextRank ;;
              ret (iter, nextInsertIndex + 1))
      (O, 0) ;;
    return_ OTF2_WRITER_SUCCESS).

(** ** Notions used in the statements *)

(** The value [count_bytes] computes, as a function of the size table. *)
Definition bytes_of (sizes : gmap Z Z) (type count : Z) : Z :=
  to_uint64 (default 4 (sizes !! type) * count).

(** The region identifier [_ENTER] obtains for a call name. *)
Definition region_id (name : string) (w : OTF2_Writer) : Z :=
  (table_insert name (otf2_regions_table_ w)).1.

(** The members no tracker operation writes. *)
Definition same_tables (w w' : OTF2_Writer) : Prop :=
  world_ w' = world_ w ∧ verbosity_ w' = verbosity_ w ∧
  null_request_ w' = null_request_ w ∧ type_sizes_ w' = type_sizes_ w ∧
  comms_ w' = comms_ w ∧ groups_ w' = groups_ w.

(** The writer after [logger level msg]. *)
Definition logged (level : OTF2_WRITER_VERBOSITY) (msg : string) (w : OTF2_Writer)
    : OTF2_Writer :=
  if bool_decide (verbosity_level level ≤ verbosity_level (verbosity_ w))
     && bool_decide (verbosity_ w ≠ OWV_NONE)
  then print_line (prepender level +:+ msg) w else w.

(** The writer after the macro [_ENTER(name)] and after [_LEAVE()]. *)
Definition entered (name : string) (start stop : Z) (w : OTF2_Writer) : OTF2_Writer :=
  let w1 := logged OWV_INFO name w in
  add_event_count 1
    (write_event (Enter start (region_id name w))
       (set_regions_table (table_insert name (otf2_regions_table_ w)).2
          (set_times (Z.min (start_time_ w) start) (Z.max (stop_time_ w) stop) w1))).

Definition left (stop this_region : Z) (w : OTF2_Writer) : OTF2_Writer :=
  add_event_count 1 (write_event (Leave stop this_region) w).

(** The writer after [count_bytes type _]: only an unknown type logs. *)
Definition counted (type : Z) (w : OTF2_Writer) : OTF2_Writer :=
  match type_sizes_ w !! type with
  | Some _ => w
  | None => logged OWV_ERROR (unknown_type_message type) w
  end.

(** The writer after [incomplete_call request_id type]. *)
Definition posted (request_id : Z) (type : REQUEST_TYPE) (w : OTF2_Writer) : OTF2_Writer :=
  if decide (request_id ≠ null_request_ w)
  then set_request_type (<[request_id := type]> (request_type w)) w
  else w.

(** A writer of rank 0 in a world of four ranks, with the null request -1
    and one registered datatype, handle 11 of 8 bytes. *)
Definition example_writer : OTF2_Writer :=
  set_type_sizes_ (<[11 := 8]> ∅) (new_writer 4 0 (-1)).

(** Completing the ids of a list one after the other, each once. *)
Fixpoint complete_each {R} (ids : list Z) (timestamp : Z) : M R unit :=
  match ids with
  | [] => ret tt
  | r :: ids' => complete_call r timestamp ;; complete_each ids' timestamp
  end.

(** A request the tracker can complete: a pending send, or a pending
    receive whose payload is in the capture table. *)
Definition live (r : Z) (w : OTF2_Writer) : Prop :=
  request_type w !! r = Some REQUEST_TYPE_ISEND ∨
  (request_type w !! r = Some REQUEST_TYPE_IRECV ∧ is_Some (irecv_requests w !! r)).

(** The completion records of request [r] in a trace. *)
Definition is_completion_of (r : Z) (e : event) : bool :=
  match e with
  | MpiIsendComplete _ r' => bool_decide (r' = r)
  | MpiIrecv _ _ _ _ _ r' => bool_decide (r' = r)
  | _ => false
  end.

Definition completions_of (r : Z) (trace : list event) : nat :=
  length (filter (λ e, is_completion_of r e = true) trace).

(** Every pending receive has its payload in the capture table; the post
    functions keep it so, [mpi_irecv] writing the payload before the kind. *)
Definition tracker_consistent (w : OTF2_Writer) : Prop :=
  ∀ r, request_type w !! r = Some REQUEST_TYPE_IRECV → is_Some (irecv_requests w !! r).

(** The entries of a request array that an index array selects. *)
Definition selects (requests indices selected : list Z) : Prop :=
  Forall2 (λ idx req, 0 ≤ idx ∧ requests !! Z.to_nat idx = Some req) indices selected.

(** The members of a group whose index, counted from [i], is not among the
    excluded ones, in their order. *)
Fixpoint exclude_from (i : Z) (members excluded : list Z) : list Z :=
  match members with
  | [] => []
  | x :: members' =>
      if decide (i ∈ excluded) then exclude_from (i + 1) members' excluded
      else x :: exclude_from (i + 1) members' excluded
  end.

(** The writer with the membership vector of group [k] replaced. *)
Definition with_global_ranks (k : Z) (v : list Z) (w : OTF2_Writer) : OTF2_Writer :=
  let g := default new_group (groups_ w !! k) in
  set_groups_ (<[k := mk_group (group_local_id g) (is_comm_world g) v]> (groups_ w)) w.

(** A writer that holds group 3 with the members 0,1,2,3,4. *)
Definition group_writer : OTF2_Writer :=
  set_groups_ (<[3 := mk_group 3 false [0; 1; 2; 3; 4]]> ∅) (new_writer 5 0 (-1)).
(** ** Global communicator ids *)

Module GlobalIds.

(** Modelled from the spec: the class [tree_id] is declared in the header.
    It is the "path-of-child-indices (tree coordinate)" that locates a node
    of the forest: one index per level, the innermost level first.  A new
    level starts before its first child, [advance] moves to the next child
    of the innermost level, [remove_level] closes the level. *)
Abbreviation tree_id := (list Z) (only parsing).

Definition tree_add_level (t : tree_id) : tree_id := 0 :: t.

Definition tree_advance (t : tree_id) : tree_id :=
  match t with
  | [] => []
  | i :: t' => (i + 1) :: t'
  end.

Definition tree_remove_level (t : tree_id) : tree_id := tail t.

(** Modelled from the spec: the class [global_id_assigner] is declared in
    the header.  It walks with a tree coordinate of its own, and
    [assign_current] "request[s] the next sequential global identifier from
    a shared counter" for the node at the coordinate; [get_id] "locate[s],
    in the globally agreed enumeration, the identifier that corresponds to
    the local node at that coordinate", the unresolved sentinel -1 when
    there is none. *)
Record global_id_assigner : Type := mk_assigner {
  cursor : list Z;
  next_id : Z;
  ids : gmap (list Z) Z
}.

Definition add_level (a : global_id_assigner) : global_id_assigner :=
  mk_assigner (tree_add_level (cursor a)) (next_id a) (ids a).

Definition advance_sub_comm (a : global_id_assigner) : global_id_assigner :=
  mk_assigner (tree_advance (cursor a)) (next_id a) (ids a).

Definition remove_level (a : global_id_assigner) : global_id_assigner :=
  mk_assigner (tree_remove_level (cursor a)) (next_id a) (ids a).

Definition assign_current (a : global_id_assigner) : global_id_assigner :=
  mk_assigner (cursor a) (next_id a + 1) (<[cursor a := next_id a]> (ids a)).

Definition get_id (a : global_id_assigner) (t : tree_id) : Z :=
  default (-1) (ids a !! t).

(** *** The two passes over the communicator table *)

(** A pointer [OTF2_MPI_Comm*] is the key of the record of [comms_] it
    addresses: the pointers the file stores are [&comms_[newcomm]], and no
    entry of the table is ever erased.  The records are shared: a record
    that several pointers reach is one record, and what the assign pass
    writes into it last is what it holds.  The recursion of the source has
    no bound of its own; [fuel] bounds its depth here, and a function has
    no result ([None]) where the recursion does not end within that depth,
    as on a table whose pointers go round in a cycle, or where a key has
    no record. *)
Definition set_global_id (id : Z) (c : OTF2_MPI_Comm_rec) : OTF2_MPI_Comm_rec :=
  mk_comm_rec (rec_local_id c) id (rec_local_group_id c) (rec_is_root c) (rec_name c)
    (rec_sub_comms c).

(** [agree_global_ids(OTF2_MPI_Comm*, global_id_assigner&)]; the inner
    loop is [agree_global_ids(const std::list<OTF2_MPI_Comm*>&, ...)]. *)
Fixpoint agree_global_ids_comm (fuel : nat) (comms : gmap Z OTF2_MPI_Comm_rec) (comm : Z)
    (assigner : global_id_assigner) : option global_id_assigner :=
  match fuel with
  | O => None
  | S fuel' =>
      match comms !! comm with
      | None => None
      | Some c =>
          let assigner := if rec_is_root c then assign_current assigner else assigner in
          match rec_sub_comms c with
          | [] => Some assigner
          | subs =>
              match
                (fix loop (subs : list Z) (a : global_id_assigner)
                   : option global_id_assigner :=
                   match subs with
                   | [] => Some a
                   | sub :: rest =>
                       match agree_global_ids_comm fuel' comms sub (advance_sub_comm a) with
                       | Some a' => loop rest a'
                       | None => None
                       end
                   end) subs (add_level assigner)
              with
              | Some a => Some (remove_level a)
              | None => None
              end
          end
      end
  end.

Definition agree_loop (fuel : nat) (comms : gmap Z OTF2_MPI_Comm_rec)
    : list Z → global_id_assigner → option global_id_assigner :=
  fix loop (subs : list Z) (a : global_id_assigner) : option global_id_assigner :=
    match subs with
    | [] => Some a
    | sub :: rest =>
        match agree_global_ids_comm fuel comms sub (advance_sub_comm a) with
        | Some a' => loop rest a'
        | None => None
        end
    end.

Definition agree_global_ids_subs (fuel : nat) (comms : gmap Z OTF2_MPI_Comm_rec)
    (subs : list Z) (assigner : global_id_assigner) : option global_id_assigner :=
  match agree_loop fuel comms subs (add_level assigner) with
  | Some a => Some (remove_level a)
  | None => None
  end.

(** [comms_[k]] taken as a reference: the record, and the writer with the
    record created when it was missing. *)
Definition comms_index (k : Z) (w : OTF2_Writer) : OTF2_MPI_Comm_rec * OTF2_Writer :=
  match comms_ w !! k with
  | Some c => (c, w)
  | None => (new_comm, set_comms_ (<[k := new_comm]> (comms_ w)) w)
  end.

(** [agree_global_ids(global_id_assigner&)]. *)
Definition agree_global_ids (fuel : nat) (assigner : global_id_assigner) (w : OTF2_Writer)
    : option (global_id_assigner * OTF2_Writer) :=
  let '(world, w1) := comms_index MPI_COMM_WORLD_ID w in
  match agree_global_ids_subs fuel (comms_ w1) (rec_sub_comms world) assigner with
  | Some a => Some (a, w1)
  | None => None
  end.

(** [assign_global_ids(OTF2_MPI_Comm*, const global_id_assigner&, tree_id&)]:
    the table after the call and [local_ids] as the call leaves it. *)
Fixpoint assign_global_ids_comm (fuel : nat) (comm : Z) (global_ids : global_id_assigner)
    (comms : gmap Z OTF2_MPI_Comm_rec) (local_ids : list Z)
    : option (gmap Z OTF2_MPI_Comm_rec * list Z) :=
  match fuel with
  | O => None
  | S fuel' =>
      match comms !! comm with
      | None => None
      | Some c =>
          let id := get_id global_ids local_ids in
          let comms := alter (set_global_id id) comm comms in
          match rec_sub_comms c with
          | [] => Some (comms, local_ids)
          | subs =>
              match
                (fix loop (subs : list Z) (comms : gmap Z OTF2_MPI_Comm_rec) (t : list Z)
                   : option (gmap Z OTF2_MPI_Comm_rec * list Z) :=
                   match subs with
                   | [] => Some (comms, t)
                   | sub :: rest =>
                       match assign_global_ids_comm fuel' sub global_ids comms
                               (tree_advance t) with
                       | Some (comms', t') => loop rest comms' t'
                       | None => None
                       end
                   end) subs comms (tree_add_level local_ids)
              with
              | Some (comms', t) => Some (comms', tree_remove_level t)
              | None => None
              end
          end
      end
  end.

Definition assign_loop (fuel : nat) (global_ids : global_id_assigner)
    : list Z → gmap Z OTF2_MPI_Comm_rec → list Z
      → option (gmap Z OTF2_MPI_Comm_rec * list Z) :=
  fix loop (subs : list Z) (comms : gmap Z OTF2_MPI_Comm_rec) (t : list Z)
    : option (gmap Z OTF2_MPI_Comm_rec * list Z) :=
    match subs with
    | [] => Some (comms, t)
    | sub :: rest =>
        match assign_global_ids_comm fuel sub global_ids comms (tree_advance t) with
        | Some (comms', t') => loop rest comms' t'
        | None => None
        end
    end.

Definition assign_global_ids_subs (fuel : nat) (global_ids : global_id_assigner)
    (subs : list Z) (comms : gmap Z OTF2_MPI_Comm_rec) (local_ids : list Z)
    : option (gmap Z OTF2_MPI_Comm_rec * list Z) :=
  match assign_loop fuel global_ids subs comms (tree_add_level local_ids) with
  | Some (comms', t) => Some (comms', tree_remove_level t)
  | None => None
  end.

(** [assign_global_ids(const global_id_assigner&)]: a fresh [tree_id], the
    children of the world communicator. *)
Definition assign_global_ids (fuel : nat) (global_ids : global_id_assigner)
    (w : OTF2_Writer) : option OTF2_Writer :=
  let '(world, w1) := comms_index MPI_COMM_WORLD_ID w in
  match assign_global_ids_subs fuel global_ids (rec_sub_comms world) (comms_ w1) [] with
  | Some (comms', _) => Some (set_comms_ comms' w1)
  | None => None
  end.

(** *** Notions used in the statements *)

(** The pointers of a table and nothing else: for each key the keys of
    its children, in the order of the list. *)
Definition pointers (comms : gmap Z OTF2_MPI_Comm_rec) : gmap Z (list Z) :=
  rec_sub_comms <$> comms.

(** The coordinate of the child at position [k] of a node at [t]. *)
Definition child_coordinate (t : list Z) (k : nat) : list Z :=
  (Z.of_nat k + 1) :: t.

(** The walk from a key at a coordinate: depth first, a node before its
    children, the children in the order of the list; each visit with the
    key and the coordinate.  It is a function of the pointers alone. *)
Fixpoint visits_from (fuel : nat) (ptrs : gmap Z (list Z)) (comm : Z) (here : list Z)
    : option (list (Z * list Z)) :=
  match fuel with
  | O => None
  | S fuel' =>
      match ptrs !! comm with
      | None => None
      | Some subs =>
          match
            (fix below (subs : list Z) (k : nat) : option (list (Z * list Z)) :=
               match subs with
               | [] => Some []
               | sub :: rest =>
                   match visits_from fuel' ptrs sub (child_coordinate here k) with
                   | Some v =>
                       match below rest (S k) with
                       | Some vs => Some (v ++ vs)
                       | None => None
                       end
                   | None => None
                   end
               end) subs O
          with
          | Some vs => Some ((comm, here) :: vs)
          | None => None
          end
      end
  end.

Definition visits_below (fuel : nat) (ptrs : gmap Z (list Z)) (here : list Z)
    : list Z → nat → option (list (Z * list Z)) :=
  fix below (subs : list Z) (k : nat) : option (list (Z * list Z)) :=
    match subs with
    | [] => Some []
    | sub :: rest =>
        match visits_from fuel ptrs sub (child_coordinate here k) with
        | Some v =>
            match below rest (S k) with
            | Some vs => Some (v ++ vs)
            | None => None
            end
        | None => None
        end
    end.

(** The walk of a writer: below the world communicator, from the empty
    coordinate. *)
Definition walk (fuel : nat) (w : OTF2_Writer) : option (list (Z * list Z)) :=
  visits_below fuel (pointers (comms_ w)) []
    (rec_sub_comms (default new_comm (comms_ w !! MPI_COMM_WORLD_ID))) O.

(** The coordinates, among those of a walk, of the visits of records
    whose root flag is set, and the table entry [assign_current] makes at
    a coordinate. *)
Definition root_coordinates (comms : gmap Z OTF2_MPI_Comm_rec) (visits : list (Z * list Z))
    : list (list Z) :=
  omap (λ v, match comms !! v.1 with
             | Some c => if rec_is_root c then Some v.2 else None
             | None => None
             end) visits.

Definition assign_at (a : global_id_assigner) (t : list Z) : global_id_assigner :=
  mk_assigner (cursor a) (next_id a + 1) (<[t := next_id a]> (ids a)).

Definition set_cursor (t : list Z) (a : global_id_assigner) : global_id_assigner :=
  mk_assigner t (next_id a) (ids a).

(** What the assign pass writes at one visit. *)
Definition store_id (g : global_id_assigner) (comms : gmap Z OTF2_MPI_Comm_rec)
    (v : Z * list Z) : gmap Z OTF2_MPI_Comm_rec :=
  alter (set_global_id (get_id g v.2)) v.1 comms.

(** The coordinate of the last visit of a key in a walk. *)
Definition last_visit (key : Z) (visits : list (Z * list Z)) : option (list Z) :=
  snd <$> last (filter (λ v, v.1 = key) visits).


(** Modelled from the spec: the driver of the protocol is not in this
    file.  The two passes are "executed once after all ranks have completed
    their Pass 1": every rank's agree pass draws from the one shared
    assigner, then every rank's assign pass reads the result. *)
Definition fresh_assigner (first_id : Z) : global_id_assigner :=
  mk_assigner [] first_id ∅.





(** One pointer of a table: the record at [c] has [d] among its children. *)
Definition points (ptrs : gmap Z (list Z)) (c d : Z) : Prop :=
  ∃ subs, ptrs !! c = Some subs ∧ d ∈ subs.

End GlobalIds.

(** * The rest of the request, type, group and communicator functions *)

(** ** Sum of an array *)

(** Addition of two [int]s: overflow is undefined behaviour. *)
Definition int_add {R} (a b : Z) : M R Z :=
  if decide (- 2 ^ 31 ≤ a + b < 2 ^ 31) then ret (a + b) else undefined.

(** The template [array_sum] at the element type [const int], its only
    use in the file. *)
Definition array_sum {R} (t : list Z) (n : Z) : M R Z :=
  call (
    sum <- for_loop (Z.to_nat n) 0 (λ i sum, x <- index t i ;; int_add sum x) 0 ;;
    return_ sum).

(** ** The other posts and completions *)

Definition mpi_ibsend {R} (start stop : Z) (type : Z) (count : Z)
    (dest : Z) (comm : Z) (tag : Z) (request : Z) : M R OTF2_WRITER_RESULT :=
  call (
    this_region <- _ENTER "MPI_Ibsend" start stop ;;
    mpi_isend_inner start type count dest comm tag request ;;
    _LEAVE stop this_region).

Definition mpi_issend {R} (start stop : Z) (type : Z) (count : Z)
    (dest : Z) (comm : Z) (tag : Z) (request : Z) : M R OTF2_WRITER_RESULT :=
  call (
    this_region <- _ENTER "MPI_Issend" start stop ;;
    mpi_isend_inner start type count dest comm tag request ;;
    _LEAVE stop this_region).

Definition mpi_irsend {R} (start stop : Z) (type : Z) (count : Z)
    (dest : Z) (comm : Z) (tag : Z) (request : Z) : M R OTF2_WRITER_RESULT :=
  call (
    this_region <- _ENTER "MPI_Irsend" start stop ;;
    mpi_isend_inner start type count dest comm tag request ;;
    _LEAVE stop this_region).

Definition generic_call {R} (start stop : Z) (name : string) : M R OTF2_WRITER_RESULT :=
  call (
    this_region <- _ENTER name start stop ;;
    _LEAVE stop this_region).

Definition mpi_waitany {R} (start stop : Z) (request : Z) : M R OTF2_WRITER_RESULT :=
  call (
    this_region <- _ENTER "MPI_Waitany" start stop ;;
    complete_call request start ;;
    _LEAVE stop this_region).

Definition mpi_testany {R} (start stop : Z) (requests : list Z) (index_ : Z) (flag : Z)
    : M R OTF2_WRITER_RESULT :=
  call (
    this_region <- _ENTER "MPI_Testany" start stop ;;
    (if decide (flag ≠ 0)
     then req <- index requests index_ ;; complete_call req start
     else ret tt) ;;
    _LEAVE stop this_region).

(** ** Derived datatypes *)

Definition type_is_known {R} (type : Z) : M R bool :=
  call (
    sizes <- gets type_sizes_ ;;
    match sizes !! type with
    | None => logger OWV_WARN ("Unknown Type (" +:+ pretty type) ;; return_ false
    | Some _ => return_ true
    end).

Section derived_types.

(** The mapped type of [type_sizes_] is declared in the header; [to_size]
    is the conversion of an integer value to it, which every assignment
    [type_sizes_[newtype] = ...] applies. *)
Variable to_size : Z → Z.

Definition type_sizes_assign {R} (newtype : Z) (value : Z) : M R unit :=
  modify (λ w, set_type_sizes_ (<[newtype := to_size value]> (type_sizes_ w)) w).

Definition mpi_type_contiguous {R} (start stop : Z) (count : Z) (oldtype newtype : Z)
    : M R OTF2_WRITER_RESULT :=
  call (
    this_region <- _ENTER "MPI_Type_contiguous" start stop ;;
    known <- type_is_known oldtype ;;
    (if known then ret tt
     else logger OWV_ERROR "MPI_type_contiguous failed" ;;
          return_ OTF2_WRITER_ERROR_UKNOWN_MPI_TYPE) ;;
    bytes <- count_bytes oldtype (to_uint64 count) ;;
    type_sizes_assign newtype bytes ;;
    _LEAVE stop this_region).

Definition mpi_t_vector_inner {R} (fname : string) (count blocklength : Z)
    (oldtype newtype : Z) : M R unit :=
  call (
    known <- type_is_known oldtype ;;
    (if known then ret tt
     else logger OWV_ERROR (fname +:+ " failed") ;; return_ tt) ;;
    bytes <- count_bytes oldtype (to_uint64 blocklength) ;;
    type_sizes_assign newtype (to_uint64 (bytes * to_uint64 count))).

Definition mpi_type_hvector {R} (start stop : Z) (count blocklength : Z)
    (oldtype newtype : Z) : M R OTF2_WRITER_RESULT :=
  call (
    this_region <- _ENTER "MPI_Type_hvector" start stop ;;
    mpi_t_vector_inner "MPI_Type_hvector" count blocklength oldtype newtype ;;
    _LEAVE stop this_region).

Definition mpi_type_vector {R} (start stop : Z) (count blocklength : Z)
    (oldtype newtype : Z) : M R OTF2_WRITER_RESULT :=
  call (
    this_region <- _ENTER "MPI_Type_vector" start stop ;;
    mpi_t_vector_inner "MPI_Type_vector" count blocklength oldtype newtype ;;
    _LEAVE stop this_region).

Definition mpi_type_create_hvector {R} (start stop : Z) (count blocklength : Z)
    (oldtype newtype : Z) : M R OTF2_WRITER_RESULT :=
  call (
    this_region <- _ENTER "MPI_Type_create_hvector" start stop ;;
    mpi_t_vector_inner "MPI_Type_create_hvector" count blocklength oldtype newtype ;;
    _LEAVE stop this_region).

Definition mpi_t_indexed_inner {R} (name : string) (count : Z) (lengths : list Z)
    (oldtype newtype : Z) : M R unit :=
  call (
    known <- type_is_known oldtype ;;
    (if known then ret tt
     else logger OWV_ERROR (name +:+ " failed") ;; return_ tt) ;;
    total <- array_sum lengths count ;;
    bytes <- count_bytes oldtype (to_uint64 total) ;;
    type_sizes_assign newtype bytes).

Definition mpi_type_indexed {R} (start stop : Z) (count : Z) (lengths : list Z)
    (oldtype newtype : Z) : M R OTF2_WRITER_RESULT :=
  call (
    this_region <- _ENTER "MPI_Type_indexed" start stop ;;
    mpi_t_indexed_inner "MPI_Type_indexed" count lengths oldtype newtype ;;
    _LEAVE stop this_region).

Definition mpi_type_hindexed {R} (start stop : Z) (count : Z) (lengths : list Z)
    (oldtype newtype : Z) : M R OTF2_WRITER_RESULT :=
  call (
    this_region <- _ENTER "MPI_Type_hindexed" start stop ;;
    mpi_t_indexed_inner "MPI_Type_hindexed" count lengths oldtype newtype ;;
    _LEAVE stop this_region).

(** [mpi_type_create_hindexed] enters and reports under the name of
    [MPI_Type_hindexed], as the source has it. *)
Definition mpi_type_create_hindexed {R} (start stop : Z) (count : Z) (lengths : list Z)
    (oldtype newtype : Z) : M R OTF2_WRITER_RESULT :=
  call (
    this_region <- _ENTER "MPI_Type_hindexed" start stop ;;
    mpi_t_indexed_inner "MPI_Type_hindexed" count lengths oldtype newtype ;;
    _LEAVE stop this_region).

(** [mpi_t_struct_inner]: the local [sum] is an [int], each addend a
    [uint64_t]. *)
Definition mpi_t_struct_inner {R} (fname : string) (count : Z) (blocklengths : list Z)
    (oldtypes : list Z) (newtype : Z) : M R unit :=
  call (
    sum <- for_loop (Z.to_nat count) 0
             (λ i sum,
                oldtype <- index oldtypes i ;;
                known <- type_is_known oldtype ;;
                (if known then ret tt
                 else logger OWV_ERROR (fname +:+ "failed") ;; return_ tt) ;;
                blocklength <- index blocklengths i ;;
                bytes <- count_bytes oldtype (to_uint64 blocklength) ;;
                ret (to_int (to_uint64 sum + bytes))) 0 ;;
    type_sizes_assign newtype sum).

Definition mpi_type_struct {R} (start stop : Z) (count : Z) (blocklengths : list Z)
    (oldtypes : list Z) (newtype : Z) : M R OTF2_WRITER_RESULT :=
  call (
    this_region <- _ENTER "MPI_Type_struct" start stop ;;
    mpi_t_struct_inner "MPI_Type_struct" count blocklengths oldtypes newtype ;;
    _LEAVE stop this_region).

Definition mpi_type_create_struct {R} (start stop : Z) (count : Z) (blocklengths : list Z)
    (oldtypes : list Z) (newtype : Z) : M R OTF2_WRITER_RESULT :=
  call (
    this_region <- _ENTER "MPI_Type_create_struct" start stop ;;
    mpi_t_struct_inner "MPI_Type_create_struct" count blocklengths oldtypes newtype ;;
    _LEAVE stop this_region).

Definition mpi_type_create_subarray {R} (start stop : Z) (ndims : Z) (subsizes : list Z)
    (oldtype newtype : Z) : M R OTF2_WRITER_RESULT :=
  call (
    this_region <- _ENTER "MPI_Type_create_subarray" start stop ;;
    known <- type_is_known oldtype ;;
    (if known then ret tt
     else logger OWV_ERROR "MPI_Type_create_subarray failed" ;;
          return_ OTF2_WRITER_ERROR_UKNOWN_MPI_TYPE) ;;
    total <- array_sum subsizes ndims ;;
    bytes <- count_bytes oldtype (to_uint64 total) ;;
    type_sizes_assign newtype bytes ;;
    _LEAVE stop this_region).

End derived_types.

(** ** Groups and communicators: the first pass *)

Definition mpi_group_union_first_pass {R} (start stop : Z) (group1 group2 newgroup : Z)
    : M R OTF2_WRITER_RESULT :=
  call (
    groups_at group1 ;;
    groups_at group2 ;;
    groups_at newgroup ;;
    throw (A:=unit) "Unimplemented: mpi_group_union" ;;
    return_ OTF2_WRITER_SUCCESS).

Definition mpi_group_difference_first_pass {R} (start stop : Z) (group1 group2 newgroup : Z)
    : M R OTF2_WRITER_RESULT :=
  call (
    groups_at group1 ;;
    groups_at group2 ;;
    groups_at newgroup ;;
    throw (A:=unit) "Unimplemented: mpi_group_difference" ;;
    return_ OTF2_WRITER_SUCCESS).

Definition mpi_group_intersection_first_pass {R} (start stop : Z)
    (group1 group2 newgroup : Z) : M R OTF2_WRITER_RESULT :=
  call (
    groups_at group1 ;;
    groups_at group2 ;;
    groups_at newgroup ;;
    throw (A:=unit) "Unimplemented: mpi_group_intersection" ;;
    return_ OTF2_WRITER_SUCCESS).

(** The array of ranges is not read. *)
Definition mpi_group_range_incl_first_pass {R} (start stop : Z) (group : Z) (count : Z)
    (ranges : list (list Z)) (newgroup : Z) : M R OTF2_WRITER_RESULT :=
  call (
    groups_at group ;;
    groups_at newgroup ;;
    throw (A:=unit) "Unimplemented: mpi_group_range_incl" ;;
    return_ OTF2_WRITER_SUCCESS).

Definition mpi_group_incl_first_pass {R} (start stop : Z) (group : Z) (count : Z)
    (ranks : list Z) (newgroup : Z) : M R OTF2_WRITER_RESULT :=
  call (
    groups_at group ;;
    groups_at newgroup ;;
    global_ranks_resize newgroup count ;;
    for_loop (Z.to_nat count) 0
      (λ i (_ : unit),
         r <- index ranks i ;;
         parent <- group_ref group ;;
         x <- index (global_ranks parent) r ;;
         global_ranks_store newgroup i x) tt ;;
    return_ OTF2_WRITER_SUCCESS).

(** [mpi_comm_dup_first_pass]: the fields of the duplicate are assigned one
    after the other from the parent record, then the parent's list of
    children is extended at its end. *)
Definition mpi_comm_dup_first_pass {R} (start stop : Z) (comm newcomm : Z)
    : M R OTF2_WRITER_RESULT :=
  call (
    comms_at comm ;;
    comms_at newcomm ;;
    comm_update newcomm
      (λ dup, mk_comm_rec newcomm (rec_global_id dup) (rec_local_group_id dup)
                (rec_is_root dup) (rec_name dup) (rec_sub_comms dup)) ;;
    parent_comm <- comm_ref comm ;;
    comm_update newcomm
      (λ dup, mk_comm_rec (rec_local_id dup) (rec_global_id parent_comm)
                (rec_local_group_id dup) (rec_is_root dup) (rec_name dup)
                (rec_sub_comms dup)) ;;
    parent_comm <- comm_ref comm ;;
    comm_update newcomm
      (λ dup, mk_comm_rec (rec_local_id dup) (rec_global_id dup)
                (rec_local_group_id parent_comm) (rec_is_root dup) (rec_name dup)
                (rec_sub_comms dup)) ;;
    parent_comm <- comm_ref comm ;;
    comm_update newcomm
      (λ dup, mk_comm_rec (rec_local_id dup) (rec_global_id dup)
                (rec_local_group_id dup) (rec_is_root parent_comm) (rec_name dup)
                (rec_sub_comms dup)) ;;
    comm_update comm
      (λ parent, mk_comm_rec (rec_local_id parent) (rec_global_id parent)
                   (rec_local_group_id parent) (rec_is_root parent) (rec_name parent)
                   (rec_sub_comms parent ++ [newcomm])) ;;
    return_ OTF2_WRITER_SUCCESS).

Definition mpi_comm_create_first_pass {R} (start stop : Z) (comm : Z) (group : Z)
    (newcomm : Z) : M R OTF2_WRITER_RESULT :=
  call (
    comms_at comm ;;
    comms_at newcomm ;;
    groups_at group ;;
    world_rank <- gets (λ w, rank (world_ w)) ;;
    subgrp <- group_ref group ;;
    first <- index (global_ranks subgrp) 0 ;;
    (if decide (world_rank = first)
     then comm_update newcomm
            (λ sub, mk_comm_rec (rec_local_id sub) (rec_global_id sub)
                      (rec_local_group_id sub) true (rec_name sub) (rec_sub_comms sub))
     else ret tt) ;;
    comm_update comm
      (λ parent, mk_comm_rec (rec_local_id parent) (rec_global_id parent)
                   (rec_local_group_id parent) (rec_is_root parent) (rec_name parent)
                   (rec_sub_comms parent ++ [newcomm])) ;;
    return_ OTF2_WRITER_SUCCESS).

Definition mpi_comm_split_first_pass {R} (start stop : Z) (oldcomm : Z) (key color : Z)
    (newcomm : Z) : M R OTF2_WRITER_RESULT :=
  call (return_ OTF2_WRITER_SUCCESS).

(** ** Groups and communicators: the trace pass *)

Definition mpi_group_union {R} (start stop : Z) (group1 group2 newgroup : Z)
    : M R OTF2_WRITER_RESULT :=
  call (this_region <- _ENTER "MPI_Group_union" start stop ;; _LEAVE stop this_region).

Definition mpi_group_difference {R} (start stop : Z) (group1 group2 newgroup : Z)
    : M R OTF2_WRITER_RESULT :=
  call (this_region <- _ENTER "MPI_Group_difference" start stop ;; _LEAVE stop this_region).

Definition mpi_group_intersection {R} (start stop : Z) (group1 group2 newgroup : Z)
    : M R OTF2_WRITER_RESULT :=
  call (this_region <- _ENTER "MPI_Group_intersection" start stop ;;
        _LEAVE stop this_region).

Definition mpi_group_incl {R} (start stop : Z) (group : Z) (count : Z) (ranks : list Z)
    (newgroup : Z) : M R OTF2_WRITER_RESULT :=
  call (this_region <- _ENTER "MPI_Group_incl" start stop ;; _LEAVE stop this_region).

Definition mpi_group_excl {R} (start stop : Z) (group : Z) (count : Z) (ranks : list Z)
    (newgroup : Z) : M R OTF2_WRITER_RESULT :=
  call (this_region <- _ENTER "MPI_Group_excl" start stop ;; _LEAVE stop this_region).

Definition mpi_group_range_incl {R} (start stop : Z) (group : Z) (count : Z)
    (ranges : list (list Z)) (newgroup : Z) : M R OTF2_WRITER_RESULT :=
  call (this_region <- _ENTER "MPI_Group_range_incl" start stop ;;
        _LEAVE stop this_region).

Definition mpi_comm_dup {R} (start stop : Z) (comm newcomm : Z) : M R OTF2_WRITER_RESULT :=
  call (this_region <- _ENTER "MPI_Comm_dup" start stop ;; _LEAVE stop this_region).

Definition mpi_comm_create {R} (start stop : Z) (comm : Z) (group : Z) (newcomm : Z)
    : M R OTF2_WRITER_RESULT :=
  call (this_region <- _ENTER "MPI_Comm_create" start stop ;; _LEAVE stop this_region).

Definition mpi_comm_split {R} (start stop : Z) (oldcomm : Z) (key color : Z) (newcomm : Z)
    : M R OTF2_WRITER_RESULT :=
  call (this_region <- _ENTER "MPI_Comm_split" start stop ;; _LEAVE stop this_region).

(** ** Sequences of trace-pass calls *)

(** One call of a trace-pass member function, with its arguments other
    than the two timestamps. *)
Inductive mpi_call : Type :=
| Call_generic_call (name : string)
| Call_mpi_isend (type count dest comm tag request : Z)
| Call_mpi_ibsend (type count dest comm tag request : Z)
| Call_mpi_issend (type count dest comm tag request : Z)
| Call_mpi_irsend (type count dest comm tag request : Z)
| Call_mpi_irecv (type count source comm tag request : Z)
| Call_mpi_wait (request : Z)
| Call_mpi_waitany (request : Z)
| Call_mpi_waitall (count : Z) (requests : list Z)
| Call_mpi_waitsome (requests : list Z) (outcount : Z) (indices : list Z)
| Call_mpi_test (request : Z) (flag : Z)
| Call_mpi_testany (requests : list Z) (index_ : Z) (flag : Z)
| Call_mpi_testall (count : Z) (requests : list Z) (flag : Z)
| Call_mpi_testsome (requests : list Z) (outcount : Z) (indices : list Z)
| Call_mpi_bcast (count type root comm : Z)
| Call_mpi_group_union (group1 group2 newgroup : Z)
| Call_mpi_group_difference (group1 group2 newgroup : Z)
| Call_mpi_group_intersection (group1 group2 newgroup : Z)
| Call_mpi_group_incl (group count : Z) (ranks : list Z) (newgroup : Z)
| Call_mpi_group_excl (group count : Z) (ranks : list Z) (newgroup : Z)
| Call_mpi_group_range_incl (group count : Z) (ranges : list (list Z)) (newgroup : Z)
| Call_mpi_comm_dup (comm newcomm : Z)
| Call_mpi_comm_group (comm group : Z)
| Call_mpi_comm_create (comm group newcomm : Z)
| Call_mpi_comm_split (oldcomm key color newcomm : Z)
| Call_mpi_type_contiguous (count oldtype newtype : Z)
| Call_mpi_type_hvector (count blocklength oldtype newtype : Z)
| Call_mpi_type_vector (count blocklength oldtype newtype : Z)
| Call_mpi_type_create_hvector (count blocklength oldtype newtype : Z)
| Call_mpi_type_indexed (count : Z) (lengths : list Z) (oldtype newtype : Z)
| Call_mpi_type_hindexed (count : Z) (lengths : list Z) (oldtype newtype : Z)
| Call_mpi_type_create_hindexed (count : Z) (lengths : list Z) (oldtype newtype : Z)
| Call_mpi_type_struct (count : Z) (blocklengths oldtypes : list Z) (newtype : Z)
| Call_mpi_type_create_struct (count : Z) (blocklengths oldtypes : list Z) (newtype : Z)
| Call_mpi_type_create_subarray (ndims : Z) (subsizes : list Z) (oldtype newtype : Z).

(** The name under which a call enters its region. *)
Definition call_name (c : mpi_call) : string :=
  match c with
  | Call_generic_call name => name
  | Call_mpi_isend _ _ _ _ _ _ => "MPI_Isend"
  | Call_mpi_ibsend _ _ _ _ _ _ => "MPI_Ibsend"
  | Call_mpi_issend _ _ _ _ _ _ => "MPI_Issend"
  | Call_mpi_irsend _ _ _ _ _ _ => "MPI_Irsend"
  | Call_mpi_irecv _ _ _ _ _ _ => "MPI_Irecv"
  | Call_mpi_wait _ => "MPI_Wait"
  | Call_mpi_waitany _ => "MPI_Waitany"
  | Call_mpi_waitall _ _ => "MPI_Waitall"
  | Call_mpi_waitsome _ _ _ => "MPI_Waitsome"
  | Call_mpi_test _ _ => "MPI_Test"
  | Call_mpi_testany _ _ _ => "MPI_Testany"
  | Call_mpi_testall _ _ _ => "MPI_Testall"
  | Call_mpi_testsome _ _ _ => "MPI_Testsome"
  | Call_mpi_bcast _ _ _ _ => "MPI_Bcast"
  | Call_mpi_group_union _ _ _ => "MPI_Group_union"
  | Call_mpi_group_difference _ _ _ => "MPI_Group_difference"
  | Call_mpi_group_intersection _ _ _ => "MPI_Group_intersection"
  | Call_mpi_group_incl _ _ _ _ => "MPI_Group_incl"
  | Call_mpi_group_excl _ _ _ _ => "MPI_Group_excl"
  | Call_mpi_group_range_incl _ _ _ _ => "MPI_Group_range_incl"
  | Call_mpi_comm_dup _ _ => "MPI_Comm_dup"
  | Call_mpi_comm_group _ _ => "MPI_Comm_group"
  | Call_mpi_comm_create _ _ _ => "MPI_Comm_create"
  | Call_mpi_comm_split _ _ _ _ => "MPI_Comm_split"
  | Call_mpi_type_contiguous _ _ _ => "MPI_Type_contiguous"
  | Call_mpi_type_hvector _ _ _ _ => "MPI_Type_hvector"
  | Call_mpi_type_vector _ _ _ _ => "MPI_Type_vector"
  | Call_mpi_type_create_hvector _ _ _ _ => "MPI_Type_create_hvector"
  | Call_mpi_type_indexed _ _ _ _ => "MPI_Type_indexed"
  | Call_mpi_type_hindexed _ _ _ _ => "MPI_Type_hindexed"
  | Call_mpi_type_create_hindexed _ _ _ _ => "MPI_Type_hindexed"
  | Call_mpi_type_struct _ _ _ _ => "MPI_Type_struct"
  | Call_mpi_type_create_struct _ _ _ _ => "MPI_Type_create_struct"
  | Call_mpi_type_create_subarray _ _ _ _ => "MPI_Type_create_subarray"
  end.

Section sequences.

Variable to_size : Z → Z.

Definition perform {R} (start stop : Z) (c : mpi_call) : M R OTF2_WRITER_RESULT :=
  match c with
  | Call_generic_call name => generic_call start stop name
  | Call_mpi_isend type count dest comm tag request =>
      mpi_isend start stop type count dest comm tag request
  | Call_mpi_ibsend type count dest comm tag request =>
      mpi_ibsend start stop type count dest comm tag request
  | Call_mpi_issend type count dest comm tag request =>
      mpi_issend start stop type count dest comm tag request
  | Call_mpi_irsend type count dest comm tag request =>
      mpi_irsend start stop type count dest comm tag request
  | Call_mpi_irecv type count source comm tag request =>
      mpi_irecv start stop type count source comm tag request
  | Call_mpi_wait request => mpi_wait start stop request
  | Call_mpi_waitany request => mpi_waitany start stop request
  | Call_mpi_waitall count requests => mpi_waitall start stop count requests
  | Call_mpi_waitsome requests outcount indices =>
      mpi_waitsome start stop requests outcount indices
  | Call_mpi_test request flag => mpi_test start stop request flag
  | Call_mpi_testany requests index_ flag => mpi_testany start stop requests index_ flag
  | Call_mpi_testall count requests flag => mpi_testall start stop count requests flag
  | Call_mpi_testsome requests outcount indices =>
      mpi_testsome start stop requests outcount indices
  | Call_mpi_bcast count type root comm => mpi_bcast start stop count type root comm
  | Call_mpi_group_union group1 group2 newgroup =>
      mpi_group_union start stop group1 group2 newgroup
  | Call_mpi_group_difference group1 group2 newgroup =>
      mpi_group_difference start stop group1 group2 newgroup
  | Call_mpi_group_intersection group1 group2 newgroup =>
      mpi_group_intersection start stop group1 group2 newgroup
  | Call_mpi_group_incl group count ranks newgroup =>
      mpi_group_incl start stop group count ranks newgroup
  | Call_mpi_group_excl group count ranks newgroup =>
      mpi_group_excl start stop group count ranks newgroup
  | Call_mpi_group_range_incl group count ranges newgroup =>
      mpi_group_range_incl start stop group count ranges newgroup
  | Call_mpi_comm_dup comm newcomm => mpi_comm_dup start stop comm newcomm
  | Call_mpi_comm_group comm group => mpi_comm_group start stop comm group
  | Call_mpi_comm_create comm group newcomm => mpi_comm_create start stop comm group newcomm
  | Call_mpi_comm_split oldcomm key color newcomm =>
      mpi_comm_split start stop oldcomm key color newcomm
  | Call_mpi_type_contiguous count oldtype newtype =>
      mpi_type_contiguous to_size start stop count oldtype newtype
  | Call_mpi_type_hvector count blocklength oldtype newtype =>
      mpi_type_hvector to_size start stop count blocklength oldtype newtype
  | Call_mpi_type_vector count blocklength oldtype newtype =>
      mpi_type_vector to_size start stop count blocklength oldtype newtype
  | Call_mpi_type_create_hvector count blocklength oldtype newtype =>
      mpi_type_create_hvector to_size start stop count blocklength oldtype newtype
  | Call_mpi_type_indexed count lengths oldtype newtype =>
      mpi_type_indexed to_size start stop count lengths oldtype newtype
  | Call_mpi_type_hindexed count lengths oldtype newtype =>
      mpi_type_hindexed to_size start stop count lengths oldtype newtype
  | Call_mpi_type_create_hindexed count lengths oldtype newtype =>
      mpi_type_create_hindexed to_size start stop count lengths oldtype newtype
  | Call_mpi_type_struct count blocklengths oldtypes newtype =>
      mpi_type_struct to_size start stop count blocklengths oldtypes newtype
  | Call_mpi_type_create_struct count blocklengths oldtypes newtype =>
      mpi_type_create_struct to_size start stop count blocklengths oldtypes newtype
  | Call_mpi_type_create_subarray ndims subsizes oldtype newtype =>
      mpi_type_create_subarray to_size start stop ndims subsizes oldtype newtype
  end.

(** A driver that makes the calls of a list one after the other, each with
    its two timestamps, and collects the result codes. *)
Fixpoint replay {R} (calls : list (Z * Z * mpi_call)) : M R (list OTF2_WRITER_RESULT) :=
  match calls with
  | [] => ret []
  | (start, stop, c) :: calls' =>
      res <- perform start stop c ;;
      rest <- replay calls' ;;
      ret (res :: rest)
  end.

End sequences.

(** ** What a body does between its enter and its leave *)

Definition is_bracket (e : event) : bool :=
  match e with
  | Enter _ _ | Leave _ _ => true
  | _ => false
  end.

(** The state changes of which the bodies are made, apart from the two
    macros: a logged line, one record with its count, the two records of a
    collective with theirs, a post, a completion, a size stored. *)
Inductive body_step : OTF2_Writer → OTF2_Writer → Prop :=
| step_log level msg w : body_step w (logged level msg w)
| step_record e w :
    is_bracket e = false → body_step w (add_event_count 1 (write_event e w))
| step_collective e1 e2 w :
    is_bracket e1 = false → is_bracket e2 = false →
    body_step w (add_event_count 2 (write_event e2 (write_event e1 w)))
| step_post_send r w : body_step w (posted r REQUEST_TYPE_ISEND w)
| step_post_recv r payload w :
    body_step w (posted r REQUEST_TYPE_IRECV
                   (set_irecv_requests (<[r := payload]> (irecv_requests w)) w))
| step_complete_send r w :
    request_type w !! r = Some REQUEST_TYPE_ISEND →
    body_step w (set_request_type (delete r (request_type w)) w)
| step_complete_recv r w :
    request_type w !! r = Some REQUEST_TYPE_IRECV →
    body_step w (set_request_type (delete r (request_type w))
                   (set_irecv_requests (delete r (irecv_requests w)) w))
| step_type k v w : body_step w (set_type_sizes_ (<[k := v]> (type_sizes_ w)) w).

(** A piece of a callee's body: where it ends, it has made body steps. *)
Definition steps_to {R A} (m : M R A) : Prop :=
  ∀ w, match m w with
       | Normal _ w' | Returned _ w' => rtc body_step w w'
       | Thrown _ _ => False
       | Aborted | Undefined => True
       end.

(** A piece of the body of a traced function that does not return. *)
Definition piece {R A} (m : M R A) : Prop :=
  ∀ w, match m w with
       | Normal _ w' => rtc body_step w w'
       | Returned _ _ | Thrown _ _ => False
       | Aborted | Undefined => True
       end.

(** The rest of the body of a traced function: it returns, through
    [_LEAVE()] or with the error code before it. *)
Definition leaves {A} (stop this_region : Z) (m : M OTF2_WRITER_RESULT A) : Prop :=
  ∀ w, match m w with
       | Returned res w' =>
           ∃ w1, rtc body_step w w1 ∧
             (res = OTF2_WRITER_SUCCESS ∧ w' = left stop this_region w1 ∨
              res = OTF2_WRITER_ERROR_UKNOWN_MPI_TYPE ∧ w' = w1)
       | Normal _ _ | Thrown _ _ => False
       | Aborted | Undefined => True
       end.

(** ** The bracket structure of a trace *)

Inductive bracket_state : Type :=
| Closed
| Open (this_region : Z)
| Broken.

(** Reading one record: a region is entered outside any region and left
    under its own identifier, every other record lies inside a region. *)
Definition bracket_step (s : bracket_state) (e : event) : bracket_state :=
  match s with
  | Closed => match e with Enter _ reg => Open reg | _ => Broken end
  | Open reg =>
      match e with
      | Enter _ _ => Broken
      | Leave _ reg' => if decide (reg' = reg) then Closed else Broken
      | _ => Open reg
      end
  | Broken => Broken
  end.

Definition bracket_scan (trace : list event) : bracket_state :=
  fold_left bracket_step trace Closed.

(** A traced call: where it ends, it has entered its region, made body
    steps and left the region, or returned the error code inside it. *)
Definition traced {R} (name : string) (start stop : Z) (m : M R OTF2_WRITER_RESULT) : Prop :=
  ∀ w, match m w with
       | Normal res w' =>
           ∃ w1, rtc body_step (entered name start stop w) w1 ∧
             (res = OTF2_WRITER_SUCCESS ∧ w' = left stop (region_id name w) w1 ∨
              res = OTF2_WRITER_ERROR_UKNOWN_MPI_TYPE ∧ w' = w1)
       | Returned _ _ | Thrown _ _ => False
       | Aborted | Undefined => True
       end.

(** A short run: a derived type is defined, a send and a receive are
    posted with it, both are completed, a broadcast follows. *)
Definition example_calls : list (Z * Z * mpi_call) :=
  [ (10, 20, Call_mpi_type_contiguous 4 11 12);
    (30, 40, Call_mpi_isend 12 2 3 0 99 5);
    (50, 60, Call_mpi_irecv 11 10 3 0 77 6);
    (70, 80, Call_mpi_waitall 2 [5; 6]);
    (90, 100, Call_mpi_bcast 10 11 0 0) ].

(** ** Notions used in the statements on derived datatypes *)



(** ** Notions used in the statements on communicators *)

(** A parent communicator duplicated into the handles of a list, one call
    of the first pass after the other. *)
Fixpoint dup_each {R} (start stop comm : Z) (newcomms : list Z) : M R unit :=
  match newcomms with
  | [] => ret tt
  | newcomm :: newcomms' =>
      mpi_comm_dup_first_pass start stop comm newcomm ;;
      dup_each start stop comm newcomms'
  end.

(** The record [comms_[k]] refers to. *)
Definition comm_of (k : Z) (w : OTF2_Writer) : OTF2_MPI_Comm_rec :=
  default new_comm (comms_ w !! k).

(** ** Ranks of example runs of the agreement *)

(** The writer a sequence of calls leaves. *)
Definition writer_after {R A} (m : M R A) (w : OTF2_Writer) : OTF2_Writer :=
  match m w with
  | Normal _ w' | Returned _ w' | Thrown _ w' => w'
  | Aborted | Undefined => w
  end.

(** A rank of a world of three after its first pass.  Group 6 holds the
    world ranks 1 and 2, group 7 all three.  Every rank has taken part in
    the creation of three communicators from the world communicator: one
    from group 6, one from group 7 and one more from group 6, under the
    handles [a], [b] and [c] it got.  Rank 0 is no member of group 6: it
    got the handle of the null communicator both times, so that its one
    record is twice a child of the world communicator. *)
Definition example_rank (rank a b c : Z) : OTF2_Writer :=
  writer_after
    (register_comm_world (R:=OTF2_WRITER_RESULT) 0 ;;
     mpi_comm_create_first_pass 0 0 MPI_COMM_WORLD_ID 6 a ;;
     mpi_comm_create_first_pass 0 0 MPI_COMM_WORLD_ID 7 b ;;
     mpi_comm_create_first_pass 0 0 MPI_COMM_WORLD_ID 6 c)
    (with_global_ranks 7 [0; 1; 2] (with_global_ranks 6 [1; 2] (new_writer 3 rank (-1)))).




(** A rank that has duplicated the world communicator into the handle of
    the world communicator itself. *)
Definition self_dup_rank : OTF2_Writer :=
  writer_after
    (register_comm_world (R:=OTF2_WRITER_RESULT) 0 ;;
     mpi_comm_dup_first_pass 0 0 MPI_COMM_WORLD_ID MPI_COMM_WORLD_ID)
    (new_writer 2 0 (-1)).
(** * Properties *)

(** ** Equations of the building blocks *)

Lemma bind_normal {R A B} (m : M R A) (k : A → M R B) w a w' :
  m w = Normal a w' → bind m k w = k a w'.
Proof. intros H. unfold bind. by rewrite H. Qed.

Lemma logger_eq {R} level msg w :
  logger (R:=R) level msg w = Normal tt (logged level msg w).
Proof.
  unfold logger, logged, bind, gets. cbn.
  by destruct (bool_decide _ && bool_decide _).
Qed.

Lemma logged_fields level msg w :
  world_ (logged level msg w) = world_ w ∧
  verbosity_ (logged level msg w) = verbosity_ w ∧
  null_request_ (logged level msg w) = null_request_ w ∧
  start_time_ (logged level msg w) = start_time_ w ∧
  stop_time_ (logged level msg w) = stop_time_ w ∧
  event_count_ (logged level msg w) = event_count_ w ∧
  otf2_regions_table_ (logged level msg w) = otf2_regions_table_ w ∧
  type_sizes_ (logged level msg w) = type_sizes_ w ∧
  request_type (logged level msg w) = request_type w ∧
  irecv_requests (logged level msg w) = irecv_requests w ∧
  comms_ (logged level msg w) = comms_ w ∧
  groups_ (logged level msg w) = groups_ w ∧
  evt_writer (logged level msg w) = evt_writer w.
Proof. unfold logged. by destruct (bool_decide _ && bool_decide _). Qed.

Lemma logged_stdout level msg w :
  (verbosity_level level ≤ verbosity_level (verbosity_ w) → verbosity_ w ≠ OWV_NONE →
   stdout (logged level msg w) = stdout w ++ [prepender level +:+ msg]) ∧
  (verbosity_level (verbosity_ w) < verbosity_level level →
   stdout (logged level msg w) = stdout w).
Proof.
  unfold logged. split.
  - intros Hv Hn.
    rewrite (bool_decide_eq_true_2 (verbosity_level level ≤ verbosity_level (verbosity_ w)))
      by done.
    by rewrite (bool_decide_eq_true_2 (verbosity_ w ≠ OWV_NONE)) by done.
  - intros Hv.
    by rewrite (bool_decide_eq_false_2
                  (verbosity_level level ≤ verbosity_level (verbosity_ w))) by lia.
Qed.

Lemma ENTER_eq {R} name start stop w :
  _ENTER (R:=R) name start stop w = Normal (region_id name w) (entered name start stop w).
Proof.
  unfold _ENTER. rewrite (bind_normal _ _ _ _ _ (logger_eq _ _ _)).
  unfold bind, modify, gets, ret, entered, region_id. cbn.
  destruct (logged_fields OWV_INFO name w) as (_&_&_&->&->&_&->&_).
  by destruct (table_insert name (otf2_regions_table_ w)).
Qed.

Ltac enter := rewrite !(bind_normal _ _ _ _ _ (ENTER_eq _ _ _ _)).

Lemma LEAVE_eq {A} stop reg w :
  _LEAVE (A:=A) stop reg w = Returned OTF2_WRITER_SUCCESS (left stop reg w).
Proof. reflexivity. Qed.

Lemma count_bytes_eq {R} type count w :
  count_bytes (R:=R) type count w = Normal (bytes_of (type_sizes_ w) type count) (counted type w).
Proof.
  unfold count_bytes, call, bind, gets, bytes_of, counted.
  destruct (type_sizes_ w !! type); [done|].
  by rewrite logger_eq.
Qed.

Lemma incomplete_call_eq {R} request_id type w :
  incomplete_call (R:=R) request_id type w = Normal tt (posted request_id type w).
Proof.
  unfold incomplete_call, call, bind, gets, posted.
  by destruct (decide _).
Qed.


(** ** Equations of the tracker operations *)

Lemma counted_fields type w :
  null_request_ (counted type w) = null_request_ w ∧
  type_sizes_ (counted type w) = type_sizes_ w ∧
  request_type (counted type w) = request_type w ∧
  irecv_requests (counted type w) = irecv_requests w ∧
  evt_writer (counted type w) = evt_writer w ∧
  event_count_ (counted type w) = event_count_ w.
Proof.
  unfold counted. destruct (type_sizes_ w !! type); [done|].
  by destruct (logged_fields OWV_ERROR (unknown_type_message type) w)
    as (_&_&->&_&_&->&_&->&->&->&_&_&->).
Qed.

Lemma entered_fields name start stop w :
  null_request_ (entered name start stop w) = null_request_ w ∧
  type_sizes_ (entered name start stop w) = type_sizes_ w ∧
  request_type (entered name start stop w) = request_type w ∧
  irecv_requests (entered name start stop w) = irecv_requests w ∧
  evt_writer (entered name start stop w) =
    evt_writer w ++ [Enter start (region_id name w)] ∧
  event_count_ (entered name start stop w) = event_count_ w + 1.
Proof.
  unfold entered. cbn.
  by destruct (logged_fields OWV_INFO name w)
    as (_&_&->&_&_&->&_&->&->&->&_&_&->).
Qed.

Lemma complete_call_null {R} request_id timestamp w :
  request_type w !! request_id = None → request_id = null_request_ w →
  complete_call (R:=R) request_id timestamp w = Normal tt w.
Proof.
  intros H E. unfold complete_call, call, bind, gets. rewrite H. cbn.
  by destruct (decide (request_id ≠ null_request_ w)).
Qed.

Lemma complete_call_unknown {R} request_id timestamp w :
  request_type w !! request_id = None → request_id ≠ null_request_ w →
  complete_call (R:=R) request_id timestamp w = Aborted.
Proof.
  intros H E. unfold complete_call, call, bind, gets. rewrite H. cbn.
  by destruct (decide (request_id ≠ null_request_ w)).
Qed.

Lemma complete_call_isend {R} request_id timestamp w :
  request_type w !! request_id = Some REQUEST_TYPE_ISEND →
  complete_call (R:=R) request_id timestamp w =
  Normal tt (set_request_type (delete request_id (request_type w))
               (add_event_count 1
                  (write_event (MpiIsendComplete timestamp request_id) w))).
Proof.
  intros H. unfold complete_call, call, bind, gets. by rewrite H.
Qed.

Lemma complete_call_irecv {R} request_id timestamp irecv w :
  request_type w !! request_id = Some REQUEST_TYPE_IRECV →
  irecv_requests w !! request_id = Some irecv →
  complete_call (R:=R) request_id timestamp w =
  Normal tt (set_request_type (delete request_id (request_type w))
               (add_event_count 1
                  (set_irecv_requests (delete request_id (irecv_requests w))
                     (write_event (MpiIrecv timestamp (source irecv) (comm irecv)
                                     (tag irecv) (bytes_sent irecv) request_id) w)))).
Proof.
  intros H1 H2. unfold complete_call, call, bind, gets. rewrite H1. cbn.
  by rewrite H2.
Qed.

Lemma complete_call_irecv_no_capture {R} request_id timestamp w :
  request_type w !! request_id = Some REQUEST_TYPE_IRECV →
  irecv_requests w !! request_id = None →
  complete_call (R:=R) request_id timestamp w = Undefined.
Proof.
  intros H1 H2. unfold complete_call, call, bind, gets. rewrite H1. cbn.
  by rewrite H2.
Qed.

Lemma mpi_irecv_eq {R} start stop type count source comm tag request w :
  mpi_irecv (R:=R) start stop type count source comm tag request w =
  Normal OTF2_WRITER_SUCCESS
    (left stop (region_id "MPI_Irecv" w)
       (add_event_count 1
          (write_event (MpiIrecvRequest start request)
             (posted request REQUEST_TYPE_IRECV
                (let w1 := counted type (entered "MPI_Irecv" start stop w) in
                 set_irecv_requests
                   (<[request := mk_irecv_capture (bytes_of (type_sizes_ w) type count)
                                   source tag comm request]> (irecv_requests w1)) w1))))).
Proof.
  unfold mpi_irecv, call.
  enter.
  rewrite (bind_normal _ _ _ _ _ (count_bytes_eq _ _ _)).
  unfold bind at 1, modify at 1.
  rewrite (bind_normal _ _ _ _ _ (incomplete_call_eq _ _ _)).
  destruct (entered_fields "MPI_Irecv" start stop w) as (_&->&_).
  reflexivity.
Qed.

Lemma mpi_isend_inner_eq {R} start type count dest comm tag request w :
  mpi_isend_inner (R:=R) start type count dest comm tag request w =
  Normal OTF2_WRITER_SUCCESS
    (add_event_count 1
       (write_event (MpiIsend start dest comm tag (bytes_of (type_sizes_ w) type count) request)
          (counted type (posted request REQUEST_TYPE_ISEND w)))).
Proof.
  unfold mpi_isend_inner, call.
  rewrite (bind_normal _ _ _ _ _ (incomplete_call_eq _ _ _)).
  rewrite (bind_normal _ _ _ _ _ (count_bytes_eq _ _ _)).
  assert (type_sizes_ (posted request REQUEST_TYPE_ISEND w) = type_sizes_ w) as ->.
  { unfold posted. by destruct (decide _). }
  reflexivity.
Qed.

Lemma mpi_isend_eq {R} start stop type count dest comm tag request w :
  mpi_isend (R:=R) start stop type count dest comm tag request w =
  Normal OTF2_WRITER_SUCCESS
    (left stop (region_id "MPI_Isend" w)
       (add_event_count 1
          (write_event (MpiIsend start dest comm tag (bytes_of (type_sizes_ w) type count) request)
             (counted type (posted request REQUEST_TYPE_ISEND
                              (entered "MPI_Isend" start stop w)))))).
Proof.
  unfold mpi_isend, call.
  enter.
  rewrite (bind_normal _ _ _ _ _ (mpi_isend_inner_eq _ _ _ _ _ _ _ _)).
  destruct (entered_fields "MPI_Isend" start stop w) as (_&->&_).
  reflexivity.
Qed.

(** What a post leaves in the two tracker tables. *)
Lemma mpi_irecv_tracker {R} start stop type count source comm tag request w w1 :
  mpi_irecv (R:=R) start stop type count source comm tag request w
    = Normal OTF2_WRITER_SUCCESS w1 →
  null_request_ w1 = null_request_ w ∧
  irecv_requests w1 =
    <[request := mk_irecv_capture (bytes_of (type_sizes_ w) type count)
                   source tag comm request]> (irecv_requests w) ∧
  request_type w1 =
    (if decide (request ≠ null_request_ w)
     then <[request := REQUEST_TYPE_IRECV]> (request_type w) else request_type w).
Proof.
  rewrite mpi_irecv_eq. intros [= <-].
  destruct (entered_fields "MPI_Irecv" start stop w) as (Hn&_&Hr&Hi&_).
  destruct (counted_fields type (entered "MPI_Irecv" start stop w)) as (Hn'&_&Hr'&Hi'&_).
  cbn. unfold posted. cbn. rewrite Hn', Hn.
  destruct (decide (request ≠ null_request_ w)); cbn; rewrite ?Hi', ?Hi, ?Hr', ?Hr;
    (split; [congruence | done]).
Qed.

Lemma mpi_isend_tracker {R} start stop type count dest comm tag request w w1 :
  mpi_isend (R:=R) start stop type count dest comm tag request w
    = Normal OTF2_WRITER_SUCCESS w1 →
  null_request_ w1 = null_request_ w ∧
  irecv_requests w1 = irecv_requests w ∧
  request_type w1 =
    (if decide (request ≠ null_request_ w)
     then <[request := REQUEST_TYPE_ISEND]> (request_type w) else request_type w).
Proof.
  rewrite mpi_isend_eq. intros [= <-].
  destruct (entered_fields "MPI_Isend" start stop w) as (Hn&_&Hr&Hi&_).
  cbn.
  destruct (counted_fields type (posted request REQUEST_TYPE_ISEND
                                   (entered "MPI_Isend" start stop w))) as (->&_&->&->&_).
  unfold posted. rewrite Hn.
  by destruct (decide (request ≠ null_request_ w)); cbn;
    destruct (logged_fields OWV_INFO "MPI_Isend" w) as (_&_&->&_&_&_&_&_&->&->&_).
Qed.

(** ** The null request is never tracked *)

Lemma posted_keeps_null_untracked (request_id : Z) (type : REQUEST_TYPE) (w : OTF2_Writer) :
  request_type w !! null_request_ w = None →
  request_type (posted request_id type w) !! null_request_ (posted request_id type w) = None.
Proof.
  intros H. unfold posted. destruct (decide _) as [Hne|]; [|done].
  cbn. by rewrite lookup_insert_ne.
Qed.

Lemma new_writer_null_untracked (size rank null : Z) :
  request_type (new_writer size rank null) !! null_request_ (new_writer size rank null) = None.
Proof. apply lookup_empty. Qed.

(** ** Completion of an untracked request *)

Section untracked.
Context {R : Type}.

(** C1: completing an id the tracker does not hold changes nothing when
    the id is the registered null request, whatever the state, and aborts
    the run when it is any other id. *)
Theorem complete_call_untracked (w : OTF2_Writer) (request_id timestamp : Z) :
  request_type w !! request_id = None →
  (request_id = null_request_ w →
     complete_call (R:=R) request_id timestamp w = Normal tt w) ∧
  (request_id ≠ null_request_ w →
     complete_call (R:=R) request_id timestamp w = Aborted).
Proof.
  intros Hnone. split; intros H.
  - by apply complete_call_null.
  - by apply complete_call_unknown.
Qed.

End untracked.

Lemma complete_call_untracked_witness :
  complete_call (R:=unit) 7 100 (new_writer 4 0 7) = Normal tt (new_writer 4 0 7) ∧
  complete_call (R:=unit) 8 100 (new_writer 4 0 7) = Aborted.
Proof.
  destruct (complete_call_untracked (R:=unit) (new_writer 4 0 7) 7 100 eq_refl) as [H _].
  destruct (complete_call_untracked (R:=unit) (new_writer 4 0 7) 8 100 eq_refl) as [_ H'].
  split; [apply H; reflexivity | apply H'; vm_compute; discriminate].
Defined.

(** ** Byte counts of unknown datatypes *)


(** C8: for a datatype handle that was never registered, [count_bytes]
    returns four bytes per element (the product taken in [uint64_t], exact
    below 2^62 elements), logs at the error level, and ends normally: no
    abort, no exception.  Logging is the call of [logger]: when the
    verbosity admits the error level the standard output gains the line
    with the error prefix and the message that names the handle, at a
    lower verbosity it gains nothing; no other member of the writer
    changes. *)
Theorem count_bytes_unknown_type {R} (w : OTF2_Writer) (type count : Z) :
  type_sizes_ w !! type = None →
  (∃ w', logger (R:=R) OWV_ERROR (unknown_type_message type) w = Normal tt w' ∧
         count_bytes (R:=R) type count w = Normal (to_uint64 (4 * count)) w' ∧
         type_sizes_ w' = type_sizes_ w ∧ evt_writer w' = evt_writer w ∧
         request_type w' = request_type w ∧
         (verbosity_level OWV_ERROR ≤ verbosity_level (verbosity_ w) →
          stdout w' =
            stdout w ++ ["OTF2 WRITER  (ERR): " +:+ unknown_type_message type]) ∧
         (verbosity_level (verbosity_ w) < verbosity_level OWV_ERROR →
          stdout w' = stdout w)) ∧
  (0 ≤ count < 2 ^ 62 → to_uint64 (4 * count) = 4 * count).
Proof.
  intros Hnone. split.
  - exists (logged OWV_ERROR (unknown_type_message type) w). split; [apply logger_eq|].
    split.
    { rewrite count_bytes_eq. unfold bytes_of, counted. by rewrite Hnone. }
    destruct (logged_fields OWV_ERROR (unknown_type_message type) w)
      as (_&_&_&_&_&_&_&Ht&Hr&_&_&_&He).
    split; [exact Ht|]. split; [exact He|]. split; [exact Hr|].
    destruct (logged_stdout OWV_ERROR (unknown_type_message type) w) as [Hyes Hno].
    split; [|exact Hno].
    intros Hv. apply Hyes; [exact Hv|].
    intros Heq. rewrite Heq in Hv. by vm_compute in Hv.
  - intros Hc. unfold to_uint64. apply Z.mod_small. lia.
Qed.

Lemma count_bytes_unknown_type_witness :
  ∃ w', count_bytes (R:=unit) 5 10 (set_verbosity_ OWV_ERROR (new_writer 4 0 7))
          = Normal 40 w' ∧
        stdout w' =
          ["OTF2 WRITER  (ERR): Unkown data type (5). Assuming 4 bytes in size."] ∧
        type_sizes_ w' = ∅ ∧ evt_writer w' = [].
Proof.
  destruct (count_bytes_unknown_type (R:=unit)
              (set_verbosity_ OWV_ERROR (new_writer 4 0 7)) 5 10 eq_refl)
    as [(w' & _ & Hc & Ht & He & _ & Hout & _) Hx].
  exists w'. rewrite Hc, (Hx ltac:(lia)). split; [reflexivity|].
  split; [|split; [exact Ht|exact He]].
  rewrite (Hout ltac:(vm_compute; discriminate)). vm_compute. reflexivity.
Defined.

(** ** Completed receives carry the payload of the post *)

(** C4: a receive posted by [mpi_irecv] and completed later, in any state
    of the writer that still holds its two table entries, emits the receive
    record with the source, communicator and tag of the post and with the
    byte count [count_bytes] gave for the type and count of the post, under
    the size table of that moment; [complete_call] has no other argument
    than the request id and the timestamp. *)
Theorem irecv_completion_uses_post_arguments {R}
    (w : OTF2_Writer) (start stop type count source comm tag request : Z) :
  request ≠ null_request_ w →
  ∃ w1, mpi_irecv (R:=R) start stop type count source comm tag request w
          = Normal OTF2_WRITER_SUCCESS w1 ∧
    ∀ (w' : OTF2_Writer) (timestamp : Z),
      request_type w' !! request = request_type w1 !! request →
      irecv_requests w' !! request = irecv_requests w1 !! request →
      ∃ w2, complete_call (R:=R) request timestamp w' = Normal tt w2 ∧
            evt_writer w2 = evt_writer w' ++
              [MpiIrecv timestamp source comm tag
                 (bytes_of (type_sizes_ w) type count) request] ∧
            request_type w2 !! request = None ∧
            irecv_requests w2 !! request = None.
Proof.
  intros Hnull. eexists. split; [apply mpi_irecv_eq|].
  intros w' timestamp Hr Hi.
  destruct (mpi_irecv_tracker (R:=R) _ _ _ _ _ _ _ _ _ _
              (mpi_irecv_eq start stop type count source comm tag request w))
    as (_ & Hi1 & Hr1).
  rewrite Hr1 in Hr. rewrite Hi1 in Hi.
  destruct (decide (request ≠ null_request_ w)); [|done].
  rewrite lookup_insert_eq in Hr. rewrite lookup_insert_eq in Hi.
  eexists. split; [by apply complete_call_irecv|].
  cbn. by rewrite !lookup_delete_eq.
Qed.


Lemma irecv_completion_uses_post_arguments_witness :
  ∃ w1 w2,
    mpi_irecv (R:=unit) 10 20 11 10 3 0 99 5 example_writer
      = Normal OTF2_WRITER_SUCCESS w1 ∧
    complete_call (R:=unit) 5 30 (set_type_sizes_ (<[11 := 16]> ∅) w1) = Normal tt w2 ∧
    evt_writer w2 = evt_writer w1 ++ [MpiIrecv 30 3 0 99 80 5].
Proof.
  destruct (irecv_completion_uses_post_arguments (R:=unit) example_writer
              10 20 11 10 3 0 99 5 ltac:(vm_compute; discriminate)) as (w1 & H1 & H2).
  destruct (H2 (set_type_sizes_ (<[11 := 16]> ∅) w1) 30 eq_refl eq_refl)
    as (w2 & Hc & He & _).
  exists w1, w2. repeat split; [exact H1 | exact Hc | exact He].
Defined.

(** ** Posting a pending request again *)

(** C10: posting on a non-null id that is already pending is accepted
    without any error.  A receive post stores the receive kind and the new
    payload over what was there, a send post stores the send kind, and the
    single completion that follows emits the record of the latest post and
    clears the id. *)
Theorem repost_overwrites {R}
    (w : OTF2_Writer) (start stop type count peer comm tag request : Z) :
  request ≠ null_request_ w →
  is_Some (request_type w !! request) →
  (∃ w1, mpi_irecv (R:=R) start stop type count peer comm tag request w
           = Normal OTF2_WRITER_SUCCESS w1 ∧
         request_type w1 !! request = Some REQUEST_TYPE_IRECV ∧
         irecv_requests w1 !! request =
           Some (mk_irecv_capture (bytes_of (type_sizes_ w) type count)
                   peer tag comm request) ∧
         ∀ timestamp, ∃ w2,
           complete_call (R:=R) request timestamp w1 = Normal tt w2 ∧
           evt_writer w2 = evt_writer w1 ++
             [MpiIrecv timestamp peer comm tag
                (bytes_of (type_sizes_ w) type count) request] ∧
           request_type w2 !! request = None) ∧
  (∃ w1, mpi_isend (R:=R) start stop type count peer comm tag request w
           = Normal OTF2_WRITER_SUCCESS w1 ∧
         request_type w1 !! request = Some REQUEST_TYPE_ISEND ∧
         ∀ timestamp, ∃ w2,
           complete_call (R:=R) request timestamp w1 = Normal tt w2 ∧
           evt_writer w2 = evt_writer w1 ++ [MpiIsendComplete timestamp request] ∧
           request_type w2 !! request = None).
Proof.
  intros Hnull _. split.
  - eexists. split; [apply mpi_irecv_eq|].
    destruct (mpi_irecv_tracker (R:=R) _ _ _ _ _ _ _ _ _ _
                (mpi_irecv_eq start stop type count peer comm tag request w))
      as (_ & Hi & Hr).
    rewrite Hr, Hi. destruct (decide (request ≠ null_request_ w)); [|done].
    rewrite !lookup_insert_eq. repeat split.
    intros timestamp. eexists. split.
    + apply complete_call_irecv with (irecv := mk_irecv_capture
        (bytes_of (type_sizes_ w) type count) peer tag comm request).
      * rewrite Hr. apply lookup_insert_eq.
      * rewrite Hi. apply lookup_insert_eq.
    + cbn. by rewrite lookup_delete_eq.
  - eexists. split; [apply mpi_isend_eq|].
    destruct (mpi_isend_tracker (R:=R) _ _ _ _ _ _ _ _ _ _
                (mpi_isend_eq start stop type count peer comm tag request w))
      as (_ & _ & Hr).
    rewrite Hr. destruct (decide (request ≠ null_request_ w)); [|done].
    rewrite !lookup_insert_eq. repeat split.
    intros timestamp. eexists. split.
    + apply complete_call_isend. rewrite Hr. apply lookup_insert_eq.
    + cbn. by rewrite lookup_delete_eq.
Qed.

Lemma repost_overwrites_witness :
  ∃ w1 w2 w3,
    mpi_irecv (R:=unit) 10 20 11 10 3 0 99 5 example_writer
      = Normal OTF2_WRITER_SUCCESS w1 ∧
    mpi_irecv (R:=unit) 30 40 11 20 2 0 77 5 w1 = Normal OTF2_WRITER_SUCCESS w2 ∧
    complete_call (R:=unit) 5 50 w2 = Normal tt w3 ∧
    evt_writer w3 = evt_writer w2 ++ [MpiIrecv 50 2 0 77 160 5] ∧
    request_type w3 !! 5 = None.
Proof.
  eexists. 
  destruct (repost_overwrites (R:=unit)
              (left 20 0 (add_event_count 1 (write_event (MpiIrecvRequest 10 5)
                 (posted 5 REQUEST_TYPE_IRECV
                    (set_irecv_requests (<[5 := mk_irecv_capture 80 3 99 0 5]> ∅)
                       (entered "MPI_Irecv" 10 20 example_writer))))))
              30 40 11 20 2 0 77 5 ltac:(vm_compute; discriminate)
              ltac:(vm_compute; eauto)) as [(w2 & Hp & _ & _ & Hc) _].
  destruct (Hc 50) as (w3 & Hc3 & He & Hn).
  exists w2, w3. split; [vm_compute; reflexivity|].
  split; [exact Hp|]. split; [exact Hc3|]. split; [exact He | exact Hn].
Defined.


(** ** Loops over request arrays *)

Lemma bind_assoc {R A B C} (m : M R A) (k : A → M R B) (h : B → M R C) w :
  bind (bind m k) h w = bind m (λ a, bind (k a) h) w.
Proof. unfold bind. by destruct (m w). Qed.

Lemma bind_ext {R A B} (m : M R A) (k k' : A → M R B) w :
  (∀ a w', k a w' = k' a w') → bind m k w = bind m k' w.
Proof. intros H. unfold bind. by destruct (m w). Qed.

Lemma bind_ret_l {R A B} (a : A) (k : A → M R B) w : bind (ret a) k w = k a w.
Proof. reflexivity. Qed.

Lemma bind_gets {R A B} (f : OTF2_Writer → A) (k : A → M R B) w :
  bind (gets f) k w = k (f w) w.
Proof. reflexivity. Qed.

Lemma bind_outcome {R A B} (m : M R A) (k : A → M R B) w :
  bind m k w = match m w with
               | Normal a w' => k a w'
               | Returned r w' => Returned r w'
               | Thrown msg w' => Thrown msg w'
               | Aborted => Aborted
               | Undefined => Undefined
               end.
Proof. reflexivity. Qed.

Lemma index_app {R A} (l l1 l2 : list A) (x : A) :
  l = l1 ++ x :: l2 → index (R:=R) l (Z.of_nat (length l1)) = ret x.
Proof.
  intros ->. unfold index. destruct (decide _) as [_|]; [|lia].
  rewrite Nat2Z.id, lookup_app_r, Nat.sub_diag by lia. done.
Qed.

(** [complete_call] either ends normally, leaving the registered null
    request as it was, or stops the run. *)
Lemma complete_call_outcome {R} request_id timestamp w :
  (∃ w', complete_call (R:=R) request_id timestamp w = Normal tt w' ∧
         null_request_ w' = null_request_ w) ∨
  complete_call (R:=R) request_id timestamp w = Aborted ∨
  complete_call (R:=R) request_id timestamp w = Undefined.
Proof.
  destruct (request_type w !! request_id) as [[]|] eqn:Hty.
  - left. eexists. split; [by apply complete_call_isend|done].
  - destruct (irecv_requests w !! request_id) as [irecv|] eqn:Hcap.
    + left. eexists. split; [by eapply complete_call_irecv|done].
    + right; right. by apply complete_call_irecv_no_capture.
  - destruct (decide (request_id = null_request_ w)) as [E|E].
    + left. exists w. by split; [apply complete_call_null|].
    + right; left. by apply complete_call_unknown.
Qed.

Lemma waitall_loop {R} (start : Z) (requests : list Z) (null : Z) :
  ∀ (l2 l1 : list Z) (called : gset Z), requests = l1 ++ l2 →
  ∃ (L : list Z) (called' : gset Z),
    NoDup L ∧ (∀ r, r ∈ L ↔ r ∈ l2 ∧ r ≠ null ∧ r ∉ called) ∧ sublist L l2 ∧
    ∀ w, null_request_ w = null →
      for_loop (R:=R) (length l2) (Z.of_nat (length l1))
        (λ i (called : gset Z),
           req <- index requests i ;;
           null <- gets null_request_ ;;
           if bool_decide (req ≠ null) && bool_decide (req ∉ called)
           then complete_call req start ;; ret ({[req]} ∪ called)
           else ret called) called w
      = bind (complete_each L start) (λ _, ret called') w.
Proof.
  induction l2 as [|r l2 IH]; intros l1 called Hreq.
  - exists [], called. split; [constructor|].
    split; [intros r; rewrite elem_of_nil; tauto|]. split; [done|].
    reflexivity.
  - destruct (decide (r ≠ null ∧ r ∉ called)) as [[Hr Hc]|Hskip].
    + destruct (IH (l1 ++ [r]) ({[r]} ∪ called)) as (L & called' & HL & Hin & Hsub & Hloop).
      { by rewrite <- app_assoc. }
      exists (r :: L), called'.
      split. { constructor; [|done]. rewrite Hin, elem_of_union, elem_of_singleton. tauto. }
      split. { intros x. rewrite !elem_of_cons, Hin, elem_of_union, elem_of_singleton.
               destruct (decide (x = r)) as [->|]; tauto. }
      split. { by apply sublist_skip. }
      intros w Hw. cbn [for_loop length complete_each].
      rewrite !bind_assoc, (index_app _ _ _ _ Hreq), bind_ret_l.
      rewrite bind_assoc, bind_gets, Hw.
      rewrite !bool_decide_eq_true_2 by done. cbn [andb].
      rewrite bind_assoc, (bind_outcome (complete_call r start)).
      rewrite (bind_outcome (complete_call r start)).
      destruct (complete_call_outcome (R:=R) r start w) as [(w' & Hc' & Hn')|[Hc'|Hc']];
        rewrite Hc'; [|done..].
      rewrite bind_ret_l.
      rewrite length_app in Hloop. cbn in Hloop.
      replace (Z.of_nat (length l1) + 1) with (Z.of_nat (length l1 + 1)) by lia.
      apply Hloop. congruence.
    + destruct (IH (l1 ++ [r]) called) as (L & called' & HL & Hin & Hsub & Hloop).
      { by rewrite <- app_assoc. }
      exists L, called'.
      split; [done|].
      split. { intros x. rewrite elem_of_cons, Hin.
               split; [tauto|]. intros ([->|?]&?&?); [tauto|done]. }
      split. { by apply sublist_cons. }
      intros w Hw. cbn [for_loop length].
      rewrite !bind_assoc, (index_app _ _ _ _ Hreq), bind_ret_l.
      rewrite bind_assoc, bind_gets, Hw.
      assert (bool_decide (r ≠ null) && bool_decide (r ∉ called) = false) as ->.
      { apply andb_false_iff. rewrite !bool_decide_eq_false.
        destruct (decide (r = null)); [left; tauto | right; tauto]. }
      rewrite bind_ret_l.
      rewrite length_app in Hloop. cbn in Hloop.
      replace (Z.of_nat (length l1) + 1) with (Z.of_nat (length l1 + 1)) by lia.
      by apply Hloop.
Qed.

(** ** Completing live requests *)

Lemma completions_of_snoc (r : Z) (trace : list event) (e : event) :
  completions_of r (trace ++ [e]) =
  (completions_of r trace + (if is_completion_of r e then 1 else 0))%nat.
Proof.
  unfold completions_of. rewrite filter_app, length_app. f_equal.
  rewrite filter_cons, filter_nil.
  destruct (is_completion_of r e); by destruct (decide _).
Qed.

Lemma complete_call_live {R} (r t : Z) (w : OTF2_Writer) :
  live r w →
  ∃ w1 e, complete_call (R:=R) r t w = Normal tt w1 ∧
    null_request_ w1 = null_request_ w ∧
    request_type w1 = delete r (request_type w) ∧
    (∀ x, x ≠ r → irecv_requests w1 !! x = irecv_requests w !! x) ∧
    evt_writer w1 = evt_writer w ++ [e] ∧
    (∀ x, is_completion_of x e = bool_decide (r = x)).
Proof.
  intros [Hs|[Hr [irecv Hcap]]].
  - do 2 eexists. split; [by apply complete_call_isend|]. cbn. done.
  - do 2 eexists. split; [by eapply complete_call_irecv|]. cbn.
    repeat split; try done. intros x Hx. by rewrite lookup_delete_ne.
Qed.

Lemma complete_each_live {R} (t : Z) :
  ∀ (L : list Z) (w : OTF2_Writer), NoDup L → (∀ x, x ∈ L → live x w) →
  ∃ w', complete_each (R:=R) L t w = Normal tt w' ∧
    otf2_regions_table_ w' = otf2_regions_table_ w ∧
    (∀ x, completions_of x (evt_writer w') =
          (completions_of x (evt_writer w) + (if decide (x ∈ L) then 1 else 0))%nat) ∧
    (∀ x, request_type w' !! x = if decide (x ∈ L) then None else request_type w !! x).
Proof.
  induction L as [|r L IH]; intros w Hnd Hlive.
  - exists w. split; [done|]. split; [done|]. split; intros x.
    + destruct (decide _) as [H|_]; [by apply elem_of_nil in H | lia].
    + destruct (decide _) as [H|_]; [by apply elem_of_nil in H | done].
  - apply NoDup_cons in Hnd as [Hr Hnd].
    destruct (complete_call_live (R:=R) r t w) as (w1 & e & Hc & Hn & Hty & Hcap & Hev & He).
    { apply Hlive. by left. }
    destruct (IH w1 Hnd) as (w' & Hc' & Htab & Hev' & Hty').
    { intros x Hx. assert (x ≠ r) by (by intros ->).
      destruct (Hlive x) as [?|[? ?]]; [by right| |].
      - left. by rewrite Hty, lookup_delete_ne.
      - right. by rewrite Hty, lookup_delete_ne, Hcap. }
    exists w'. cbn [complete_each]. rewrite bind_outcome, Hc.
    split; [done|]. split.
    { rewrite Htab. clear -Hc.
      unfold complete_call, call, bind, gets in Hc.
      destruct (request_type w !! r) as [[]|]; cbn in Hc.
      - by injection Hc as <-.
      - destruct (irecv_requests w !! r); [by injection Hc as <- | done].
      - destruct (decide _); [done | by injection Hc as <-]. }
    split; intros x.
    + rewrite Hev', Hev, completions_of_snoc, He.
      destruct (decide (x = r)) as [->|Hx].
      * rewrite bool_decide_eq_true_2 by done.
        destruct (decide (r ∈ L)); [done|].
        destruct (decide (r ∈ r :: L)) as [_|H]; [lia|]. exfalso. apply H. by left.
      * rewrite bool_decide_eq_false_2 by done.
        destruct (decide (x ∈ L)) as [H|H]; destruct (decide (x ∈ r :: L)) as [H'|H'];
          try lia.
        -- exfalso. apply H'. by right.
        -- exfalso. apply elem_of_cons in H' as [?|?]; done.
    + rewrite Hty', Hty.
      destruct (decide (x ∈ L)) as [H|H]; destruct (decide (x ∈ r :: L)) as [H'|H'];
        try done.
      * exfalso. apply H'. by right.
      * apply elem_of_cons in H' as [->|?]; [|done]. apply lookup_delete_eq.
      * apply lookup_delete_ne. intros ->. apply H'. by left.
Qed.

(** ** Waitall completes every id once *)

Lemma completions_of_enter_leave (r : Z) (trace : list event) (e : event) :
  is_completion_of r e = false →
  completions_of r (trace ++ [e]) = completions_of r trace.
Proof. intros H. rewrite completions_of_snoc, H. lia. Qed.

(** C5: whatever the request array, [mpi_waitall] does what completing the
    ids of a duplicate-free list does, one [complete_call] each: the
    distinct non-null ids of the array, in the order of the array.  When
    all of them are live the call succeeds, the trace gains exactly one
    completion record for each of them (none for any other id, the null
    request included) and their tracker entries are gone. *)
Theorem mpi_waitall_completes_each_id_once {R}
    (w : OTF2_Writer) (start stop count : Z) (requests : list Z) :
  count = Z.of_nat (length requests) →
  (∃ L : list Z,
     NoDup L ∧ (∀ r, r ∈ L ↔ r ∈ requests ∧ r ≠ null_request_ w) ∧
     sublist L requests ∧
     mpi_waitall (R:=R) start stop count requests w =
     call (this_region <- _ENTER "MPI_Waitall" start stop ;;
           complete_each L start ;;
           _LEAVE stop this_region) w) ∧
  ((∀ r, r ∈ requests → r ≠ null_request_ w → live r w) →
   ∃ w', mpi_waitall (R:=R) start stop count requests w
           = Normal OTF2_WRITER_SUCCESS w' ∧
     ∀ r, completions_of r (evt_writer w') =
            (completions_of r (evt_writer w) +
             (if bool_decide (r ∈ requests ∧ r ≠ null_request_ w) then 1 else 0))%nat ∧
          (r ∈ requests → r ≠ null_request_ w → request_type w' !! r = None)).
Proof.
  intros Hcount.
  destruct (waitall_loop (R:=OTF2_WRITER_RESULT) start requests (null_request_ w)
              requests [] ∅ eq_refl) as (L & called' & Hnd & Hin & Hsub & Hloop).
  assert (HL : ∀ r, r ∈ L ↔ r ∈ requests ∧ r ≠ null_request_ w).
  { intros r. rewrite Hin. pose proof (not_elem_of_empty (C:=gset Z) r). tauto. }
  assert (Heq : mpi_waitall (R:=R) start stop count requests w =
     call (this_region <- _ENTER "MPI_Waitall" start stop ;;
           complete_each L start ;;
           _LEAVE stop this_region) w).
  { unfold mpi_waitall, call. rewrite !(bind_normal _ _ _ _ _ (ENTER_eq _ _ _ _)).
    destruct (entered_fields "MPI_Waitall" start stop w) as (Hn & _).
    rewrite Hcount, Nat2Z.id.
    specialize (Hloop _ Hn). change (Z.of_nat (length [])) with 0 in Hloop.
    rewrite (bind_outcome (for_loop _ _ _ _)), Hloop.
    rewrite <- bind_outcome, bind_assoc. reflexivity. }
  split; [by exists L|].
  intros Hlive.
  destruct (entered_fields "MPI_Waitall" start stop w) as (Hn & _ & Hty & Hcap & Hev & _).
  destruct (complete_each_live (R:=OTF2_WRITER_RESULT) start L
              (entered "MPI_Waitall" start stop w) Hnd)
    as (w1 & Hc & _ & Hev1 & Hty1).
  { intros x Hx. apply HL in Hx as [Hx1 Hx2]. specialize (Hlive x Hx1 Hx2).
    unfold live in *. by rewrite Hty, Hcap. }
  exists (left stop (region_id "MPI_Waitall" w) w1). split.
  { rewrite Heq. unfold call. rewrite (bind_normal _ _ _ _ _ (ENTER_eq _ _ _ _)).
    by rewrite bind_outcome, Hc. }
  intros r. unfold left. cbn [evt_writer write_event add_event_count request_type]. split.
  - rewrite completions_of_enter_leave by done.
    rewrite Hev1, Hev, completions_of_enter_leave by done.
    destruct (decide (r ∈ L)) as [H|H]; rewrite HL in H.
    + by rewrite bool_decide_eq_true_2.
    + by rewrite bool_decide_eq_false_2.
  - intros H1 H2. rewrite Hty1.
    destruct (decide (r ∈ L)) as [H|H]; [done|]. exfalso. apply H, HL. done.
Qed.

Lemma mpi_waitall_completes_each_id_once_witness :
  ∃ w1 w2,
    mpi_isend (R:=unit) 10 20 11 10 3 0 99 5 example_writer
      = Normal OTF2_WRITER_SUCCESS w1 ∧
    mpi_waitall (R:=unit) 30 40 3 [5; -1; 5] w1 = Normal OTF2_WRITER_SUCCESS w2 ∧
    completions_of 5 (evt_writer w2) = 1%nat ∧
    request_type w2 !! 5 = None.
Proof.
  eexists. 
  destruct (mpi_waitall_completes_each_id_once (R:=unit)
              (left 20 0 (add_event_count 1
                 (write_event (MpiIsend 10 3 0 99 80 5)
                    (posted 5 REQUEST_TYPE_ISEND
                       (entered "MPI_Isend" 10 20 example_writer)))))
              30 40 3 [5; -1; 5] eq_refl) as [_ H].
  destruct H as (w2 & Hw & Hc).
  { intros r Hr Hn. left.
    apply elem_of_cons in Hr as [->|Hr]; [reflexivity|].
    apply elem_of_cons in Hr as [->|Hr]; [by vm_compute in Hn|].
    apply elem_of_cons in Hr as [->|Hr]; [reflexivity|].
    by apply elem_of_nil in Hr. }
  exists w2. split; [vm_compute; reflexivity|]. split; [exact Hw|].
  destruct (Hc 5) as [Hc1 Hc2]. split.
  - rewrite Hc1. reflexivity.
  - apply Hc2; [by left | vm_compute; discriminate].
Defined.


(** ** The batch calls without a set of seen ids *)

Lemma complete_call_normal_inv {R} (x t : Z) (w w1 : OTF2_Writer) :
  complete_call (R:=R) x t w = Normal tt w1 →
  null_request_ w1 = null_request_ w ∧
  request_type w1 = delete x (request_type w) ∧
  (∀ y, y ≠ x → irecv_requests w1 !! y = irecv_requests w !! y).
Proof.
  destruct (request_type w !! x) as [[]|] eqn:Hty.
  - rewrite complete_call_isend by done. by intros [= <-].
  - destruct (irecv_requests w !! x) as [irecv|] eqn:Hcap.
    + erewrite complete_call_irecv by done. intros [= <-]. cbn.
      repeat split. intros y Hy. by rewrite lookup_delete_ne.
    + by rewrite complete_call_irecv_no_capture.
  - destruct (decide (x = null_request_ w)).
    + rewrite complete_call_null by done. intros [= <-].
      by rewrite delete_id.
    + by rewrite complete_call_unknown.
Qed.

Lemma complete_each_untracked {R} (t r : Z) :
  ∀ (l : list Z) (w : OTF2_Writer),
    r ≠ null_request_ w → request_type w !! r = None → r ∈ l →
    ∀ w', complete_each (R:=R) l t w ≠ Normal tt w'.
Proof.
  induction l as [|x l IH]; intros w Hn Hr Hin w'.
  - by apply elem_of_nil in Hin.
  - cbn [complete_each]. rewrite bind_outcome.
    destruct (complete_call (R:=R) x t w) as [[] w1| | | |] eqn:Hc; try done.
    destruct (complete_call_normal_inv _ _ _ _ Hc) as (Hn1 & Hty1 & _).
    apply elem_of_cons in Hin as [->|Hin].
    + by rewrite complete_call_unknown in Hc.
    + apply IH; [congruence | | done].
      rewrite Hty1. destruct (decide (r = x)) as [->|];
        [apply lookup_delete_eq | by rewrite lookup_delete_ne].
Qed.

Lemma complete_each_repeated {R} (t r : Z) :
  ∀ (l : list Z) (w : OTF2_Writer) (i j : nat),
    r ≠ null_request_ w → i ≠ j → l !! i = Some r → l !! j = Some r →
    ∀ w', complete_each (R:=R) l t w ≠ Normal tt w'.
Proof.
  induction l as [|x l IH]; intros w i j Hn Hij Hi Hj w'; [done|].
  cbn [complete_each]. rewrite bind_outcome.
  destruct (complete_call (R:=R) x t w) as [[] w1| | | |] eqn:Hc; try done.
  destruct (complete_call_normal_inv _ _ _ _ Hc) as (Hn1 & Hty1 & _).
  assert (Hdead : x = r → r ∈ l → complete_each (R:=R) l t w1 ≠ Normal tt w').
  { intros -> Hin. apply complete_each_untracked with (r := r); [congruence| |done].
    rewrite Hty1. apply lookup_delete_eq. }
  destruct i as [|i], j as [|j]; try done; cbn in Hi, Hj.
  - injection Hi as ->. apply Hdead; [done|]. by eapply list_elem_of_lookup_2.
  - injection Hj as ->. apply Hdead; [done|]. by eapply list_elem_of_lookup_2.
  - apply (IH w1 i j); [congruence | congruence | done | done].
Qed.

Lemma complete_each_consistent {R} (t : Z) :
  ∀ (l : list Z) (w : OTF2_Writer), tracker_consistent w →
    complete_each (R:=R) l t w = Aborted ∨ ∃ w', complete_each (R:=R) l t w = Normal tt w'.
Proof.
  induction l as [|x l IH]; intros w Hw; [right; by exists w|].
  cbn [complete_each]. rewrite bind_outcome.
  destruct (request_type w !! x) as [[]|] eqn:Hty.
  - rewrite complete_call_isend by done. apply IH.
    intros r. cbn. destruct (decide (r = x)) as [->|];
      [by rewrite lookup_delete_eq | rewrite lookup_delete_ne by done; apply Hw].
  - destruct (Hw x Hty) as [irecv Hcap].
    erewrite complete_call_irecv by done. apply IH.
    intros r. cbn. destruct (decide (r = x)) as [->|];
      [by rewrite lookup_delete_eq | rewrite !lookup_delete_ne by done; apply Hw].
  - destruct (decide (x = null_request_ w)).
    + rewrite complete_call_null by done. by apply IH.
    + rewrite complete_call_unknown by done. by left.
Qed.

Lemma complete_each_outcome {R} (t : Z) :
  ∀ (l : list Z) (w : OTF2_Writer),
    (∃ w', complete_each (R:=R) l t w = Normal tt w') ∨
    complete_each (R:=R) l t w = Aborted ∨
    complete_each (R:=R) l t w = Undefined.
Proof.
  induction l as [|x l IH]; intros w; [left; by exists w|].
  cbn [complete_each]. rewrite bind_outcome.
  destruct (complete_call_outcome (R:=R) x t w) as [(w1 & -> & _)|[-> | ->]]; auto.
Qed.

Lemma testall_loop {R} (start : Z) (requests : list Z) :
  ∀ (l2 l1 : list Z) (w : OTF2_Writer), requests = l1 ++ l2 →
    for_loop (R:=R) (length l2) (Z.of_nat (length l1))
      (λ i (_ : unit), req <- index requests i ;; complete_call req start) tt w
    = complete_each l2 start w.
Proof.
  induction l2 as [|r l2 IH]; intros l1 w Hreq; [done|].
  cbn [for_loop length complete_each].
  rewrite bind_assoc, (index_app _ _ _ _ Hreq), bind_ret_l.
  apply bind_ext. intros [] w1.
  replace (Z.of_nat (length l1) + 1) with (Z.of_nat (length (l1 ++ [r])))
    by (rewrite length_app; cbn; lia).
  apply IH. by rewrite <- app_assoc.
Qed.

Lemma index_lookup {R A} (l : list A) (i : Z) (x : A) :
  0 ≤ i → l !! Z.to_nat i = Some x → index (R:=R) l i = ret x.
Proof.
  intros Hi Hl. unfold index. destruct (decide _); [|done]. by rewrite Hl.
Qed.

Lemma some_loop {R} (start : Z) (requests indices : list Z) :
  ∀ (idx2 selected idx1 : list Z) (w : OTF2_Writer),
    indices = idx1 ++ idx2 → selects requests idx2 selected →
    for_loop (R:=R) (length idx2) (Z.of_nat (length idx1))
      (λ i (_ : unit),
         idx <- index indices i ;;
         req <- index requests idx ;;
         complete_call req start) tt w
    = complete_each selected start w.
Proof.
  induction idx2 as [|idx idx2 IH]; intros selected idx1 w Hidx Hsel.
  - apply Forall2_nil_inv_l in Hsel as ->. done.
  - apply Forall2_cons_inv_l in Hsel as (req & sel' & [Hpos Hreq] & Hsel & ->).
    cbn [for_loop length complete_each].
    rewrite bind_assoc, (index_app _ _ _ _ Hidx), bind_ret_l.
    rewrite bind_assoc, (index_lookup _ _ _ Hpos Hreq), bind_ret_l.
    apply bind_ext. intros [] w1.
    replace (Z.of_nat (length idx1) + 1) with (Z.of_nat (length (idx1 ++ [idx])))
      by (rewrite length_app; cbn; lia).
    apply IH; [by rewrite <- app_assoc | done].
Qed.

Lemma entered_consistent (name : string) (start stop : Z) (w : OTF2_Writer) :
  tracker_consistent w → tracker_consistent (entered name start stop w).
Proof.
  intros Hw r. destruct (entered_fields name start stop w) as (_&_&->&->&_). apply Hw.
Qed.

(** The three batch calls, as completions of a list of ids, stop the run
    when a non-null id is listed twice. *)
Lemma bracket_repeated {R} (name : string) (start stop r : Z) (l : list Z)
    (i j : nat) (w : OTF2_Writer) :
  r ≠ null_request_ w → i ≠ j → l !! i = Some r → l !! j = Some r →
  (∀ w', call (R':=R) (this_region <- _ENTER name start stop ;;
                       complete_each l start ;;
                       _LEAVE stop this_region) w ≠ Normal OTF2_WRITER_SUCCESS w') ∧
  (tracker_consistent w →
   call (R':=R) (this_region <- _ENTER name start stop ;;
                 complete_each l start ;;
                 _LEAVE stop this_region) w = Aborted).
Proof.
  intros Hn Hij Hi Hj.
  destruct (entered_fields name start stop w) as (Hn' & _).
  pose proof (complete_each_repeated (R:=OTF2_WRITER_RESULT) start r l
                (entered name start stop w) i j) as Hrep.
  rewrite Hn' in Hrep. specialize (Hrep Hn Hij Hi Hj).
  unfold call. rewrite !(bind_normal _ _ _ _ _ (ENTER_eq _ _ _ _)), !bind_outcome.
  split.
  - intros w'.
    destruct (complete_each_outcome (R:=OTF2_WRITER_RESULT) start l
                (entered name start stop w)) as [[w1 H1]|[->| ->]];
      [by destruct (Hrep w1) | done | done].
  - intros Hw.
    destruct (complete_each_consistent (R:=OTF2_WRITER_RESULT) start l
                (entered name start stop w)) as [->|[w1 H1]];
      [by apply entered_consistent | done | by destruct (Hrep w1)].
Qed.

Lemma mpi_testall_eq {R} (start stop count flag : Z) (requests : list Z) (w : OTF2_Writer) :
  count = Z.of_nat (length requests) → flag ≠ 0 →
  mpi_testall (R:=R) start stop count requests flag w =
  call (this_region <- _ENTER "MPI_Testall" start stop ;;
        complete_each requests start ;;
        _LEAVE stop this_region) w.
Proof.
  intros -> Hflag. unfold mpi_testall, call.
  enter.
  destruct (decide (flag ≠ 0)); [|done].
  rewrite Nat2Z.id, !bind_outcome.
  by rewrite (testall_loop start requests requests [] _ eq_refl).
Qed.

Lemma mpi_waitsome_eq {R} (start stop outcount : Z) (requests indices selected : list Z)
    (w : OTF2_Writer) :
  outcount = Z.of_nat (length indices) → selects requests indices selected →
  mpi_waitsome (R:=R) start stop requests outcount indices w =
  call (this_region <- _ENTER "MPI_Waitsome" start stop ;;
        complete_each selected start ;;
        _LEAVE stop this_region) w.
Proof.
  intros -> Hsel. unfold mpi_waitsome, call.
  enter.
  rewrite Nat2Z.id, !bind_outcome.
  by rewrite (some_loop start requests indices indices selected [] _ eq_refl Hsel).
Qed.

Lemma mpi_testsome_eq {R} (start stop outcount : Z) (requests indices selected : list Z)
    (w : OTF2_Writer) :
  outcount = Z.of_nat (length indices) → selects requests indices selected →
  mpi_testsome (R:=R) start stop requests outcount indices w =
  call (this_region <- _ENTER "MPI_Testsome" start stop ;;
        complete_each selected start ;;
        _LEAVE stop this_region) w.
Proof.
  intros -> Hsel. unfold mpi_testsome, call.
  enter.
  rewrite Nat2Z.id, !bind_outcome.
  by rewrite (some_loop start requests indices indices selected [] _ eq_refl Hsel).
Qed.

(** The posts keep the tracker consistent. *)
Lemma new_writer_consistent (size rank null : Z) :
  tracker_consistent (new_writer size rank null).
Proof. intros r. cbn. by rewrite lookup_empty. Qed.

Lemma example_writer_consistent : tracker_consistent example_writer.
Proof. intros r. cbn. by rewrite lookup_empty. Qed.

Lemma mpi_irecv_consistent {R} start stop type count source comm tag request w w1 :
  tracker_consistent w →
  mpi_irecv (R:=R) start stop type count source comm tag request w
    = Normal OTF2_WRITER_SUCCESS w1 →
  tracker_consistent w1.
Proof.
  intros Hw H. apply mpi_irecv_tracker in H as (_ & Hi & Ht). intros r.
  rewrite Hi, Ht.
  destruct (decide (r = request)) as [->|Hr].
  - by rewrite lookup_insert_eq.
  - rewrite lookup_insert_ne by done.
    destruct (decide _); [rewrite lookup_insert_ne by done|]; apply Hw.
Qed.

Lemma mpi_isend_consistent {R} start stop type count dest comm tag request w w1 :
  tracker_consistent w →
  mpi_isend (R:=R) start stop type count dest comm tag request w
    = Normal OTF2_WRITER_SUCCESS w1 →
  tracker_consistent w1.
Proof.
  intros Hw H. apply mpi_isend_tracker in H as (_ & Hi & Ht). intros r.
  rewrite Hi, Ht.
  destruct (decide _); [|apply Hw].
  destruct (decide (r = request)) as [->|Hr].
  - by rewrite lookup_insert_eq.
  - rewrite lookup_insert_ne by done. apply Hw.
Qed.

(** C9: [mpi_testall] with a true flag over an array that lists a live
    non-null id at two positions never ends normally, and in a consistent
    tracker it aborts: the first attempt on the id removes it, the next one
    finds it missing.  [mpi_waitsome] and [mpi_testsome] abort in the same
    way when their indices select such an id twice; none of the three keeps
    a set of the ids it has completed. *)
Theorem batch_calls_do_not_deduplicate {R}
    (w : OTF2_Writer) (start stop count flag r : Z) (requests : list Z) (i j : nat) :
  count = Z.of_nat (length requests) → flag ≠ 0 →
  r ≠ null_request_ w → live r w →
  i ≠ j → requests !! i = Some r → requests !! j = Some r →
  (∀ w', mpi_testall (R:=R) start stop count requests flag w
           ≠ Normal OTF2_WRITER_SUCCESS w') ∧
  (tracker_consistent w →
   mpi_testall (R:=R) start stop count requests flag w = Aborted ∧
   ∀ (array indices : list Z) (outcount : Z),
     outcount = Z.of_nat (length indices) → selects array indices requests →
     mpi_waitsome (R:=R) start stop array outcount indices w = Aborted ∧
     mpi_testsome (R:=R) start stop array outcount indices w = Aborted).
Proof.
  intros Hcount Hflag Hn _ Hij Hi Hj.
  rewrite (mpi_testall_eq _ _ _ _ _ _ Hcount Hflag).
  destruct (bracket_repeated (R:=R) "MPI_Testall" start stop r requests i j w
              Hn Hij Hi Hj) as [H1 H2].
  split; [done|]. intros Hw. split; [by apply H2|].
  intros array indices outcount Hout Hsel.
  rewrite (mpi_waitsome_eq _ _ _ _ _ _ _ Hout Hsel).
  rewrite (mpi_testsome_eq _ _ _ _ _ _ _ Hout Hsel).
  split; by apply bracket_repeated with (r := r) (i := i) (j := j).
Qed.

Lemma batch_calls_do_not_deduplicate_witness :
  ∃ w1,
    mpi_isend (R:=unit) 10 20 11 10 3 0 99 5 example_writer
      = Normal OTF2_WRITER_SUCCESS w1 ∧
    mpi_testall (R:=unit) 30 40 2 [5; 5] 1 w1 = Aborted ∧
    mpi_waitsome (R:=unit) 30 40 [7; 5] 2 [1; 1] w1 = Aborted ∧
    mpi_testsome (R:=unit) 30 40 [7; 5] 2 [1; 1] w1 = Aborted.
Proof.
  eexists. split; [apply mpi_isend_eq|].
  match goal with |- mpi_testall _ _ _ _ _ ?w = _ ∧ _ => set (w1 := w) end.
  assert (Hw1 : tracker_consistent w1).
  { eapply (mpi_isend_consistent (R:=unit));
      [apply example_writer_consistent | apply mpi_isend_eq]. }
  destruct (batch_calls_do_not_deduplicate (R:=unit) w1 30 40 2 1 5 [5; 5] 0 1
              eq_refl ltac:(lia) ltac:(vm_compute; discriminate)
              ltac:(left; reflexivity) ltac:(lia) eq_refl eq_refl) as [_ H].
  destruct (H Hw1) as [Ht Hs]. split; [exact Ht|].
  apply (Hs [7; 5] [1; 1] 2 eq_refl).
  repeat constructor; lia.
Defined.


(** ** The volume of a broadcast *)

Lemma int_mul_zero {R} (a : Z) : int_mul (R:=R) a 0 = ret 0.
Proof.
  unfold int_mul. rewrite Z.mul_0_r. destruct (decide _) as [|H]; [done|].
  exfalso. apply H. lia.
Qed.

Lemma mpi_bcast_eq {R} (w : OTF2_Writer) (start stop count type root comm : Z) :
  mpi_bcast (R:=R) start stop count type root comm w =
  Normal OTF2_WRITER_SUCCESS
    (left stop (region_id "MPI_Bcast" w)
       (add_event_count 2
          (write_event
             (MpiCollectiveEnd stop OTF2_COLLECTIVE_OP_BCAST comm root 0
                (to_int (bytes_of (type_sizes_ w) type (to_uint64 count))))
             (write_event (MpiCollectiveBegin start)
                (counted type (entered "MPI_Bcast" start stop w)))))).
Proof.
  unfold mpi_bcast, call.
  enter.
  unfold get_world_rank at 1, call at 1. rewrite bind_outcome. cbn [return_].
  rewrite bind_gets.
  rewrite (bind_normal _ _ _ _ _ (count_bytes_eq _ _ _)).
  destruct (entered_fields "MPI_Bcast" start stop w) as (_&->&_).
  unfold COLLECTIVE_WRAPPER.
  destruct (bool_decide _); [|reflexivity].
  set (b := to_int _).
  change (sz <- get_comm_size comm ;; int_mul b sz)
    with (int_mul (R:=OTF2_WRITER_RESULT) b 0).
  by rewrite int_mul_zero.
Qed.

(** C3 (the code against the claim): whatever the arguments, the rank of
    the writer and the registered sizes, the end record of [mpi_bcast]
    carries 0 sent bytes, since the communicator size it multiplies with
    comes from a stub that returns 0; the received bytes are those of
    [count_bytes].  For the scenario of a root rank, an 8-byte type and a
    count of 10 the record reads sent 0, received 80. *)
Theorem mpi_bcast_sent_is_zero :
  (∀ (R : Type) (w : OTF2_Writer) (start stop count type root comm : Z),
     ∃ w', mpi_bcast (R:=R) start stop count type root comm w
             = Normal OTF2_WRITER_SUCCESS w' ∧
           evt_writer w' = evt_writer w ++
             [Enter start (region_id "MPI_Bcast" w);
              MpiCollectiveBegin start;
              MpiCollectiveEnd stop OTF2_COLLECTIVE_OP_BCAST comm root 0
                (to_int (bytes_of (type_sizes_ w) type (to_uint64 count)));
              Leave stop (region_id "MPI_Bcast" w)]) ∧
  (∃ w', mpi_bcast (R:=unit) 100 200 10 11 0 0 example_writer
           = Normal OTF2_WRITER_SUCCESS w' ∧
         rank (world_ example_writer) = 0 ∧ size (world_ example_writer) = 4 ∧
         evt_writer w' =
           [Enter 100 0; MpiCollectiveBegin 100;
            MpiCollectiveEnd 200 OTF2_COLLECTIVE_OP_BCAST 0 0 0 80;
            Leave 200 0]).
Proof.
  split.
  - intros R w start stop count type root comm. eexists. split; [apply mpi_bcast_eq|].
    unfold left. cbn [evt_writer write_event add_event_count].
    destruct (counted_fields type (entered "MPI_Bcast" start stop w)) as (_&_&_&_&->&_).
    destruct (entered_fields "MPI_Bcast" start stop w) as (_&_&_&_&->&_).
    by rewrite <- !app_assoc.
  - eexists. split; [apply mpi_bcast_eq|]. by vm_compute.
Qed.

(** ** The group check of [mpi_comm_group] *)

(** C6 (the code against the claim): [mpi_comm_group] returns success for
    every communicator and every group handle; the macro [_LEAVE()] has
    returned before the comparison with the recorded handle, so the
    mismatch is never raised.  After [register_comm_world] the world
    communicator records group 1, and the call with group 7 succeeds. *)
Theorem mpi_comm_group_never_raises :
  (∀ (R : Type) (w : OTF2_Writer) (start stop comm group : Z),
     mpi_comm_group (R:=R) start stop comm group w =
     Normal OTF2_WRITER_SUCCESS
       (left stop (region_id "MPI_Comm_group" w)
          (entered "MPI_Comm_group" start stop w))) ∧
  (∃ w1 w2,
     register_comm_world (R:=unit) 0 (new_writer 4 0 (-1)) = Normal tt w1 ∧
     rec_local_group_id <$> comms_ w1 !! MPI_COMM_WORLD_ID = Some COMM_WORLD_GROUP_ID ∧
     mpi_comm_group (R:=unit) 10 20 MPI_COMM_WORLD_ID 7 w1
       = Normal OTF2_WRITER_SUCCESS w2 ∧
     comms_ w2 = comms_ w1).
Proof.
  split.
  - intros R w start stop comm group. unfold mpi_comm_group, call.
    by rewrite (bind_normal _ _ _ _ _ (ENTER_eq _ _ _ _)).
  - do 2 eexists. by vm_compute.
Qed.


(** ** The loop of the exclusion *)

Lemma with_global_ranks_twice (k : Z) (v v' : list Z) (w : OTF2_Writer) :
  with_global_ranks k v' (with_global_ranks k v w) = with_global_ranks k v' w.
Proof.
  unfold with_global_ranks. cbn. by rewrite lookup_insert_eq, insert_insert_eq.
Qed.

Lemma with_global_ranks_lookup (k : Z) (v : list Z) (w : OTF2_Writer) :
  global_ranks <$> groups_ (with_global_ranks k v w) !! k = Some v.
Proof. unfold with_global_ranks. cbn. by rewrite lookup_insert_eq. Qed.

Lemma with_global_ranks_lookup_ne (k k' : Z) (v : list Z) (w : OTF2_Writer) :
  k ≠ k' → groups_ (with_global_ranks k v w) !! k' = groups_ w !! k'.
Proof. intros H. unfold with_global_ranks. cbn. by rewrite lookup_insert_ne. Qed.

Lemma group_ref_self {R} (k : Z) (v : list Z) (w : OTF2_Writer) :
  ∃ g, group_ref (R:=R) k (with_global_ranks k v w) = Normal g (with_global_ranks k v w) ∧
       global_ranks g = v.
Proof.
  eexists. split; [reflexivity|]. unfold with_global_ranks. cbn.
  by rewrite lookup_insert_eq.
Qed.

Lemma group_ref_other {R} (k k' : Z) (v : list Z) (w : OTF2_Writer) (g : OTF2_MPI_Group) :
  k ≠ k' → groups_ w !! k' = Some g →
  group_ref (R:=R) k' (with_global_ranks k v w) = Normal g (with_global_ranks k v w).
Proof.
  intros Hne Hg. unfold group_ref, gets.
  by rewrite with_global_ranks_lookup_ne, Hg.
Qed.

Lemma global_ranks_store_in {R} (k i x : Z) (v : list Z) (w : OTF2_Writer) :
  0 ≤ i < Z.of_nat (length v) →
  global_ranks_store (R:=R) k i x (with_global_ranks k v w) =
  Normal tt (with_global_ranks k (<[Z.to_nat i := x]> v) w).
Proof.
  intros Hi. unfold global_ranks_store.
  destruct (group_ref_self (R:=R) k v w) as (g & Hg & Hv).
  rewrite (bind_normal _ _ _ _ _ Hg), Hv.
  destruct (decide _); [|done].
  unfold group_update, modify, with_global_ranks. cbn.
  rewrite !lookup_insert_eq. cbn. by rewrite insert_insert_eq.
Qed.

Lemma global_ranks_store_out {R} (k i x : Z) (v : list Z) (w : OTF2_Writer) :
  ¬ (0 ≤ i < Z.of_nat (length v)) →
  global_ranks_store (R:=R) k i x (with_global_ranks k v w) = Undefined.
Proof.
  intros Hi. unfold global_ranks_store.
  destruct (group_ref_self (R:=R) k v w) as (g & Hg & Hv).
  rewrite (bind_normal _ _ _ _ _ Hg), Hv.
  by destruct (decide _).
Qed.

Lemma deref_app {R} (l S1 S2 : list Z) :
  l = S1 ++ S2 →
  deref (R:=R) l (length S1) = match S2 with [] => undefined | s :: _ => ret s end.
Proof.
  intros ->. unfold deref. rewrite lookup_app_r, Nat.sub_diag by lia. by destruct S2.
Qed.

Lemma exclude_from_skip (j s : Z) (members excluded : list Z) :
  s < j → exclude_from j members (s :: excluded) = exclude_from j members excluded.
Proof.
  revert j. induction members as [|x members IH]; intros j Hs; [done|].
  cbn [exclude_from]. rewrite (IH (j + 1)) by lia.
  destruct (decide (j ∈ s :: excluded)) as [H|H], (decide (j ∈ excluded)) as [H'|H'];
    try done.
  - apply elem_of_cons in H as [->|H]; [lia | done].
  - exfalso. apply H. by right.
Qed.

Lemma sorted_length_bound (l : list Z) (a b : Z) :
  StronglySorted Z.lt l → Forall (λ s, a ≤ s < b) l → a ≤ b →
  Z.of_nat (length l) ≤ b - a.
Proof.
  revert a. induction l as [|s l IH]; intros a Hs Hr Hab; [cbn; lia|].
  apply StronglySorted_cons in Hs as [Hlt Hs]. apply Forall_cons in Hr as [Hsr Hr].
  assert (Z.of_nat (length l) ≤ b - (s + 1)).
  { apply IH; [done| |lia]. rewrite Forall_forall in *. intros y Hy.
    specialize (Hlt y Hy). specialize (Hr y Hy). lia. }
  cbn [length]. lia.
Qed.

Section exclusion_loop.
Context {R : Type}.
Variables (w : OTF2_Writer) (group newgroup : Z) (gp : OTF2_MPI_Group) (sorted : list Z).
Hypothesis Hne : newgroup ≠ group.
Hypothesis Hgp : groups_ w !! group = Some gp.

Lemma excl_loop_ok :
  ∀ (P2 P1 S1 S2 v : list Z) (idx : Z),
    global_ranks gp = P1 ++ P2 → sorted = S1 ++ S2 →
    StronglySorted Z.lt S2 →
    Forall (λ s, Z.of_nat (length P1) ≤ s < Z.of_nat (length (P1 ++ P2))) S2 →
    (P2 = [] ∨ last S2 = Some (Z.of_nat (length (P1 ++ P2)) - 1)) →
    Z.of_nat (length v) = Z.of_nat (length (P1 ++ P2)) - Z.of_nat (length (S1 ++ S2)) →
    idx = Z.of_nat (length P1) - Z.of_nat (length S1) → 0 ≤ idx →
    for_loop (R:=R) (length P2) (Z.of_nat (length P1))
      (λ i '(iter, nextInsertIndex),
         nextToAvoid <- deref sorted iter ;;
         parent <- group_ref group ;;
         nextRank <- index (global_ranks parent) i ;;
         if decide (nextToAvoid = i)
         then ret (S iter, nextInsertIndex)
         else global_ranks_store newgroup nextInsertIndex nextRank ;;
              ret (iter, nextInsertIndex + 1))
      (length S1, idx) (with_global_ranks newgroup v w)
    = Normal (length (S1 ++ S2), Z.of_nat (length v))
        (with_global_ranks newgroup
           (take (Z.to_nat idx) v ++ exclude_from (Z.of_nat (length P1)) P2 S2) w).
Proof.
  induction P2 as [|x P2 IH]; intros P1 S1 S2 v idx HP HS Hsort Hrange Hlast Hlen Hidx Hpos.
  - rewrite app_nil_r in *. destruct S2 as [|s S2].
    + rewrite app_nil_r in *. cbn [for_loop exclude_from length]. unfold ret.
      rewrite firstn_all2 by lia. do 2 f_equal. lia.
    + apply Forall_cons in Hrange as [Hs _]. lia.
  - assert (Hn : length (P1 ++ x :: P2) = S (length (P1 ++ P2))).
    { rewrite !length_app. cbn. lia. }
    destruct S2 as [|s S2].
    { destruct Hlast as [?|Hl]; [done | by rewrite last_nil in Hl]. }
    apply StronglySorted_cons in Hsort as [Hlt Hsort].
    apply Forall_cons in Hrange as [Hs Hrange].
    cbn [for_loop length]. rewrite bind_assoc, (deref_app _ _ _ HS), bind_ret_l.
    rewrite bind_assoc, (bind_normal _ _ _ _ _ (group_ref_other _ _ _ _ _ Hne Hgp)).
    rewrite bind_assoc, (index_app _ _ _ _ HP), bind_ret_l.
    assert (HP' : global_ranks gp = (P1 ++ [x]) ++ P2) by (by rewrite <- app_assoc).
    assert (Hi : Z.of_nat (length P1) + 1 = Z.of_nat (length (P1 ++ [x]))).
    { rewrite length_app. cbn. lia. }
    assert (Hn' : length ((P1 ++ [x]) ++ P2) = length (P1 ++ x :: P2)).
    { by rewrite <- app_assoc. }
    destruct (decide (s = Z.of_nat (length P1))) as [->|Hsi].
    + rewrite bind_ret_l, Hi.
      replace (S (length S1)) with (length (S1 ++ [Z.of_nat (length P1)]))
        by (rewrite length_app; cbn; lia).
      rewrite (IH (P1 ++ [x]) (S1 ++ [Z.of_nat (length P1)]) S2 v idx HP').
      * rewrite <- !app_assoc. cbn [app exclude_from].
        destruct (decide _) as [_|Hin]; [|exfalso; apply Hin; by left].
        rewrite <- Hi, exclude_from_skip by lia. done.
      * by rewrite <- app_assoc.
      * done.
      * rewrite Hn'. rewrite Forall_forall in *. intros y Hy.
        specialize (Hlt y Hy). specialize (Hrange y Hy). lia.
      * destruct Hlast as [?|Hl]; [done|]. destruct S2 as [|s' S2].
        -- left. rewrite last_singleton in Hl. injection Hl as Hl.
           rewrite Hn in Hl. destruct P2; [done|].
           rewrite !length_app in Hl. cbn in Hl. lia.
        -- right. by rewrite Hn', <- Hl, last_cons_cons.
      * rewrite Hn'. rewrite <- app_assoc. exact Hlen.
      * rewrite !length_app. cbn. lia.
      * done.
    + assert (Hbound : Z.of_nat (length (s :: S2)) ≤
                Z.of_nat (length (P1 ++ x :: P2)) - (Z.of_nat (length P1) + 1)).
      { apply sorted_length_bound.
        - by apply StronglySorted_cons.
        - apply Forall_cons. split; [lia|]. rewrite Forall_forall in *.
          intros y Hy. specialize (Hlt y Hy). specialize (Hrange y Hy). lia.
        - rewrite length_app. cbn. lia. }
      assert (Hv : idx < Z.of_nat (length v)).
      { clear -Hlen Hbound Hidx. rewrite !length_app in Hlen. rewrite !length_app in Hbound.
        cbn [length] in Hlen, Hbound. lia. }
      rewrite bind_assoc, (bind_outcome (global_ranks_store _ _ _)).
      rewrite global_ranks_store_in by lia.
      rewrite bind_ret_l, Hi.
      rewrite (IH (P1 ++ [x]) S1 (s :: S2) (<[Z.to_nat idx := x]> v) (idx + 1) HP' HS).
      * rewrite length_insert. do 2 f_equal.
        rewrite <- Hi. cbn [exclude_from].
        destruct (decide _) as [Hin|_].
        { exfalso. apply elem_of_cons in Hin as [?|Hin]; [done|].
          rewrite Forall_forall in Hlt. specialize (Hlt _ Hin). lia. }
        replace (Z.to_nat (idx + 1)) with (S (Z.to_nat idx)) by lia.
        rewrite (take_S_r _ _ x) by (apply list_lookup_insert_eq; lia).
        rewrite take_insert_ge by lia. by rewrite <- app_assoc.
      * by apply StronglySorted_cons.
      * rewrite Hn'. apply Forall_cons. split; [lia|]. rewrite Forall_forall in *.
        intros y Hy. specialize (Hlt y Hy). specialize (Hrange y Hy). lia.
      * destruct Hlast as [?|Hl]; [done|]. right. by rewrite Hn'.
      * rewrite length_insert, Hn'. exact Hlen.
      * rewrite length_app. cbn. lia.
      * lia.
Qed.

Lemma sorted_head_le_last (s m : Z) (l : list Z) :
  StronglySorted Z.lt (s :: l) → last (s :: l) = Some m → s ≤ m.
Proof.
  intros Hs Hl. apply StronglySorted_cons in Hs as [Hlt _].
  apply last_Some_elem_of, elem_of_cons in Hl as [->|Hm]; [lia|].
  rewrite Forall_forall in Hlt. specialize (Hlt m Hm). lia.
Qed.

Lemma excl_loop_undefined :
  ∀ (P2 P1 S1 S2 v : list Z) (idx : Z),
    global_ranks gp = P1 ++ P2 → P2 ≠ [] → sorted = S1 ++ S2 →
    StronglySorted Z.lt S2 →
    Forall (λ s, Z.of_nat (length P1) ≤ s < Z.of_nat (length (P1 ++ P2))) S2 →
    (∀ m, last S2 = Some m → m < Z.of_nat (length (P1 ++ P2)) - 1) →
    for_loop (R:=R) (length P2) (Z.of_nat (length P1))
      (λ i '(iter, nextInsertIndex),
         nextToAvoid <- deref sorted iter ;;
         parent <- group_ref group ;;
         nextRank <- index (global_ranks parent) i ;;
         if decide (nextToAvoid = i)
         then ret (S iter, nextInsertIndex)
         else global_ranks_store newgroup nextInsertIndex nextRank ;;
              ret (iter, nextInsertIndex + 1))
      (length S1, idx) (with_global_ranks newgroup v w)
    = Undefined.
Proof.
  induction P2 as [|x P2 IH]; intros P1 S1 S2 v idx HP Hne2 HS Hsort Hrange Hlast; [done|].
  cbn [for_loop length]. rewrite bind_assoc, (deref_app _ _ _ HS).
  destruct S2 as [|s S2]; [done|]. rewrite bind_ret_l.
  pose proof Hsort as Hsort0.
  apply StronglySorted_cons in Hsort as [Hlt Hsort].
  apply Forall_cons in Hrange as [Hs Hrange].
  rewrite bind_assoc, (bind_normal _ _ _ _ _ (group_ref_other _ _ _ _ _ Hne Hgp)).
  rewrite bind_assoc, (index_app _ _ _ _ HP), bind_ret_l.
  assert (HP' : global_ranks gp = (P1 ++ [x]) ++ P2) by (by rewrite <- app_assoc).
  assert (Hi : Z.of_nat (length P1) + 1 = Z.of_nat (length (P1 ++ [x]))).
  { rewrite length_app. cbn. lia. }
  assert (Hn' : length ((P1 ++ [x]) ++ P2) = length (P1 ++ x :: P2)).
  { by rewrite <- app_assoc. }
  assert (Hn : Z.of_nat (length (P1 ++ x :: P2)) =
               Z.of_nat (length P1) + 1 + Z.of_nat (length P2)).
  { rewrite length_app. cbn [length]. lia. }
  destruct (decide (s = Z.of_nat (length P1))) as [->|Hsi].
  - rewrite bind_ret_l, Hi.
    replace (S (length S1)) with (length (S1 ++ [Z.of_nat (length P1)]))
      by (rewrite length_app; cbn; lia).
    apply (IH (P1 ++ [x]) (S1 ++ [Z.of_nat (length P1)]) S2 v idx HP').
    + intros ->. destruct (last (Z.of_nat (length P1) :: S2)) as [m|] eqn:Hm.
      * pose proof (sorted_head_le_last _ _ _ Hsort0 Hm).
        specialize (Hlast m eq_refl). cbn [length] in Hn. lia.
      * by apply last_None in Hm.
    + by rewrite <- app_assoc.
    + done.
    + rewrite Hn'. rewrite Forall_forall in *. intros y Hy.
      specialize (Hlt y Hy). specialize (Hrange y Hy). lia.
    + intros m Hm. rewrite Hn'. apply Hlast.
      destruct S2 as [|s' S2]; [done|]. by rewrite last_cons_cons.
  - rewrite bind_assoc, (bind_outcome (global_ranks_store _ _ _)).
    destruct (decide (0 ≤ idx < Z.of_nat (length v))) as [Hin|Hout];
      [|by rewrite global_ranks_store_out].
    rewrite global_ranks_store_in by done. rewrite bind_ret_l, Hi.
    apply (IH (P1 ++ [x]) S1 (s :: S2) (<[Z.to_nat idx := x]> v) (idx + 1) HP').
    + intros ->. cbn [length] in Hn. lia.
    + done.
    + done.
    + rewrite Hn'. apply Forall_cons. split; [lia|]. rewrite Forall_forall in *.
      intros y Hy. specialize (Hlt y Hy). specialize (Hrange y Hy). lia.
    + intros m Hm. rewrite Hn'. by apply Hlast.
Qed.

End exclusion_loop.

Lemma groups_at_eq {R} (k : Z) (w : OTF2_Writer) :
  groups_at (R:=R) k w =
  Normal tt (with_global_ranks k (global_ranks (default new_group (groups_ w !! k))) w).
Proof.
  unfold groups_at, with_global_ranks. rewrite bind_gets.
  destruct (groups_ w !! k) as [g|] eqn:Hg; [|done].
  unfold ret. f_equal. cbn. destruct g. rewrite insert_id by done. by destruct w.
Qed.

Lemma groups_at_present {R} (k : Z) (g : OTF2_MPI_Group) (w : OTF2_Writer) :
  groups_ w !! k = Some g → groups_at (R:=R) k w = Normal tt w.
Proof. intros Hg. unfold groups_at. by rewrite bind_gets, Hg. Qed.

Lemma length_resize (n : Z) (v : list Z) : 0 ≤ n → Z.of_nat (length (resize n v)) = n.
Proof.
  intros Hn. unfold resize. rewrite length_app, length_take, length_replicate. lia.
Qed.

Lemma global_ranks_resize_eq {R} (k n : Z) (v : list Z) (w : OTF2_Writer) :
  0 ≤ n →
  global_ranks_resize (R:=R) k n (with_global_ranks k v w) =
  Normal tt (with_global_ranks k (resize n v) w).
Proof.
  intros Hn. unfold global_ranks_resize. destruct (decide _); [|done].
  unfold group_update, modify, with_global_ranks. cbn.
  rewrite !lookup_insert_eq. cbn. by rewrite insert_insert_eq.
Qed.

Lemma set_insert_last (x : Z) (s : list Z) :
  Forall (λ y, y < x) s → set_insert x s = s ++ [x].
Proof.
  induction 1 as [|y s Hy _ IH]; [done|]. cbn [set_insert].
  destruct (decide (x < y)); [lia|]. destruct (decide (x = y)); [lia|].
  by rewrite IH.
Qed.

Lemma fold_set_insert_sorted (l s : list Z) :
  StronglySorted Z.lt (s ++ l) → fold_left (λ s r, set_insert r s) l s = s ++ l.
Proof.
  revert s. induction l as [|x l IH]; intros s Hs; [by rewrite app_nil_r|].
  cbn [fold_left]. rewrite set_insert_last.
  - rewrite IH; rewrite <- app_assoc; done.
  - apply StronglySorted_app in Hs as (H & _). rewrite Forall_forall. intros y Hy.
    apply (H y x Hy). by left.
Qed.

Lemma insert_loop {R} (ranks : list Z) :
  ∀ (l2 l1 s : list Z) (w : OTF2_Writer), ranks = l1 ++ l2 →
    for_loop (R:=R) (length l2) (Z.of_nat (length l1))
      (λ i s, r <- index ranks i ;; ret (set_insert r s)) s w
    = Normal (fold_left (λ s r, set_insert r s) l2 s) w.
Proof.
  induction l2 as [|r l2 IH]; intros l1 s w Hr; [done|].
  cbn [for_loop length fold_left].
  rewrite bind_assoc, (index_app _ _ _ _ Hr), !bind_ret_l.
  replace (Z.of_nat (length l1) + 1) with (Z.of_nat (length (l1 ++ [r])))
    by (rewrite length_app; cbn; lia).
  apply IH. by rewrite <- app_assoc.
Qed.

(** For strictly ascending indices of the parent, the exclusion ends
    normally with the right membership when the last parent index is among
    them (or the parent is empty), and reads past the end of the index set
    in every other case. *)
Lemma mpi_group_excl_first_pass_sorted {R} (w : OTF2_Writer)
    (start stop group count newgroup : Z) (ranks : list Z) (gp : OTF2_MPI_Group) :
  groups_ w !! group = Some gp → newgroup ≠ group →
  Z.of_nat (length (global_ranks gp)) < 2 ^ 31 →
  count = Z.of_nat (length ranks) →
  StronglySorted Z.lt ranks →
  Forall (λ r, 0 ≤ r < Z.of_nat (length (global_ranks gp))) ranks →
  (global_ranks gp = [] ∨ last ranks = Some (Z.of_nat (length (global_ranks gp)) - 1) →
   ∃ w', mpi_group_excl_first_pass (R:=R) start stop group count ranks newgroup w
           = Normal OTF2_WRITER_SUCCESS w' ∧
         global_ranks <$> groups_ w' !! newgroup
           = Some (exclude_from 0 (global_ranks gp) ranks) ∧
         groups_ w' !! group = Some gp) ∧
  (global_ranks gp ≠ [] →
   (∀ m, last ranks = Some m → m < Z.of_nat (length (global_ranks gp)) - 1) →
   mpi_group_excl_first_pass (R:=R) start stop group count ranks newgroup w = Undefined).
Proof.
  intros Hgp Hne Hsmall Hcount Hsort Hrange.
  set (P := global_ranks gp) in *.
  set (v0 := global_ranks (default new_group (groups_ w !! newgroup))).
  assert (Hbound : Z.of_nat (length ranks) ≤ Z.of_nat (length P) - 0).
  { apply sorted_length_bound; [done|done|lia]. }
  assert (Hprefix : ∀ (k : (nat * Z) → M OTF2_WRITER_RESULT OTF2_WRITER_RESULT),
    mpi_group_excl_first_pass (R:=R) start stop group count ranks newgroup w =
    call (R':=R)
      (bind (for_loop (length P) 0
         (λ i '(iter, nextInsertIndex),
            nextToAvoid <- deref ranks iter ;;
            parent <- group_ref group ;;
            nextRank <- index (global_ranks parent) i ;;
            if decide (nextToAvoid = i)
            then ret (S iter, nextInsertIndex)
            else global_ranks_store newgroup nextInsertIndex nextRank ;;
                 ret (iter, nextInsertIndex + 1))
         (O, 0)) (λ _, return_ OTF2_WRITER_SUCCESS))
      (with_global_ranks newgroup (resize (Z.of_nat (length P) - count) v0) w)).
  { intros _. unfold mpi_group_excl_first_pass, call. f_equal.
    rewrite (bind_normal _ _ _ _ _ (groups_at_present _ _ _ Hgp)).
    rewrite (bind_normal _ _ _ _ _ (groups_at_eq _ _)). fold v0.
    rewrite Hcount, Nat2Z.id.
    rewrite (bind_normal _ _ _ _ _ (insert_loop ranks ranks [] [] _ eq_refl)).
    rewrite (fold_set_insert_sorted ranks []) by done. cbn [app].
    assert (Hgp' : groups_ w !! group = Some gp) by done.
    rewrite (bind_normal _ _ _ _ _ (group_ref_other _ _ _ _ _ Hne Hgp')).
    fold P. replace (to_int (Z.of_nat (length P))) with (Z.of_nat (length P)).
    2:{ unfold to_int. rewrite Z.mod_small; lia. }
    assert (Hres : 0 ≤ Z.of_nat (length P) - Z.of_nat (length ranks)) by lia.
    rewrite (bind_normal _ _ _ _ _ (global_ranks_resize_eq _ _ v0 w Hres)).
    by rewrite Nat2Z.id. }
  rewrite (Hprefix (λ _, return_ OTF2_WRITER_SUCCESS)). clear Hprefix.
  assert (Hlen0 : Z.of_nat (length (resize (Z.of_nat (length P) - count) v0)) =
                  Z.of_nat (length ([] ++ P)) - Z.of_nat (length ([] ++ ranks))).
  { rewrite length_resize; cbn [app]; lia. }
  split.
  - intros Hok. eexists. split.
    + unfold call. rewrite bind_outcome.
      rewrite (excl_loop_ok (R:=OTF2_WRITER_RESULT) w group newgroup gp ranks Hne Hgp
                 P [] [] ranks _ 0 eq_refl eq_refl Hsort Hrange); done.
    + cbn [take app Z.to_nat length Z.of_nat].
      split; [apply with_global_ranks_lookup|].
      by rewrite with_global_ranks_lookup_ne.
  - intros Hne2 Hlast. unfold call. rewrite bind_outcome.
    by rewrite (excl_loop_undefined (R:=OTF2_WRITER_RESULT) w group newgroup gp ranks
                  Hne Hgp P [] [] ranks _ 0 eq_refl Hne2 eq_refl Hsort Hrange Hlast).
Qed.

(** ** Exclusion from a group *)

(** C7 (the code against the claim): excluding the indices 1 and 3 from
    the group with members 0,1,2,3,4 reads [*iter] at the end of the set
    once both indices are consumed, at the last parent index: the loop has
    no test against [sortedRanks.end()].  When the last parent index is
    itself excluded, as with the indices 1 and 4, the iterator is never
    read at the end and the result is the parent's membership without the
    excluded entries ([mpi_group_excl_first_pass_sorted] has the general
    statement). *)
Theorem mpi_group_excl_reads_past_the_end :
  global_ranks <$> groups_ group_writer !! 3 = Some [0; 1; 2; 3; 4] ∧
  mpi_group_excl_first_pass (R:=unit) 0 0 3 2 [1; 3] 4 group_writer = Undefined ∧
  (∃ w', mpi_group_excl_first_pass (R:=unit) 0 0 3 2 [1; 4] 4 group_writer
           = Normal OTF2_WRITER_SUCCESS w' ∧
         global_ranks <$> groups_ w' !! 4 = Some [0; 2; 3]).
Proof.
  split; [by vm_compute|]. split; [by vm_compute|].
  eexists. by vm_compute.
Qed.

(** ** The two passes of the global id agreement *)

Section agreement.
Import GlobalIds.

Lemma assigner_eta (a : global_id_assigner) :
  mk_assigner (cursor a) (next_id a) (ids a) = a.
Proof. by destruct a. Qed.

Lemma remove_add_level (a : global_id_assigner) : remove_level (add_level a) = a.
Proof. by destruct a. Qed.

Lemma agree_global_ids_comm_eq (fuel : nat) (comms : gmap Z OTF2_MPI_Comm_rec) (comm : Z)
    (a : global_id_assigner) :
  agree_global_ids_comm (S fuel) comms comm a =
  match comms !! comm with
  | Some c =>
      agree_global_ids_subs fuel comms (rec_sub_comms c)
        (if rec_is_root c then assign_current a else a)
  | None => None
  end.
Proof.
  cbn [agree_global_ids_comm]. destruct (comms !! comm) as [c|]; [|done].
  unfold agree_global_ids_subs. destruct (rec_sub_comms c) as [|sub subs]; [|done].
  cbn. by rewrite remove_add_level.
Qed.

Lemma assign_global_ids_comm_eq (fuel : nat) (comm : Z) (g : global_id_assigner)
    (comms : gmap Z OTF2_MPI_Comm_rec) (t : list Z) :
  assign_global_ids_comm (S fuel) comm g comms t =
  match comms !! comm with
  | Some c =>
      assign_global_ids_subs fuel g (rec_sub_comms c)
        (alter (set_global_id (get_id g t)) comm comms) t
  | None => None
  end.
Proof.
  cbn [assign_global_ids_comm]. destruct (comms !! comm) as [c|]; [|done].
  unfold assign_global_ids_subs. by destruct (rec_sub_comms c) as [|sub subs].
Qed.

Lemma visits_from_eq (fuel : nat) (ptrs : gmap Z (list Z)) (comm : Z) (here : list Z) :
  visits_from (S fuel) ptrs comm here =
  match ptrs !! comm with
  | Some subs =>
      match visits_below fuel ptrs here subs O with
      | Some vs => Some ((comm, here) :: vs)
      | None => None
      end
  | None => None
  end.
Proof. done. Qed.

Lemma root_coordinates_app (comms : gmap Z OTF2_MPI_Comm_rec) (v1 v2 : list (Z * list Z)) :
  root_coordinates comms (v1 ++ v2) = root_coordinates comms v1 ++ root_coordinates comms v2.
Proof. apply omap_app. Qed.

Lemma root_coordinates_cons (comms : gmap Z OTF2_MPI_Comm_rec) (comm : Z) (t : list Z)
    (vs : list (Z * list Z)) (c : OTF2_MPI_Comm_rec) :
  comms !! comm = Some c →
  root_coordinates comms ((comm, t) :: vs) =
  if rec_is_root c then t :: root_coordinates comms vs else root_coordinates comms vs.
Proof.
  intros Hc. unfold root_coordinates. cbn. rewrite Hc. by destruct (rec_is_root c).
Qed.

Lemma fold_assign_at_cursor (l : list (list Z)) (a : global_id_assigner) :
  cursor (fold_left assign_at l a) = cursor a.
Proof. revert a. induction l as [|t l IH]; intros a; [done|]. cbn. by rewrite IH. Qed.

Lemma fold_assign_at_set_cursor (l : list (list Z)) (t : list Z) (a : global_id_assigner) :
  fold_left assign_at l (set_cursor t a) = set_cursor t (fold_left assign_at l a).
Proof. revert a. induction l as [|x l IH]; intros a; [done|]. cbn. by rewrite <- IH. Qed.

(** The agree pass along the walk. *)
Lemma agree_loop_walk (fuel : nat) (comms : gmap Z OTF2_MPI_Comm_rec) :
  (∀ comm t a v, visits_from fuel (pointers comms) comm t = Some v →
     agree_global_ids_comm fuel comms comm (set_cursor t a) =
     Some (set_cursor t (fold_left assign_at (root_coordinates comms v) a))) →
  ∀ (subs : list Z) (k : nat) (t : list Z) (a : global_id_assigner) v,
    visits_below fuel (pointers comms) t subs k = Some v →
    agree_loop fuel comms subs (set_cursor (Z.of_nat k :: t) a) =
    Some (set_cursor (Z.of_nat (k + length subs) :: t)
            (fold_left assign_at (root_coordinates comms v) a)).
Proof.
  intros Hnode. induction subs as [|sub subs IH]; intros k t a v Hv.
  - injection Hv as <-. cbn. by rewrite Nat.add_0_r.
  - cbn [visits_below] in Hv.
    destruct (visits_from fuel (pointers comms) sub (child_coordinate t k)) as [v1|] eqn:H1;
      [|done].
    destruct (visits_below fuel (pointers comms) t subs (S k)) as [v2|] eqn:H2; [|done].
    injection Hv as <-. cbn [agree_loop].
    change (advance_sub_comm (set_cursor (Z.of_nat k :: t) a))
      with (set_cursor (child_coordinate t k) a).
    rewrite (Hnode _ _ _ _ H1).
    replace (child_coordinate t k) with (Z.of_nat (S k) :: t)
      by (unfold child_coordinate; f_equal; lia).
    rewrite (IH (S k) t _ v2 H2). rewrite root_coordinates_app, fold_left_app.
    do 3 f_equal. cbn [length]. lia.
Qed.

Lemma agree_comm_walk (fuel : nat) (comms : gmap Z OTF2_MPI_Comm_rec) :
  ∀ comm t a v, visits_from fuel (pointers comms) comm t = Some v →
    agree_global_ids_comm fuel comms comm (set_cursor t a) =
    Some (set_cursor t (fold_left assign_at (root_coordinates comms v) a)).
Proof.
  induction fuel as [|fuel IH]; intros comm t a v Hv; [done|].
  rewrite visits_from_eq in Hv. rewrite agree_global_ids_comm_eq.
  unfold pointers in Hv. rewrite lookup_fmap in Hv.
  destruct (comms !! comm) as [c|] eqn:Hc; [|done]. cbn in Hv.
  destruct (visits_below fuel (rec_sub_comms <$> comms) t (rec_sub_comms c) 0)
    as [vs|] eqn:Hvs; [|done].
  injection Hv as <-.
  unfold agree_global_ids_subs.
  assert (Hstart : add_level (if rec_is_root c then assign_current (set_cursor t a)
                              else set_cursor t a)
                   = set_cursor (Z.of_nat 0 :: t)
                       (if rec_is_root c then assign_at a t else a)).
  { by destruct (rec_is_root c). }
  rewrite Hstart.
  rewrite (agree_loop_walk fuel comms IH (rec_sub_comms c) 0 t _ vs Hvs).
  rewrite (root_coordinates_cons _ _ _ _ _ Hc).
  destruct (rec_is_root c); cbn; done.
Qed.

Lemma pointers_store_id (g : global_id_assigner) (comms : gmap Z OTF2_MPI_Comm_rec)
    (v : Z * list Z) :
  pointers (store_id g comms v) = pointers comms.
Proof.
  unfold pointers, store_id. apply map_eq. intros i. rewrite !lookup_fmap.
  destruct (decide (i = v.1)) as [->|Hne].
  - rewrite lookup_alter_eq. by destruct (comms !! v.1).
  - by rewrite lookup_alter_ne.
Qed.

Lemma pointers_fold_store_id (g : global_id_assigner) (vs : list (Z * list Z)) :
  ∀ comms, pointers (fold_left (store_id g) vs comms) = pointers comms.
Proof.
  induction vs as [|v vs IH]; intros comms; [done|].
  cbn [fold_left]. by rewrite IH, pointers_store_id.
Qed.

(** The assign pass along the walk; the table changes on the way, its
    pointers do not. *)
Lemma assign_loop_walk (fuel : nat) (g : global_id_assigner) (ptrs : gmap Z (list Z)) :
  (∀ comm t comms v, pointers comms = ptrs → visits_from fuel ptrs comm t = Some v →
     assign_global_ids_comm fuel comm g comms t =
     Some (fold_left (store_id g) v comms, t)) →
  ∀ (subs : list Z) (k : nat) (t : list Z) (comms : gmap Z OTF2_MPI_Comm_rec) v,
    pointers comms = ptrs → visits_below fuel ptrs t subs k = Some v →
    assign_loop fuel g subs comms (Z.of_nat k :: t) =
    Some (fold_left (store_id g) v comms, Z.of_nat (k + length subs) :: t).
Proof.
  intros Hnode. induction subs as [|sub subs IH]; intros k t comms v Hp Hv.
  - injection Hv as <-. cbn. by rewrite Nat.add_0_r.
  - cbn [visits_below] in Hv.
    destruct (visits_from fuel ptrs sub (child_coordinate t k)) as [v1|] eqn:H1; [|done].
    destruct (visits_below fuel ptrs t subs (S k)) as [v2|] eqn:H2; [|done].
    injection Hv as <-. cbn [assign_loop].
    change (tree_advance (Z.of_nat k :: t)) with (child_coordinate t k).
    rewrite (Hnode _ _ _ _ Hp H1).
    replace (child_coordinate t k) with (Z.of_nat (S k) :: t)
      by (unfold child_coordinate; f_equal; lia).
    rewrite (IH (S k) t _ v2); [| by rewrite pointers_fold_store_id | done].
    rewrite fold_left_app. do 3 f_equal. cbn [length]. lia.
Qed.

Lemma assign_comm_walk (fuel : nat) (g : global_id_assigner) (ptrs : gmap Z (list Z)) :
  ∀ comm t comms v, pointers comms = ptrs → visits_from fuel ptrs comm t = Some v →
    assign_global_ids_comm fuel comm g comms t = Some (fold_left (store_id g) v comms, t).
Proof.
  induction fuel as [|fuel IH]; intros comm t comms v Hp Hv; [done|].
  rewrite visits_from_eq in Hv. rewrite assign_global_ids_comm_eq.
  rewrite <- Hp in Hv. unfold pointers in Hv. rewrite lookup_fmap in Hv.
  destruct (comms !! comm) as [c|] eqn:Hc; [|done]. cbn in Hv.
  fold (pointers comms) in Hv. rewrite Hp in Hv.
  destruct (visits_below fuel ptrs t (rec_sub_comms c) 0) as [vs|] eqn:Hvs; [|done].
  injection Hv as <-.
  unfold assign_global_ids_subs.
  change (tree_add_level t) with (Z.of_nat 0 :: t).
  rewrite (assign_loop_walk fuel g ptrs IH (rec_sub_comms c) 0 t _ vs); [done| |done].
  rewrite <- Hp. apply (pointers_store_id g comms (comm, t)).
Qed.


(** What a record holds after the assign pass: the identifier at the
    coordinate of its last visit. *)
Lemma last_visit_snoc (key : Z) (vs : list (Z * list Z)) (v : Z * list Z) :
  last_visit key (vs ++ [v]) = if decide (v.1 = key) then Some v.2 else last_visit key vs.
Proof.
  unfold last_visit. rewrite filter_app.
  destruct (decide (v.1 = key)) as [He|Hne].
  - rewrite (filter_cons_True (λ v, v.1 = key)) by done.
    rewrite filter_nil. by rewrite last_snoc.
  - rewrite (filter_cons_False (λ v, v.1 = key)) by done.
    rewrite filter_nil. by rewrite app_nil_r.
Qed.

Lemma fold_store_id_lookup (g : global_id_assigner) (comms : gmap Z OTF2_MPI_Comm_rec)
    (key : Z) :
  ∀ vs, fold_left (store_id g) vs comms !! key =
        match last_visit key vs with
        | Some t => set_global_id (get_id g t) <$> comms !! key
        | None => comms !! key
        end.
Proof.
  induction vs as [|v vs IH] using rev_ind; [done|].
  rewrite fold_left_app, last_visit_snoc. cbn [fold_left]. unfold store_id at 1.
  destruct (decide (v.1 = key)) as [He|Hne].
  - rewrite He, lookup_alter_eq, IH.
    destruct (last_visit key vs); by destruct (comms !! key).
  - by rewrite lookup_alter_ne.
Qed.

Lemma last_visit_elem (key : Z) (t : list Z) (vs : list (Z * list Z)) :
  last_visit key vs = Some t → (key, t) ∈ vs.
Proof.
  unfold last_visit. intros H.
  destruct (last (filter (λ v, v.1 = key) vs)) as [[k t']|] eqn:Hl; [|done].
  injection H as ->. apply last_Some_elem_of in Hl.
  apply list_elem_of_filter in Hl as [Hk Hin]. cbn in Hk. by subst.
Qed.

Lemma visits_have_records (ptrs : gmap Z (list Z)) (key : Z) (t : list Z) :
  ∀ (fuel : nat),
    (∀ comm here v, visits_from fuel ptrs comm here = Some v → (key, t) ∈ v →
       is_Some (ptrs !! key)) ∧
    (∀ subs here k v, visits_below fuel ptrs here subs k = Some v → (key, t) ∈ v →
       is_Some (ptrs !! key)).
Proof.
  induction fuel as [|fuel [IHn IHb]].
  - assert (Hn : ∀ comm here v, visits_from 0 ptrs comm here = Some v → (key, t) ∈ v →
                 is_Some (ptrs !! key)) by done.
    split; [done|].
    induction subs as [|sub subs IHs]; intros here k v Hv Hin.
    + injection Hv as <-. by apply elem_of_nil in Hin.
    + done.
  - assert (Hn : ∀ comm here v, visits_from (S fuel) ptrs comm here = Some v → (key, t) ∈ v →
                 is_Some (ptrs !! key)).
    { intros comm here v Hv Hin. rewrite visits_from_eq in Hv.
      destruct (ptrs !! comm) as [subs|] eqn:Hs; [|done].
      destruct (visits_below fuel ptrs here subs 0) as [vs|] eqn:Hvs; [|done].
      injection Hv as <-. apply elem_of_cons in Hin as [Heq|Hin].
      - injection Heq as -> ->. by eexists.
      - by eapply IHb. }
    split; [done|].
    induction subs as [|sub subs IHs]; intros here k v Hv Hin.
    + injection Hv as <-. by apply elem_of_nil in Hin.
    + cbn [visits_below] in Hv.
      destruct (visits_from (S fuel) ptrs sub (child_coordinate here k)) as [v1|] eqn:H1;
        [|done].
      destruct (visits_below (S fuel) ptrs here subs (S k)) as [v2|] eqn:H2; [|done].
      injection Hv as <-. apply elem_of_app in Hin as [Hin|Hin].
      * by eapply Hn.
      * by eapply IHs.
Qed.

(** The passes of a writer. *)
Lemma comms_index_present (k : Z) (c : OTF2_MPI_Comm_rec) (w : OTF2_Writer) :
  comms_ w !! k = Some c → comms_index k w = (c, w).
Proof. intros H. unfold comms_index. by rewrite H. Qed.

Lemma comms_index_absent (k : Z) (w : OTF2_Writer) :
  comms_ w !! k = None →
  comms_index k w = (new_comm, set_comms_ (<[k := new_comm]> (comms_ w)) w).
Proof. intros H. unfold comms_index. by rewrite H. Qed.

Lemma walk_absent (fuel : nat) (w : OTF2_Writer) :
  comms_ w !! MPI_COMM_WORLD_ID = None →
  walk fuel w = Some [] ∧ walk fuel (comms_index MPI_COMM_WORLD_ID w).2 = Some [].
Proof.
  intros H. rewrite (comms_index_absent _ _ H). unfold walk. cbn.
  by rewrite H, lookup_insert_eq.
Qed.

Lemma agree_subs_walk (fuel : nat) (comms : gmap Z OTF2_MPI_Comm_rec) (subs : list Z)
    (a : global_id_assigner) (v : list (Z * list Z)) :
  visits_below fuel (pointers comms) [] subs 0 = Some v → cursor a = [] →
  agree_global_ids_subs fuel comms subs a =
  Some (fold_left assign_at (root_coordinates comms v) a).
Proof.
  intros Hv Ha. unfold agree_global_ids_subs.
  assert (Hstart : add_level a = set_cursor (Z.of_nat 0 :: []) a).
  { destruct a. cbn in *. by subst. }
  rewrite Hstart.
  rewrite (agree_loop_walk fuel comms (agree_comm_walk fuel comms) subs 0 [] a v Hv).
  f_equal. unfold remove_level, set_cursor. cbn.
  rewrite <- (fold_assign_at_cursor (root_coordinates comms v) a) in Ha.
  rewrite <- Ha. apply assigner_eta.
Qed.

Lemma agree_global_ids_walk (fuel : nat) (a : global_id_assigner) (w : OTF2_Writer)
    (v : list (Z * list Z)) :
  walk fuel w = Some v → cursor a = [] →
  agree_global_ids fuel a w =
  Some (fold_left assign_at (root_coordinates (comms_ w) v) a,
        (comms_index MPI_COMM_WORLD_ID w).2).
Proof.
  intros Hv Ha. unfold agree_global_ids.
  destruct (comms_ w !! MPI_COMM_WORLD_ID) as [c|] eqn:Hw.
  - rewrite (comms_index_present _ _ _ Hw). cbv beta iota.
    unfold walk in Hv. rewrite Hw in Hv. cbn [default] in Hv.
    by rewrite (agree_subs_walk fuel (comms_ w) (rec_sub_comms c) a v Hv Ha).
  - destruct (walk_absent fuel w Hw) as [H1 _]. rewrite H1 in Hv. injection Hv as <-.
    rewrite (comms_index_absent _ _ Hw). cbv beta iota.
    change (rec_sub_comms new_comm) with (@nil Z).
    by rewrite (agree_subs_walk fuel _ [] a [] eq_refl Ha).
Qed.

Lemma assign_subs_walk (fuel : nat) (g : global_id_assigner)
    (comms : gmap Z OTF2_MPI_Comm_rec) (subs : list Z) (v : list (Z * list Z)) :
  visits_below fuel (pointers comms) [] subs 0 = Some v →
  assign_global_ids_subs fuel g subs comms [] = Some (fold_left (store_id g) v comms, []).
Proof.
  intros Hv. unfold assign_global_ids_subs.
  change (tree_add_level []) with (Z.of_nat 0 :: []).
  by rewrite (assign_loop_walk fuel g (pointers comms)
                (assign_comm_walk fuel g (pointers comms)) subs 0 [] comms v eq_refl Hv).
Qed.

Lemma assign_global_ids_walk (fuel : nat) (g : global_id_assigner) (w : OTF2_Writer)
    (v : list (Z * list Z)) :
  walk fuel w = Some v →
  assign_global_ids fuel g w =
  Some (set_comms_ (fold_left (store_id g) v (comms_ (comms_index MPI_COMM_WORLD_ID w).2))
          (comms_index MPI_COMM_WORLD_ID w).2).
Proof.
  intros Hv. unfold assign_global_ids.
  destruct (comms_ w !! MPI_COMM_WORLD_ID) as [c|] eqn:Hw.
  - rewrite (comms_index_present _ _ _ Hw). cbv beta iota.
    unfold walk in Hv. rewrite Hw in Hv. cbn [default] in Hv.
    by rewrite (assign_subs_walk fuel g (comms_ w) (rec_sub_comms c) v Hv).
  - destruct (walk_absent fuel w Hw) as [H1 _]. rewrite H1 in Hv. injection Hv as <-.
    rewrite (comms_index_absent _ _ Hw). cbv beta iota.
    change (rec_sub_comms new_comm) with (@nil Z).
    by rewrite (assign_subs_walk fuel g _ [] [] eq_refl).
Qed.

(** Where the agree pass returns, the walk exists. *)
Lemma agree_loop_walk_inv (fuel : nat) (comms : gmap Z OTF2_MPI_Comm_rec) :
  (∀ comm t a a', agree_global_ids_comm fuel comms comm a = Some a' →
     is_Some (visits_from fuel (pointers comms) comm t)) →
  ∀ subs t k a a', agree_loop fuel comms subs a = Some a' →
    is_Some (visits_below fuel (pointers comms) t subs k).
Proof.
  intros Hnode. induction subs as [|sub subs IH]; intros t k a a' Ha; [by eexists|].
  cbn [agree_loop] in Ha.
  destruct (agree_global_ids_comm fuel comms sub (advance_sub_comm a)) as [a1|] eqn:H1;
    [|done].
  cbn [visits_below].
  destruct (Hnode _ (child_coordinate t k) _ _ H1) as [v1 ->].
  destruct (IH t (S k) _ _ Ha) as [v2 ->]. by eexists.
Qed.

Lemma agree_comm_walk_inv (fuel : nat) (comms : gmap Z OTF2_MPI_Comm_rec) :
  ∀ comm t a a', agree_global_ids_comm fuel comms comm a = Some a' →
    is_Some (visits_from fuel (pointers comms) comm t).
Proof.
  induction fuel as [|fuel IH]; intros comm t a a' Ha; [done|].
  rewrite agree_global_ids_comm_eq in Ha. rewrite visits_from_eq.
  unfold pointers at 1. rewrite lookup_fmap.
  destruct (comms !! comm) as [c|]; [|done]. cbn.
  unfold agree_global_ids_subs in Ha.
  destruct (agree_loop fuel comms (rec_sub_comms c) _) as [a1|] eqn:H1; [|done].
  destruct (agree_loop_walk_inv fuel comms IH _ t 0%nat _ _ H1) as [vs Hvs].
  fold (pointers comms). rewrite Hvs. by eexists.
Qed.

Lemma agree_global_ids_walk_inv (fuel : nat) (a a' : global_id_assigner)
    (w w' : OTF2_Writer) :
  agree_global_ids fuel a w = Some (a', w') → is_Some (walk fuel w).
Proof.
  intros Ha. destruct (comms_ w !! MPI_COMM_WORLD_ID) as [c|] eqn:Hw.
  - unfold agree_global_ids in Ha. rewrite (comms_index_present _ _ _ Hw) in Ha.
    cbv beta iota in Ha. unfold agree_global_ids_subs in Ha.
    destruct (agree_loop fuel (comms_ w) (rec_sub_comms c) (add_level a)) as [a1|] eqn:H1;
      [|done].
    unfold walk. rewrite Hw. cbn [default].
    exact (agree_loop_walk_inv fuel (comms_ w) (agree_comm_walk_inv fuel (comms_ w))
             _ [] 0%nat _ _ H1).
  - destruct (walk_absent fuel w Hw) as [-> _]. by eexists.
Qed.














End agreement.

(** * Sequences of calls *)

(** ** Pieces of callee bodies *)

Lemma steps_ret {R A} (a : A) : steps_to (R:=R) (ret a).
Proof. intros w. apply rtc_refl. Qed.

Lemma steps_gets {R A} (f : OTF2_Writer → A) : steps_to (R:=R) (gets f).
Proof. intros w. apply rtc_refl. Qed.

Lemma steps_return {R A} (r : R) : steps_to (A:=A) (return_ r).
Proof. intros w. apply rtc_refl. Qed.

Lemma steps_undefined {R A} : steps_to (R:=R) (A:=A) undefined.
Proof. intros w. exact I. Qed.

Lemma steps_abort {R A} : steps_to (R:=R) (A:=A) abort.
Proof. intros w. exact I. Qed.

Lemma steps_bind {R A B} (m : M R A) (k : A → M R B) :
  steps_to m → (∀ a, steps_to (k a)) → steps_to (bind m k).
Proof.
  intros Hm Hk w. specialize (Hm w). unfold bind.
  destruct (m w) as [a w1|r w1|msg w1| |]; try done.
  specialize (Hk a w1).
  destruct (k a w1); try done; by etrans.
Qed.

Lemma steps_call {R R'} (body : M R R) : steps_to body → steps_to (call (R':=R') body).
Proof. intros Hb w. specialize (Hb w). unfold call. by destruct (body w). Qed.

Lemma piece_call {R R'} (body : M R R) : steps_to body → piece (call (R':=R') body).
Proof. intros Hb w. specialize (Hb w). unfold call. by destruct (body w). Qed.

Lemma piece_steps {R A} (m : M R A) : piece m → steps_to m.
Proof. intros H w. specialize (H w). by destruct (m w). Qed.

Lemma steps_index {R A} (a : list A) (i : Z) : steps_to (R:=R) (index a i).
Proof.
  unfold index. destruct (decide (0 ≤ i)); [|apply steps_undefined].
  destruct (a !! Z.to_nat i); [apply steps_ret|apply steps_undefined].
Qed.

Lemma steps_for_loop {R L} (body : Z → L → M R L) :
  (∀ i l, steps_to (body i l)) → ∀ n i l, steps_to (for_loop n i body l).
Proof.
  intros Hb n. induction n as [|n IH]; intros i l; simpl.
  - apply steps_ret.
  - apply steps_bind; [apply Hb|]. intros l'. apply IH.
Qed.

Lemma steps_logger {R} level msg : steps_to (logger (R:=R) level msg).
Proof. intros w. rewrite logger_eq. apply rtc_once. constructor. Qed.

Lemma steps_record {R B} (e : event) (k : M R B) :
  is_bracket e = false → steps_to k →
  steps_to (modify (write_event e) ;; modify (add_event_count 1) ;; k).
Proof.
  intros He Hk w. unfold bind, modify. specialize (Hk (add_event_count 1 (write_event e w))).
  destruct (k _); try done; (eapply rtc_l; [by apply step_record|done]).
Qed.

Lemma counted_steps type w : rtc body_step w (counted type w).
Proof.
  unfold counted.
  destruct (type_sizes_ w !! type); [apply rtc_refl|apply rtc_once; constructor].
Qed.

Lemma steps_count_bytes {R} type count : steps_to (count_bytes (R:=R) type count).
Proof. intros w. rewrite count_bytes_eq. apply counted_steps. Qed.

Lemma steps_incomplete_send {R} r : steps_to (incomplete_call (R:=R) r REQUEST_TYPE_ISEND).
Proof. intros w. rewrite incomplete_call_eq. apply rtc_once. constructor. Qed.

Lemma piece_complete_call {R} r t : piece (complete_call (R:=R) r t).
Proof.
  intros w. destruct (request_type w !! r) as [[]|] eqn:Hr.
  - rewrite (complete_call_isend _ _ _ Hr).
    eapply rtc_l; [by apply (step_record (MpiIsendComplete t r))|].
    apply rtc_once.
    exact (step_complete_send r (add_event_count 1 (write_event (MpiIsendComplete t r) w)) Hr).
  - destruct (irecv_requests w !! r) as [cap|] eqn:Hc.
    + rewrite (complete_call_irecv _ _ _ _ Hr Hc).
      eapply rtc_l; [by apply (step_record (MpiIrecv t (source cap) (comm cap) (tag cap)
                                              (bytes_sent cap) r))|].
      apply rtc_once.
      exact (step_complete_recv r (add_event_count 1 (write_event _ w)) Hr).
    + by rewrite (complete_call_irecv_no_capture _ _ _ Hr Hc).
  - destruct (decide (r = null_request_ w)).
    + rewrite complete_call_null by done. apply rtc_refl.
    + by rewrite complete_call_unknown.
Qed.

Lemma steps_complete_call {R} r t : steps_to (complete_call (R:=R) r t).
Proof. apply piece_steps, piece_complete_call. Qed.

Lemma piece_mpi_isend_inner {R} start type count dest comm tag request :
  piece (mpi_isend_inner (R:=R) start type count dest comm tag request).
Proof.
  apply piece_call. apply steps_bind; [apply steps_incomplete_send|]. intros _.
  apply steps_bind; [apply steps_count_bytes|]. intros bytes.
  apply steps_record; [done|apply steps_return].
Qed.

Lemma steps_mpi_isend_inner {R} start type count dest comm tag request :
  steps_to (mpi_isend_inner (R:=R) start type count dest comm tag request).
Proof. apply piece_steps, piece_mpi_isend_inner. Qed.

Lemma piece_type_is_known {R} type :
  piece (type_is_known (R:=R) type).
Proof.
  apply piece_call. apply steps_bind; [apply steps_gets|]. intros sizes.
  destruct (sizes !! type); [apply steps_return|].
  apply steps_bind; [apply steps_logger|]. intros _. apply steps_return.
Qed.

Lemma steps_type_is_known {R} type :
  steps_to (type_is_known (R:=R) type).
Proof. apply piece_steps, piece_type_is_known. Qed.

Lemma steps_type_sizes_assign {R} to_size newtype value :
  steps_to (type_sizes_assign (R:=R) to_size newtype value).
Proof. intros w. apply rtc_once. apply step_type. Qed.

Lemma steps_int_add {R} a b : steps_to (int_add (R:=R) a b).
Proof. unfold int_add. destruct (decide _); [apply steps_ret|apply steps_undefined]. Qed.

Lemma piece_array_sum {R} t n :
  piece (array_sum (R:=R) t n).
Proof.
  apply piece_call. apply steps_bind; [|intros; apply steps_return].
  apply steps_for_loop. intros i l. apply steps_bind; [apply steps_index|].
  intros x. apply steps_int_add.
Qed.

Lemma steps_array_sum {R} t n :
  steps_to (array_sum (R:=R) t n).
Proof. apply piece_steps, piece_array_sum. Qed.

Lemma steps_unless_known {R} (known : bool) level msg (r : R) :
  steps_to (if known then ret tt else logger level msg ;; return_ r).
Proof.
  destruct known; [apply steps_ret|].
  apply steps_bind; [apply steps_logger|]. intros _. apply steps_return.
Qed.

Lemma piece_mpi_t_vector_inner {R} to_size fname count blocklength oldtype newtype :
  piece (mpi_t_vector_inner (R:=R) to_size fname count blocklength oldtype newtype).
Proof.
  apply piece_call. apply steps_bind; [apply steps_type_is_known|]. intros known.
  apply steps_bind; [apply steps_unless_known|]. intros _.
  apply steps_bind; [apply steps_count_bytes|]. intros bytes.
  apply steps_type_sizes_assign.
Qed.

Lemma steps_mpi_t_vector_inner {R} to_size fname count blocklength oldtype newtype :
  steps_to (mpi_t_vector_inner (R:=R) to_size fname count blocklength oldtype newtype).
Proof. apply piece_steps, piece_mpi_t_vector_inner. Qed.

Lemma piece_mpi_t_indexed_inner {R} to_size name count lengths oldtype newtype :
  piece (mpi_t_indexed_inner (R:=R) to_size name count lengths oldtype newtype).
Proof.
  apply piece_call. apply steps_bind; [apply steps_type_is_known|]. intros known.
  apply steps_bind; [apply steps_unless_known|]. intros _.
  apply steps_bind; [apply steps_array_sum|]. intros total.
  apply steps_bind; [apply steps_count_bytes|]. intros bytes.
  apply steps_type_sizes_assign.
Qed.

Lemma steps_mpi_t_indexed_inner {R} to_size name count lengths oldtype newtype :
  steps_to (mpi_t_indexed_inner (R:=R) to_size name count lengths oldtype newtype).
Proof. apply piece_steps, piece_mpi_t_indexed_inner. Qed.

Lemma piece_mpi_t_struct_inner {R} to_size fname count blocklengths oldtypes newtype :
  piece (mpi_t_struct_inner (R:=R) to_size fname count blocklengths oldtypes newtype).
Proof.
  apply piece_call. apply steps_bind; [|intros; apply steps_type_sizes_assign].
  apply steps_for_loop. intros i sum.
  apply steps_bind; [apply steps_index|]. intros oldtype.
  apply steps_bind; [apply steps_type_is_known|]. intros known.
  apply steps_bind; [apply steps_unless_known|]. intros _.
  apply steps_bind; [apply steps_index|]. intros blocklength.
  apply steps_bind; [apply steps_count_bytes|]. intros bytes.
  apply steps_ret.
Qed.

Lemma steps_mpi_t_struct_inner {R} to_size fname count blocklengths oldtypes newtype :
  steps_to (mpi_t_struct_inner (R:=R) to_size fname count blocklengths oldtypes newtype).
Proof. apply piece_steps, piece_mpi_t_struct_inner. Qed.

(** ** Pieces of the bodies of the traced functions *)

Lemma piece_ret {R A} (a : A) : piece (R:=R) (ret a).
Proof. intros w. apply rtc_refl. Qed.

Lemma piece_gets {R A} (f : OTF2_Writer → A) : piece (R:=R) (gets f).
Proof. intros w. apply rtc_refl. Qed.

Lemma piece_bind {R A B} (m : M R A) (k : A → M R B) :
  piece m → (∀ a, piece (k a)) → piece (bind m k).
Proof.
  intros Hm Hk w. specialize (Hm w). unfold bind.
  destruct (m w) as [a w1|r w1|msg w1| |]; try done.
  specialize (Hk a w1).
  destruct (k a w1); try done; by etrans.
Qed.

Lemma piece_index {R A} (a : list A) (i : Z) : piece (R:=R) (index a i).
Proof.
  unfold index. destruct (decide (0 ≤ i)); [|done].
  destruct (a !! Z.to_nat i); [apply piece_ret|done].
Qed.

Lemma piece_for_loop {R L} (body : Z → L → M R L) :
  (∀ i l, piece (body i l)) → ∀ n i l, piece (for_loop n i body l).
Proof.
  intros Hb n. induction n as [|n IH]; intros i l; simpl.
  - apply piece_ret.
  - apply piece_bind; [apply Hb|]. intros l'. apply IH.
Qed.


(** ** The shape of a traced call *)

Lemma leaves_LEAVE {A} stop reg : leaves (A:=A) stop reg (_LEAVE stop reg).
Proof. intros w. rewrite LEAVE_eq. exists w. split; [apply rtc_refl|by left]. Qed.

Lemma leaves_bind {A B} stop reg (m : M OTF2_WRITER_RESULT A)
    (k : A → M OTF2_WRITER_RESULT B) :
  piece m → (∀ a, leaves stop reg (k a)) → leaves stop reg (bind m k).
Proof.
  intros Hm Hk w. specialize (Hm w). unfold bind.
  destruct (m w) as [a w1|r w1|msg w1| |]; try done.
  specialize (Hk a w1).
  destruct (k a w1) as [|res w2| | |]; try done.
  destruct Hk as (w3 & H3 & Hres). exists w3. split; [by etrans|done].
Qed.

Lemma leaves_unless_known {B} stop reg (known : bool) msg (k : M OTF2_WRITER_RESULT B) :
  leaves stop reg k →
  leaves stop reg
    ((if known then ret tt
      else logger OWV_ERROR msg ;; return_ OTF2_WRITER_ERROR_UKNOWN_MPI_TYPE) ;; k).
Proof.
  intros Hk w. destruct known; [exact (Hk w)|].
  unfold bind at 1. unfold bind at 1. rewrite logger_eq. unfold return_.
  exists (logged OWV_ERROR msg w). split; [apply rtc_once; constructor|by right].
Qed.

Lemma traced_call {R} name start stop (k : Z → M OTF2_WRITER_RESULT OTF2_WRITER_RESULT) :
  (∀ reg, leaves stop reg (k reg)) →
  traced (R:=R) name start stop (call (this_region <- _ENTER name start stop ;; k this_region)).
Proof.
  intros Hk w. unfold call. rewrite (bind_normal _ _ _ _ _ (ENTER_eq _ _ _ _)).
  specialize (Hk (region_id name w) (entered name start stop w)).
  by destruct (k _ _).
Qed.

Lemma mpi_comm_group_eq {R} (w : OTF2_Writer) (start stop comm group : Z) :
  mpi_comm_group (R:=R) start stop comm group w =
  Normal OTF2_WRITER_SUCCESS
    (left stop (region_id "MPI_Comm_group" w) (entered "MPI_Comm_group" start stop w)).
Proof.
  unfold mpi_comm_group, call. enter.
  by rewrite bind_outcome, LEAVE_eq.
Qed.

Lemma piece_count_bytes {R} type count : piece (count_bytes (R:=R) type count).
Proof. intros w. rewrite count_bytes_eq. apply counted_steps. Qed.

Lemma piece_type_sizes_assign {R} to_size newtype value :
  piece (type_sizes_assign (R:=R) to_size newtype value).
Proof. intros w. apply rtc_once. apply step_type. Qed.

Lemma piece_if {R A} (P : Prop) `{Decision P} (m1 m2 : M R A) :
  piece m1 → piece m2 → piece (if decide P then m1 else m2).
Proof. by destruct (decide P). Qed.

Lemma piece_if_bool {R A} (b : bool) (m1 m2 : M R A) :
  piece m1 → piece m2 → piece (if b then m1 else m2).
Proof. by destruct b. Qed.

Ltac a_piece :=
  repeat first
    [ apply piece_ret | apply piece_gets | apply piece_index
    | apply piece_complete_call | apply piece_mpi_isend_inner
    | apply piece_type_is_known | apply piece_count_bytes | apply piece_array_sum
    | apply piece_type_sizes_assign | apply piece_mpi_t_vector_inner
    | apply piece_mpi_t_indexed_inner | apply piece_mpi_t_struct_inner
    | apply piece_if | apply piece_if_bool
    | apply piece_for_loop; intros ? ?
    | apply piece_bind; [|intros ?] ].

Ltac traced_bracket :=
  apply traced_call; intros reg;
  repeat first
    [ apply leaves_LEAVE
    | apply leaves_unless_known
    | apply leaves_bind; [a_piece|intros ?] ].

Lemma perform_traced {R} to_size (start stop : Z) (c : mpi_call) :
  traced (R:=R) (call_name c) start stop (perform to_size start stop c).
Proof.
  destruct c; simpl.
  all: try (traced_bracket; fail).
  - intros w. rewrite mpi_irecv_eq. eexists. split; [|by left]. cbv zeta.
    etrans; [apply (counted_steps type)|].
    eapply rtc_l; [apply step_post_recv|].
    apply rtc_once. by apply step_record.
  - intros w. rewrite mpi_bcast_eq. eexists. split; [|by left].
    etrans; [apply (counted_steps type)|].
    apply rtc_once. by apply step_collective.
Qed.

Lemma perform_outcome {R} to_size (start stop : Z) (c : mpi_call) (w : OTF2_Writer) :
  (∃ res w' w1, perform (R:=R) to_size start stop c w = Normal res w' ∧
     rtc body_step (entered (call_name c) start stop w) w1 ∧
     (res = OTF2_WRITER_SUCCESS ∧ w' = left stop (region_id (call_name c) w) w1 ∨
      res = OTF2_WRITER_ERROR_UKNOWN_MPI_TYPE ∧ w' = w1)) ∨
  perform (R:=R) to_size start stop c w = Aborted ∨
  perform (R:=R) to_size start stop c w = Undefined.
Proof.
  pose proof (perform_traced (R:=R) to_size start stop c w) as H.
  destruct (perform to_size start stop c w) as [res w'| | | |]; try done; auto.
  destruct H as (w1 & H1 & H2). left. by exists res, w', w1.
Qed.

(** ** Invariants of call sequences *)

Section invariants.

Variable P : OTF2_Writer → OTF2_Writer → Prop.
Hypothesis P_refl : ∀ w, P w w.
Hypothesis P_trans : ∀ w1 w2 w3, P w1 w2 → P w2 w3 → P w1 w3.
Hypothesis P_step : ∀ w w', body_step w w' → P w w'.

Lemma body_steps_inv (w w' : OTF2_Writer) : rtc body_step w w' → P w w'.
Proof. induction 1 as [|w1 w2 w3 H12 _ IH]; [apply P_refl|]. eapply P_trans; eauto. Qed.

Hypothesis P_entered : ∀ name start stop w, P w (entered name start stop w).
Hypothesis P_left : ∀ stop reg w, P w (left stop reg w).

Lemma perform_inv {R} to_size (start stop : Z) (c : mpi_call) (w w' : OTF2_Writer) res :
  perform (R:=R) to_size start stop c w = Normal res w' → P w w'.
Proof.
  intros H. destruct (perform_outcome (R:=R) to_size start stop c w)
    as [(res' & w'' & w1 & Heq & Hsteps & Hres)|[Heq|Heq]]; rewrite Heq in H; try done.
  injection H as -> ->.
  eapply P_trans; [apply P_entered|].
  eapply P_trans; [apply (body_steps_inv _ _ Hsteps)|].
  destruct Hres as [[_ ->]|[_ ->]]; [apply P_left|apply P_refl].
Qed.

Lemma replay_inv {R} to_size (calls : list (Z * Z * mpi_call)) :
  ∀ (w w' : OTF2_Writer) results,
    replay (R:=R) to_size calls w = Normal results w' → P w w'.
Proof.
  induction calls as [|[[start stop] c] calls IH]; intros w w' results H; simpl in H.
  - injection H as _ <-. apply P_refl.
  - rewrite bind_outcome in H.
    destruct (perform to_size start stop c w) as [res w1| | | |] eqn:Hc; try done.
    rewrite bind_outcome in H.
    destruct (replay to_size calls w1) as [rest w2| | | |] eqn:Hr; try done.
    injection H as _ <-.
    eapply P_trans; [exact (perform_inv _ _ _ _ _ _ _ Hc)|exact (IH _ _ _ Hr)].
Qed.

End invariants.

Ltac step_cases H :=
  inversion H; subst; clear H;
  repeat match goal with
         | |- context [logged ?l ?m ?w] =>
             let F := fresh in
             pose proof (logged_fields l m w) as F; destruct_and! F;
             generalize dependent (logged l m w); intros
         | |- context [posted ?r ?t ?w] =>
             unfold posted; destruct (decide (r ≠ null_request_ w))
         end.

(** X1: whatever sequence of traced calls is made, the writer's world,
    verbosity, null request, communicator table and group table stay as
    they were: the trace pass of the group and communicator calls does no
    bookkeeping at all. *)
Theorem replay_keeps_registrations {R} (to_size : Z → Z) (calls : list (Z * Z * mpi_call))
    (w w' : OTF2_Writer) (results : list OTF2_WRITER_RESULT) :
  replay (R:=R) to_size calls w = Normal results w' →
  world_ w' = world_ w ∧ verbosity_ w' = verbosity_ w ∧
  null_request_ w' = null_request_ w ∧ comms_ w' = comms_ w ∧ groups_ w' = groups_ w.
Proof.
  apply (replay_inv (λ w w', world_ w' = world_ w ∧ verbosity_ w' = verbosity_ w ∧
           null_request_ w' = null_request_ w ∧ comms_ w' = comms_ w ∧
           groups_ w' = groups_ w)).
  - done.
  - intros w1 w2 w3 (?&?&?&?&?) (?&?&?&?&?). repeat split; congruence.
  - intros w1 w2 H. step_cases H; simpl; try done.
  - intros name start stop w1. unfold entered. simpl.
    pose proof (logged_fields OWV_INFO name w1) as F. destruct_and! F. done.
  - done.
Qed.

Lemma replay_keeps_registrations_witness :
  ∃ results w',
    replay (R:=unit) id example_calls example_writer = Normal results w' ∧
    null_request_ w' = -1 ∧ comms_ w' = ∅ ∧ groups_ w' = ∅.
Proof.
  eexists _, _. split; [vm_compute; reflexivity|].
  destruct (replay_keeps_registrations (R:=unit) id example_calls example_writer _ _
              ltac:(vm_compute; reflexivity)) as (_ & _ & Hn & Hc & Hg).
  exact (conj Hn (conj Hc Hg)).
Defined.

(** X2: a sequence of traced calls only appends to the trace, and the
    event counter grows by exactly the number of records appended,
    whichever calls are made and whether or not they report an error. *)
Theorem replay_counts_every_record {R} (to_size : Z → Z) (calls : list (Z * Z * mpi_call))
    (w w' : OTF2_Writer) (results : list OTF2_WRITER_RESULT) :
  replay (R:=R) to_size calls w = Normal results w' →
  ∃ records, evt_writer w' = evt_writer w ++ records ∧
             event_count_ w' = event_count_ w + Z.of_nat (length records).
Proof.
  apply (replay_inv (λ w w', ∃ records, evt_writer w' = evt_writer w ++ records ∧
           event_count_ w' = event_count_ w + Z.of_nat (length records))).
  - intros w1. exists []. by rewrite app_nil_r, Z.add_0_r.
  - intros w1 w2 w3 (r1 & H1 & H1') (r2 & H2 & H2'). exists (r1 ++ r2).
    rewrite H2, H1, H2', H1', length_app, <- (assoc_L (++)). split; [done|lia].
  - intros w1 w2 H. step_cases H; simpl;
      first [ by exists []; rewrite app_nil_r, Z.add_0_r
            | by eexists [_]
            | exists []; rewrite app_nil_r, Z.add_0_r; split; congruence
            | rewrite <- (assoc_L (++)); by eexists [_; _] ].
  - intros name start stop w1. unfold entered. simpl.
    pose proof (logged_fields OWV_INFO name w1) as F. destruct_and! F.
    eexists [_]. split; [by f_equal|]. simpl. lia.
  - intros stop reg w1. by eexists [_].
Qed.

Lemma replay_counts_every_record_witness :
  ∃ results w',
    replay (R:=unit) id example_calls example_writer = Normal results w' ∧
    event_count_ w' = Z.of_nat (length (evt_writer w')).
Proof.
  eexists _, _. split; [vm_compute; reflexivity|].
  destruct (replay_counts_every_record (R:=unit) id example_calls example_writer _ _
              ltac:(vm_compute; reflexivity)) as (records & Ht & Hc).
  rewrite Hc, Ht. reflexivity.
Defined.

(** X3: with the verbosity [OWV_NONE], as the constructor leaves it, no
    sequence of traced calls prints a line, not even for an unknown
    datatype. *)
Theorem replay_is_silent {R} (to_size : Z → Z) (calls : list (Z * Z * mpi_call))
    (w w' : OTF2_Writer) (results : list OTF2_WRITER_RESULT) :
  verbosity_ w = OWV_NONE →
  replay (R:=R) to_size calls w = Normal results w' →
  stdout w' = stdout w.
Proof.
  intros Hv Hr.
  cut (verbosity_ w' = verbosity_ w ∧ (verbosity_ w = OWV_NONE → stdout w' = stdout w)).
  { intros [_ H]. by apply H. }
  revert Hr. clear Hv.
  assert (Hlog : ∀ level msg w1,
            verbosity_ (logged level msg w1) = verbosity_ w1 ∧
            (verbosity_ w1 = OWV_NONE → stdout (logged level msg w1) = stdout w1)).
  { intros level msg w1. split; [apply logged_fields|]. intros Hv. unfold logged.
    rewrite Hv. rewrite (bool_decide_eq_false_2 (OWV_NONE ≠ OWV_NONE)) by (intros H; by apply H).
    by rewrite andb_false_r. }
  apply (replay_inv (λ w w', verbosity_ w' = verbosity_ w ∧
           (verbosity_ w = OWV_NONE → stdout w' = stdout w))).
  - done.
  - intros w1 w2 w3 [H1 H1'] [H2 H2']. split; [congruence|].
    intros Hv. rewrite H2', H1'; congruence.
  - intros w1 w2 H. inversion H; subst; clear H; try apply Hlog;
      unfold posted; try destruct (decide _); simpl; done.
  - intros name start stop w1. unfold entered. simpl. apply Hlog.
  - done.
Qed.

Lemma replay_is_silent_witness :
  ∃ results w',
    replay (R:=unit) id ((5, 6, Call_mpi_isend 99 1 0 0 0 7) :: example_calls) example_writer
      = Normal results w' ∧
    stdout w' = [].
Proof.
  eexists _, _. split; [vm_compute; reflexivity|].
  exact (replay_is_silent (R:=unit) id
           ((5, 6, Call_mpi_isend 99 1 0 0 0 7) :: example_calls) example_writer _ _ eq_refl
           ltac:(vm_compute; reflexivity)).
Defined.

(** X4: a datatype whose size the writer knows stays known over every
    sequence of traced calls: the calls add or overwrite sizes and never
    remove one. *)
Theorem replay_keeps_types_known {R} (to_size : Z → Z) (calls : list (Z * Z * mpi_call))
    (w w' : OTF2_Writer) (results : list OTF2_WRITER_RESULT) (type : Z) :
  replay (R:=R) to_size calls w = Normal results w' →
  is_Some (type_sizes_ w !! type) → is_Some (type_sizes_ w' !! type).
Proof.
  apply (replay_inv (λ w w', is_Some (type_sizes_ w !! type) →
                             is_Some (type_sizes_ w' !! type))).
  - done.
  - auto.
  - intros w1 w2 H. step_cases H; simpl; try done; try congruence.
    intros Hk. destruct (decide (k = type)) as [->|Hne].
    + rewrite lookup_insert_eq. by eexists.
    + by rewrite lookup_insert_ne.
  - intros name start stop w1. unfold entered. simpl.
    pose proof (logged_fields OWV_INFO name w1) as F. destruct_and! F. congruence.
  - done.
Qed.

Lemma replay_keeps_types_known_witness :
  ∃ results w',
    replay (R:=unit) id example_calls example_writer = Normal results w' ∧
    is_Some (type_sizes_ w' !! 11).
Proof.
  eexists _, _. split; [vm_compute; reflexivity|].
  apply (replay_keeps_types_known (R:=unit) id example_calls example_writer _ _ 11
           ltac:(vm_compute; reflexivity)).
  by eexists.
Defined.

Lemma complete_call_consistent {R} (r t : Z) (w : OTF2_Writer) :
  tracker_consistent w →
  complete_call (R:=R) r t w = Aborted ∨ ∃ w', complete_call (R:=R) r t w = Normal tt w'.
Proof.
  intros Hc. destruct (request_type w !! r) as [[]|] eqn:Hr.
  - right. eexists. by apply complete_call_isend.
  - destruct (Hc r Hr) as [cap Hcap]. right. eexists. by eapply complete_call_irecv.
  - destruct (decide (r = null_request_ w)).
    + right. eexists. by apply complete_call_null.
    + left. by apply complete_call_unknown.
Qed.

(** X5: over every sequence of traced calls the request tracker keeps its
    two tables in step: a pending receive always has its payload stored and
    the null request is never pending.  So a completion after any such
    sequence never reads the payload through the end iterator: it succeeds
    or it aborts on an id that is not pending. *)
Theorem replay_keeps_tracker_consistent {R} (to_size : Z → Z)
    (calls : list (Z * Z * mpi_call)) (w w' : OTF2_Writer)
    (results : list OTF2_WRITER_RESULT) :
  tracker_consistent w → request_type w !! null_request_ w = None →
  replay (R:=R) to_size calls w = Normal results w' →
  tracker_consistent w' ∧ request_type w' !! null_request_ w' = None ∧
  ∀ request timestamp,
    complete_call (R:=R) request timestamp w' = Aborted ∨
    ∃ w'', complete_call (R:=R) request timestamp w' = Normal tt w''.
Proof.
  intros Hc Hn Hr.
  cut (tracker_consistent w' ∧ request_type w' !! null_request_ w' = None).
  { intros [H1 H2]. split; [done|]. split; [done|].
    intros r t. by apply complete_call_consistent. }
  revert Hc Hn. revert Hr.
  apply (replay_inv (λ w w',
    tracker_consistent w → request_type w !! null_request_ w = None →
    tracker_consistent w' ∧ request_type w' !! null_request_ w' = None)).
  - done.
  - intros w1 w2 w3 H1 H2 Hc Hn. destruct (H1 Hc Hn). by apply H2.
  - intros w1 w2 H Hc Hn. unfold tracker_consistent in *.
    inversion H; subst; clear H.
    + pose proof (logged_fields level msg w1) as F. destruct_and! F.
      split; [intros r|]; repeat match goal with E : _ (logged _ _ _) = _ |- _ =>
                                   rewrite E; clear E end; [apply Hc|done].
    + done.
    + done.
    + split; [|by apply posted_keeps_null_untracked].
      unfold posted. destruct (decide _); simpl; [|done].
      intros r'. destruct (decide (r = r')) as [->|Hne].
      * by rewrite lookup_insert_eq.
      * rewrite lookup_insert_ne by done. apply Hc.
    + split.
      * unfold posted. destruct (decide _); simpl.
        -- intros r'. destruct (decide (r = r')) as [->|Hne].
           ++ rewrite !lookup_insert_eq. by eexists.
           ++ rewrite !lookup_insert_ne by done. apply Hc.
        -- intros r'. destruct (decide (r = r')) as [->|Hne].
           ++ rewrite lookup_insert_eq. by eexists.
           ++ rewrite lookup_insert_ne by done. apply Hc.
      * unfold posted. simpl. destruct (decide _) as [Hne|]; simpl; [|done].
        by rewrite lookup_insert_ne.
    + simpl. split.
      * intros r'. destruct (decide (r = r')) as [->|Hne].
        -- by rewrite lookup_delete_eq.
        -- rewrite lookup_delete_ne by done. apply Hc.
      * destruct (decide (r = null_request_ w1)) as [->|Hne].
        -- by rewrite lookup_delete_eq.
        -- by rewrite lookup_delete_ne.
    + simpl. split.
      * intros r'. destruct (decide (r = r')) as [->|Hne].
        -- by rewrite lookup_delete_eq.
        -- rewrite !lookup_delete_ne by done. apply Hc.
      * destruct (decide (r = null_request_ w1)) as [->|Hne].
        -- by rewrite lookup_delete_eq.
        -- by rewrite lookup_delete_ne.
    + done.
  - intros name start stop w1 Hc Hn. split; [by apply entered_consistent|].
    pose proof (entered_fields name start stop w1) as F. destruct_and! F. congruence.
  - done.
Qed.

Lemma replay_keeps_tracker_consistent_witness :
  ∃ results w',
    replay (R:=unit) id example_calls example_writer = Normal results w' ∧
    tracker_consistent w' ∧
    complete_call (R:=unit) 5 110 w' = Aborted.
Proof.
  eexists _, _. split; [vm_compute; reflexivity|].
  destruct (replay_keeps_tracker_consistent (R:=unit) id example_calls example_writer _ _
              example_writer_consistent eq_refl ltac:(vm_compute; reflexivity))
    as (Hc & _ & _).
  split; [exact Hc|]. vm_compute. reflexivity.
Defined.

Lemma perform_times {R} to_size (start stop : Z) (c : mpi_call) (w w' : OTF2_Writer) res :
  perform (R:=R) to_size start stop c w = Normal res w' →
  start_time_ w' = Z.min (start_time_ w) start ∧ stop_time_ w' = Z.max (stop_time_ w) stop.
Proof.
  intros H. destruct (perform_outcome (R:=R) to_size start stop c w)
    as [(res' & w'' & w1 & Heq & Hsteps & Hres)|[Heq|Heq]]; rewrite Heq in H; try done.
  injection H as -> ->.
  assert (start_time_ w1 = start_time_ (entered (call_name c) start stop w) ∧
          stop_time_ w1 = stop_time_ (entered (call_name c) start stop w)) as [H1 H2].
  { revert Hsteps. apply (body_steps_inv (λ w w', start_time_ w' = start_time_ w ∧
                                                   stop_time_ w' = stop_time_ w)).
    - done.
    - intros ? ? ? [? ?] [? ?]. split; congruence.
    - intros wa wb H. step_cases H; simpl; done. }
  destruct Hres as [[_ ->]|[_ ->]]; simpl; rewrite ?H1, ?H2; done.
Qed.

(** X6: after a sequence of traced calls the writer's start time is the
    least of its former start time and the start times of the calls, and
    its stop time the greatest of its former stop time and their stop
    times; a call that reports an error counts like any other. *)
Theorem replay_spans_every_call {R} (to_size : Z → Z) (calls : list (Z * Z * mpi_call))
    (w w' : OTF2_Writer) (results : list OTF2_WRITER_RESULT) :
  replay (R:=R) to_size calls w = Normal results w' →
  start_time_ w' = fold_left Z.min (map (λ c, c.1.1) calls) (start_time_ w) ∧
  stop_time_ w' = fold_left Z.max (map (λ c, c.1.2) calls) (stop_time_ w).
Proof.
  revert w results. induction calls as [|[[start stop] c] calls IH]; intros w results H;
    simpl in H.
  - by injection H as _ <-.
  - rewrite bind_outcome in H.
    destruct (perform to_size start stop c w) as [res w1| | | |] eqn:Hc; try done.
    rewrite bind_outcome in H.
    destruct (replay to_size calls w1) as [rest w2| | | |] eqn:Hr; try done.
    injection H as _ <-.
    destruct (perform_times _ _ _ _ _ _ _ Hc) as [H1 H2].
    destruct (IH _ _ Hr) as [H3 H4]. simpl. by rewrite H3, H4, H1, H2.
Qed.

Lemma replay_spans_every_call_witness :
  ∃ results w',
    replay (R:=unit) id example_calls example_writer = Normal results w' ∧
    start_time_ w' = 10 ∧ stop_time_ w' = 100.
Proof.
  eexists _, _. split; [vm_compute; reflexivity|].
  exact (replay_spans_every_call (R:=unit) id example_calls example_writer _ _
           ltac:(vm_compute; reflexivity)).
Defined.

(** ** The bracket structure *)

Lemma body_steps_trace (w w' : OTF2_Writer) :
  rtc body_step w w' →
  ∃ body, evt_writer w' = evt_writer w ++ body ∧ Forall (λ e, is_bracket e = false) body.
Proof.
  apply (body_steps_inv (λ w w', ∃ body, evt_writer w' = evt_writer w ++ body ∧
                                   Forall (λ e, is_bracket e = false) body)).
  - intros w1. exists []. by rewrite app_nil_r.
  - intros w1 w2 w3 (b1 & H1 & F1) (b2 & H2 & F2). exists (b1 ++ b2).
    rewrite H2, H1, <- (assoc_L (++)). split; [done|by apply Forall_app].
  - intros w1 w2 H. step_cases H; simpl;
      first [ by exists []; rewrite app_nil_r
            | exists []; rewrite app_nil_r; split; [congruence|done]
            | eexists [_]; split; [done|by repeat constructor]
            | rewrite <- (assoc_L (++)); eexists [_; _];
              split; [done|by repeat constructor] ].
Qed.

Lemma perform_segment {R} to_size (start stop : Z) (c : mpi_call) (w w' : OTF2_Writer) res :
  perform (R:=R) to_size start stop c w = Normal res w' →
  ∃ body, Forall (λ e, is_bracket e = false) body ∧
    (res = OTF2_WRITER_SUCCESS ∧
     evt_writer w' = evt_writer w ++
       Enter start (region_id (call_name c) w) :: body ++
       [Leave stop (region_id (call_name c) w)] ∨
     res = OTF2_WRITER_ERROR_UKNOWN_MPI_TYPE ∧
     evt_writer w' = evt_writer w ++ Enter start (region_id (call_name c) w) :: body).
Proof.
  intros H. destruct (perform_outcome (R:=R) to_size start stop c w)
    as [(res' & w'' & w1 & Heq & Hsteps & Hres)|[Heq|Heq]]; rewrite Heq in H; try done.
  injection H as -> ->.
  destruct (body_steps_trace _ _ Hsteps) as (body & Ht & Hb). exists body. split; [done|].
  pose proof (entered_fields (call_name c) start stop w) as F. destruct_and! F.
  destruct Hres as [[-> ->]|[-> ->]]; [left|right]; (split; [done|]); simpl.
  - rewrite Ht. rewrite H3. by rewrite <- !(assoc_L (++)).
  - rewrite Ht. rewrite H3. by rewrite <- !(assoc_L (++)).
Qed.

Lemma bracket_scan_body (reg : Z) (body : list event) :
  Forall (λ e, is_bracket e = false) body → fold_left bracket_step body (Open reg) = Open reg.
Proof.
  induction 1 as [|e body He _ IH]; [done|]. simpl.
  destruct e; try done; exact IH.
Qed.

Lemma bracket_scan_broken (trace : list event) : fold_left bracket_step trace Broken = Broken.
Proof. by induction trace. Qed.

Lemma bracket_scan_segment (trace body : list event) (start stop reg : Z) :
  bracket_scan trace = Closed → Forall (λ e, is_bracket e = false) body →
  bracket_scan (trace ++ Enter start reg :: body) = Open reg ∧
  bracket_scan (trace ++ Enter start reg :: body ++ [Leave stop reg]) = Closed.
Proof.
  intros Ht Hb. unfold bracket_scan in *.
  rewrite !fold_left_app, Ht. simpl. rewrite fold_left_app, bracket_scan_body by done.
  simpl. by rewrite decide_True.
Qed.

(** X7: when the trace is well bracketed before a sequence of traced calls
    and every call reports success, the trace is well bracketed after it:
    each call has written one enter record, then records that are neither
    enter nor leave, then the leave record of the region it entered, and
    no region is entered inside another. *)
Theorem replay_is_well_bracketed {R} (to_size : Z → Z) (calls : list (Z * Z * mpi_call))
    (w w' : OTF2_Writer) (results : list OTF2_WRITER_RESULT) :
  bracket_scan (evt_writer w) = Closed →
  replay (R:=R) to_size calls w = Normal results w' →
  Forall (λ res, res = OTF2_WRITER_SUCCESS) results →
  bracket_scan (evt_writer w') = Closed.
Proof.
  revert w results. induction calls as [|[[start stop] c] calls IH];
    intros w results Hw H Hres; simpl in H.
  - by injection H as _ <-.
  - rewrite bind_outcome in H.
    destruct (perform to_size start stop c w) as [res w1| | | |] eqn:Hc; try done.
    rewrite bind_outcome in H.
    destruct (replay to_size calls w1) as [rest w2| | | |] eqn:Hr; try done.
    injection H as <- <-.
    apply Forall_cons in Hres as [-> Hrest].
    apply (IH w1 rest); [|done|done].
    destruct (perform_segment _ _ _ _ _ _ _ Hc) as (body & Hb & [[_ Ht]|[? _]]); [|done].
    rewrite Ht. by apply bracket_scan_segment.
Qed.

Lemma replay_is_well_bracketed_witness :
  ∃ results w',
    replay (R:=unit) id example_calls example_writer = Normal results w' ∧
    bracket_scan (evt_writer w') = Closed.
Proof.
  eexists _, _. split; [vm_compute; reflexivity|].
  apply (replay_is_well_bracketed (R:=unit) id example_calls example_writer _ _ eq_refl
           ltac:(vm_compute; reflexivity)).
  repeat constructor.
Defined.


(** * Derived datatypes *)


Lemma type_is_known_unknown {R} (type : Z) (w : OTF2_Writer) :
  type_sizes_ w !! type = None →
  type_is_known (R:=R) type w =
  Normal false (logged OWV_WARN ("Unknown Type (" +:+ pretty type) w).
Proof.
  intros H. unfold type_is_known, call. rewrite bind_gets, H.
  by rewrite bind_outcome, logger_eq.
Qed.


Lemma traced_eq {R A} (name : string) (start stop : Z) (inner : M OTF2_WRITER_RESULT A)
    (w w2 : OTF2_Writer) (a : A) :
  inner (entered name start stop w) = Normal a w2 →
  call (R':=R) (this_region <- _ENTER name start stop ;; inner ;; _LEAVE stop this_region) w
  = Normal OTF2_WRITER_SUCCESS (left stop (region_id name w) w2).
Proof.
  intros H. unfold call. enter. rewrite (bind_normal _ _ _ _ _ H). by rewrite LEAVE_eq.
Qed.

Lemma entered_type_sizes (name : string) (start stop : Z) (w : OTF2_Writer) :
  type_sizes_ (entered name start stop w) = type_sizes_ w.
Proof. apply entered_fields. Qed.


Lemma mpi_t_vector_inner_unknown {R} to_size (fname : string)
    (count blocklength oldtype newtype : Z) (w : OTF2_Writer) :
  type_sizes_ w !! oldtype = None →
  mpi_t_vector_inner (R:=R) to_size fname count blocklength oldtype newtype w =
  Normal tt (logged OWV_ERROR (fname +:+ " failed")
               (logged OWV_WARN ("Unknown Type (" +:+ pretty oldtype) w)).
Proof.
  intros H. unfold mpi_t_vector_inner, call.
  rewrite (bind_normal _ _ _ _ _ (type_is_known_unknown _ _ H)).
  rewrite bind_outcome, bind_outcome, logger_eq. done.
Qed.























Lemma mpi_t_indexed_inner_unknown {R} to_size (name : string) (count : Z) (lengths : list Z)
    (oldtype newtype : Z) (w : OTF2_Writer) :
  type_sizes_ w !! oldtype = None →
  mpi_t_indexed_inner (R:=R) to_size name count lengths oldtype newtype w =
  Normal tt (logged OWV_ERROR (name +:+ " failed")
               (logged OWV_WARN ("Unknown Type (" +:+ pretty oldtype) w)).
Proof.
  intros H. unfold mpi_t_indexed_inner, call.
  rewrite (bind_normal _ _ _ _ _ (type_is_known_unknown _ _ H)).
  rewrite bind_outcome, bind_outcome, logger_eq. done.
Qed.

Lemma logged_twice_trace (l1 l2 : OTF2_WRITER_VERBOSITY) (m1 m2 name : string)
    (start stop : Z) (w : OTF2_Writer) :
  let w1 := logged l1 m1 (logged l2 m2 (entered name start stop w)) in
  type_sizes_ w1 = type_sizes_ w ∧
  evt_writer w1 = evt_writer w ++ [Enter start (region_id name w)] ∧
  event_count_ w1 = event_count_ w + 1 ∧
  type_sizes_ (left stop (region_id name w) w1) = type_sizes_ w ∧
  evt_writer (left stop (region_id name w) w1) =
    evt_writer w ++ [Enter start (region_id name w); Leave stop (region_id name w)].
Proof.
  intros w1.
  destruct (entered_fields name start stop w) as (_ & Hty & _ & _ & Hev & Hec).
  pose proof (logged_fields l2 m2 (entered name start stop w)) as F2.
  pose proof (logged_fields l1 m1 (logged l2 m2 (entered name start stop w))) as F1.
  fold w1 in F1. destruct_and! F1. destruct_and! F2.
  cbn -[entered region_id logged].
  repeat split; try congruence.
  assert (evt_writer w1 = evt_writer w ++ [Enter start (region_id name w)]) as ->
    by congruence.
  by rewrite <- (assoc_L (++)).
Qed.

Lemma mpi_type_contiguous_unknown {R} to_size (start stop count oldtype newtype : Z)
    (w : OTF2_Writer) :
  type_sizes_ w !! oldtype = None →
  mpi_type_contiguous (R:=R) to_size start stop count oldtype newtype w =
  Normal OTF2_WRITER_ERROR_UKNOWN_MPI_TYPE
    (logged OWV_ERROR "MPI_type_contiguous failed"
       (logged OWV_WARN ("Unknown Type (" +:+ pretty oldtype)
          (entered "MPI_Type_contiguous" start stop w))).
Proof.
  intros H. unfold mpi_type_contiguous, call. enter.
  rewrite <- (entered_type_sizes "MPI_Type_contiguous" start stop) in H.
  rewrite (bind_normal _ _ _ _ _ (type_is_known_unknown _ _ H)).
  rewrite bind_outcome, bind_outcome, logger_eq. done.
Qed.

Lemma mpi_type_create_subarray_unknown {R} to_size (start stop ndims : Z)
    (subsizes : list Z) (oldtype newtype : Z) (w : OTF2_Writer) :
  type_sizes_ w !! oldtype = None →
  mpi_type_create_subarray (R:=R) to_size start stop ndims subsizes oldtype newtype w =
  Normal OTF2_WRITER_ERROR_UKNOWN_MPI_TYPE
    (logged OWV_ERROR "MPI_Type_create_subarray failed"
       (logged OWV_WARN ("Unknown Type (" +:+ pretty oldtype)
          (entered "MPI_Type_create_subarray" start stop w))).
Proof.
  intros H. unfold mpi_type_create_subarray, call. enter.
  rewrite <- (entered_type_sizes "MPI_Type_create_subarray" start stop) in H.
  rewrite (bind_normal _ _ _ _ _ (type_is_known_unknown _ _ H)).
  rewrite bind_outcome, bind_outcome, logger_eq. done.
Qed.

(** X13: on a datatype the writer does not know, no constructor stores a
    size, but they report it in two ways.  [mpi_type_contiguous] and
    [mpi_type_create_subarray] return the error code from inside the
    region: the enter record is written and counted, the leave record is
    not.  The vector and the indexed constructors return success and write
    both records; the array of lengths is not read. *)
Theorem derived_type_of_unknown_type {R} (to_size : Z → Z)
    (start stop count blocklength : Z) (lengths : list Z) (oldtype newtype : Z)
    (w : OTF2_Writer) :
  type_sizes_ w !! oldtype = None →
  let failed name res w' :=
    res = OTF2_WRITER_ERROR_UKNOWN_MPI_TYPE ∧ type_sizes_ w' = type_sizes_ w ∧
    evt_writer w' = evt_writer w ++ [Enter start (region_id name w)] ∧
    event_count_ w' = event_count_ w + 1 in
  let ignored name res w' :=
    res = OTF2_WRITER_SUCCESS ∧ type_sizes_ w' = type_sizes_ w ∧
    evt_writer w' = evt_writer w ++
      [Enter start (region_id name w); Leave stop (region_id name w)] in
  (∃ res w', mpi_type_contiguous (R:=R) to_size start stop count oldtype newtype w
               = Normal res w' ∧ failed "MPI_Type_contiguous" res w') ∧
  (∃ res w', mpi_type_create_subarray (R:=R) to_size start stop count lengths oldtype
               newtype w = Normal res w' ∧ failed "MPI_Type_create_subarray" res w') ∧
  (∃ res w', mpi_type_vector (R:=R) to_size start stop count blocklength oldtype newtype w
               = Normal res w' ∧ ignored "MPI_Type_vector" res w') ∧
  (∃ res w', mpi_type_hvector (R:=R) to_size start stop count blocklength oldtype newtype w
               = Normal res w' ∧ ignored "MPI_Type_hvector" res w') ∧
  (∃ res w', mpi_type_create_hvector (R:=R) to_size start stop count blocklength oldtype
               newtype w = Normal res w' ∧ ignored "MPI_Type_create_hvector" res w') ∧
  (∃ res w', mpi_type_indexed (R:=R) to_size start stop count lengths oldtype newtype w
               = Normal res w' ∧ ignored "MPI_Type_indexed" res w') ∧
  (∃ res w', mpi_type_hindexed (R:=R) to_size start stop count lengths oldtype newtype w
               = Normal res w' ∧ ignored "MPI_Type_hindexed" res w') ∧
  (∃ res w', mpi_type_create_hindexed (R:=R) to_size start stop count lengths oldtype
               newtype w = Normal res w' ∧ ignored "MPI_Type_hindexed" res w').
Proof.
  intros H failed ignored.
  assert (Hv : ∀ name,
    mpi_t_vector_inner (R:=OTF2_WRITER_RESULT) to_size name count blocklength oldtype newtype
      (entered name start stop w)
    = Normal tt (logged OWV_ERROR (name +:+ " failed")
                   (logged OWV_WARN ("Unknown Type (" +:+ pretty oldtype)
                      (entered name start stop w)))).
  { intros name. apply mpi_t_vector_inner_unknown. by rewrite entered_type_sizes. }
  assert (Hi : ∀ name,
    mpi_t_indexed_inner (R:=OTF2_WRITER_RESULT) to_size name count lengths oldtype newtype
      (entered name start stop w)
    = Normal tt (logged OWV_ERROR (name +:+ " failed")
                   (logged OWV_WARN ("Unknown Type (" +:+ pretty oldtype)
                      (entered name start stop w)))).
  { intros name. apply mpi_t_indexed_inner_unknown. by rewrite entered_type_sizes. }
  repeat split.
  - eexists _, _. split; [by apply mpi_type_contiguous_unknown|].
    split; [done|]. split; [|split]; apply logged_twice_trace.
  - eexists _, _. split; [by apply mpi_type_create_subarray_unknown|].
    split; [done|]. split; [|split]; apply logged_twice_trace.
  - eexists _, _. split; [exact (traced_eq _ _ _ _ _ _ _ (Hv _))|].
    split; [done|]. split; apply logged_twice_trace.
  - eexists _, _. split; [exact (traced_eq _ _ _ _ _ _ _ (Hv _))|].
    split; [done|]. split; apply logged_twice_trace.
  - eexists _, _. split; [exact (traced_eq _ _ _ _ _ _ _ (Hv _))|].
    split; [done|]. split; apply logged_twice_trace.
  - eexists _, _. split; [exact (traced_eq _ _ _ _ _ _ _ (Hi _))|].
    split; [done|]. split; apply logged_twice_trace.
  - eexists _, _. split; [exact (traced_eq _ _ _ _ _ _ _ (Hi _))|].
    split; [done|]. split; apply logged_twice_trace.
  - eexists _, _. split; [exact (traced_eq _ _ _ _ _ _ _ (Hi _))|].
    split; [done|]. split; apply logged_twice_trace.
Qed.

Lemma derived_type_of_unknown_type_witness :
  ∃ w1 w2,
    mpi_type_contiguous (R:=unit) id 10 20 4 99 12 example_writer
      = Normal OTF2_WRITER_ERROR_UKNOWN_MPI_TYPE w1 ∧
    evt_writer w1 = [Enter 10 0] ∧
    mpi_type_vector (R:=unit) id 10 20 4 2 99 12 example_writer
      = Normal OTF2_WRITER_SUCCESS w2 ∧
    type_sizes_ w2 !! 12 = None.
Proof.
  destruct (derived_type_of_unknown_type (R:=unit) id 10 20 4 2 [] 99 12 example_writer
              eq_refl)
    as ((r1 & w1 & H1 & -> & _ & He1 & _) & _ & (r2 & w2 & H2 & -> & Ht2 & _) & _).
  exists w1, w2. split; [exact H1|]. split; [exact He1|]. split; [exact H2|].
  rewrite Ht2. reflexivity.
Defined.

Lemma replay_trace_grows {R} (to_size : Z → Z) (calls : list (Z * Z * mpi_call))
    (w w' : OTF2_Writer) (results : list OTF2_WRITER_RESULT) :
  replay (R:=R) to_size calls w = Normal results w' →
  ∃ records, evt_writer w' = evt_writer w ++ records.
Proof.
  apply (replay_inv (λ w w', ∃ records, evt_writer w' = evt_writer w ++ records)).
  - intros w1. exists []. by rewrite app_nil_r.
  - intros w1 w2 w3 (r1 & H1) (r2 & H2). exists (r1 ++ r2).
    by rewrite H2, H1, <- (assoc_L (++)).
  - intros w1 w2 H. destruct (body_steps_trace w1 w2 (rtc_once _ _ H)) as (b & Hb & _).
    by exists b.
  - intros name start stop w1. eexists [_]. apply entered_fields.
  - intros stop reg w1. by eexists [_].
Qed.

Lemma replay_in_open_region {R} (to_size : Z → Z) (calls : list (Z * Z * mpi_call))
    (w w' : OTF2_Writer) (results : list OTF2_WRITER_RESULT) (reg : Z) :
  bracket_scan (evt_writer w) = Open reg →
  replay (R:=R) to_size calls w = Normal results w' →
  bracket_scan (evt_writer w') = match calls with [] => Open reg | _ => Broken end.
Proof.
  intros Hw H. destruct calls as [|[[start stop] c] calls]; simpl in H.
  - by injection H as _ <-.
  - rewrite bind_outcome in H.
    destruct (perform to_size start stop c w) as [res w1| | | |] eqn:Hc; try done.
    rewrite bind_outcome in H.
    destruct (replay to_size calls w1) as [rest w2| | | |] eqn:Hr; try done.
    injection H as _ <-.
    destruct (replay_trace_grows _ _ _ _ _ Hr) as (records & ->).
    assert (bracket_scan (evt_writer w1) = Broken) as Hb.
    { destruct (perform_segment _ _ _ _ _ _ _ Hc) as (body & _ & [[_ Ht]|[_ Ht]]);
        rewrite Ht; unfold bracket_scan in *; rewrite fold_left_app, Hw; simpl;
        apply bracket_scan_broken. }
    unfold bracket_scan in *. rewrite fold_left_app, Hb. apply bracket_scan_broken.
Qed.

Lemma derived_type_of_unknown_type_paths {R} (to_size : Z → Z)
    (start stop count : Z) (subsizes : list Z) (oldtype newtype : Z) (c : mpi_call)
    (w : OTF2_Writer) :
  type_sizes_ w !! oldtype = None →
  c = Call_mpi_type_contiguous count oldtype newtype ∨
  c = Call_mpi_type_create_subarray count subsizes oldtype newtype →
  ∃ w1, perform (R:=R) to_size start stop c w
          = Normal OTF2_WRITER_ERROR_UKNOWN_MPI_TYPE w1 ∧
        evt_writer w1 = evt_writer w ++ [Enter start (region_id (call_name c) w)].
Proof.
  intros H [-> | ->]; simpl.
  - eexists. split; [by apply mpi_type_contiguous_unknown|]. apply logged_twice_trace.
  - eexists. split; [by apply mpi_type_create_subarray_unknown|]. apply logged_twice_trace.
Qed.

(** X14: the error return of [mpi_type_contiguous] and of
    [mpi_type_create_subarray] on an unknown datatype leaves the region of
    the call open, and nothing closes it again: whatever traced calls
    follow, successful or not, the trace never gets back to a well
    bracketed state, the next call entering its region inside the open
    one. *)
Theorem unknown_type_breaks_bracketing {R} (to_size : Z → Z)
    (start stop count : Z) (subsizes : list Z) (oldtype newtype : Z) (c : mpi_call)
    (calls : list (Z * Z * mpi_call)) (w w' : OTF2_Writer)
    (results : list OTF2_WRITER_RESULT) :
  type_sizes_ w !! oldtype = None →
  bracket_scan (evt_writer w) = Closed →
  c = Call_mpi_type_contiguous count oldtype newtype ∨
  c = Call_mpi_type_create_subarray count subsizes oldtype newtype →
  replay (R:=R) to_size ((start, stop, c) :: calls) w = Normal results w' →
  head results = Some OTF2_WRITER_ERROR_UKNOWN_MPI_TYPE ∧
  bracket_scan (evt_writer w') =
    match calls with [] => Open (region_id (call_name c) w) | _ => Broken end.
Proof.
  intros Hty Hw Hc H. simpl in H. rewrite bind_outcome in H.
  destruct (derived_type_of_unknown_type_paths (R:=R) to_size start stop count subsizes
              oldtype newtype c w Hty Hc) as (w1 & Hp & Ht).
  rewrite Hp in H. rewrite bind_outcome in H.
  destruct (replay to_size calls w1) as [rest w2| | | |] eqn:Hr; try done.
  injection H as <- <-. split; [done|].
  apply (replay_in_open_region (R:=R) to_size calls w1 w2 rest (region_id (call_name c) w));
    [|done].
  rewrite Ht. unfold bracket_scan in *. rewrite fold_left_app, Hw. done.
Qed.

Lemma unknown_type_breaks_bracketing_witness :
  ∃ results w',
    replay (R:=unit) id [(10, 20, Call_mpi_type_contiguous 4 99 12);
                         (30, 40, Call_generic_call "MPI_Barrier")] example_writer
      = Normal results w' ∧
    bracket_scan (evt_writer w') = Broken.
Proof.
  eexists _, _. split; [vm_compute; reflexivity|].
  apply (unknown_type_breaks_bracketing (R:=unit) id 10 20 4 [] 99 12
           (Call_mpi_type_contiguous 4 99 12) [(30, 40, Call_generic_call "MPI_Barrier")]
           example_writer _ _ eq_refl eq_refl (or_introl eq_refl)
           ltac:(vm_compute; reflexivity)).
Defined.

(** * Groups and communicators in the first pass *)

Lemma set_insert_elem (x y : Z) (s : list Z) : y ∈ set_insert x s ↔ y = x ∨ y ∈ s.
Proof.
  induction s as [|z s IH]; cbn [set_insert].
  - rewrite list_elem_of_singleton, elem_of_nil. tauto.
  - destruct (decide (x < z)); [by rewrite elem_of_cons|].
    destruct (decide (x = z)) as [->|].
    + rewrite !elem_of_cons. tauto.
    + rewrite !elem_of_cons, IH. tauto.
Qed.

Lemma set_insert_sorted (x : Z) (s : list Z) :
  StronglySorted Z.lt s → StronglySorted Z.lt (set_insert x s).
Proof.
  induction 1 as [|z s Hs IH Hz]; cbn [set_insert].
  - by repeat constructor.
  - destruct (decide (x < z)).
    + constructor; [by constructor|]. constructor; [done|].
      eapply Forall_impl; [exact Hz|]. intros; simpl in *; lia.
    + destruct (decide (x = z)); [by constructor|].
      constructor; [done|]. rewrite Forall_forall. intros y Hy.
      apply set_insert_elem in Hy as [->|Hy]; [lia|].
      rewrite Forall_forall in Hz. by apply Hz.
Qed.

Lemma set_insert_length (x : Z) (s : list Z) :
  x ∉ s → length (set_insert x s) = S (length s).
Proof.
  induction s as [|z s IH]; intros Hx; cbn [set_insert]; [done|].
  destruct (decide (x < z)); [done|].
  destruct (decide (x = z)) as [->|]; [exfalso; apply Hx; by left|].
  cbn [length]. rewrite IH; [done|]. intros H. apply Hx. by right.
Qed.

Lemma fold_set_insert (l : list Z) :
  ∀ s, StronglySorted Z.lt s →
    StronglySorted Z.lt (fold_left (λ s r, set_insert r s) l s) ∧
    (∀ y, y ∈ fold_left (λ s r, set_insert r s) l s ↔ y ∈ l ∨ y ∈ s) ∧
    (NoDup l → (∀ y, y ∈ l → y ∉ s) →
     length (fold_left (λ s r, set_insert r s) l s) = (length l + length s)%nat).
Proof.
  induction l as [|x l IH]; intros s Hs; cbn [fold_left].
  - split; [done|]. split; [|done]. intros y. rewrite elem_of_nil. tauto.
  - destruct (IH (set_insert x s) (set_insert_sorted x s Hs)) as (H1 & H2 & H3).
    split; [done|]. split.
    + intros y. rewrite H2, set_insert_elem, elem_of_cons. tauto.
    + intros Hnd Hdis. apply NoDup_cons in Hnd as [Hx Hnd].
      rewrite H3; [|done|].
      * rewrite set_insert_length; [cbn [length]; lia|]. apply Hdis. by left.
      * intros y Hy Hin. apply set_insert_elem in Hin as [->|Hin]; [done|].
        apply (Hdis y); [by right|done].
Qed.

Lemma exclude_from_ext (members e1 e2 : list Z) :
  (∀ x, x ∈ e1 ↔ x ∈ e2) → ∀ i, exclude_from i members e1 = exclude_from i members e2.
Proof.
  intros He. induction members as [|m members IH]; intros i; [done|].
  cbn [exclude_from]. rewrite IH.
  destruct (decide (i ∈ e1)) as [H1|H1], (decide (i ∈ e2)) as [H2|H2]; try done.
  - exfalso. apply H2. by apply He.
  - exfalso. apply H1. by apply He.
Qed.

Lemma sorted_last_max (l : list Z) (m : Z) :
  StronglySorted Z.lt l → m ∈ l → Forall (λ x, x ≤ m) l → last l = Some m.
Proof.
  induction 1 as [|x l Hs IH Hx]; intros Hm Hle; [by apply elem_of_nil in Hm|].
  apply Forall_cons in Hle as [Hxm Hle].
  destruct l as [|y l].
  - apply list_elem_of_singleton in Hm as ->. done.
  - change (last (x :: y :: l)) with (last (y :: l)). apply IH; [|done].
    apply elem_of_cons in Hm as [->|Hm]; [|done].
    apply Forall_cons in Hx as [Hxy _]. apply Forall_cons in Hle as [Hym _]. lia.
Qed.

(** X15: [mpi_group_excl_first_pass] for a list of distinct indices of the
    parent group, in any order, into a different handle.  When the last
    index of the parent is among them (or the parent is empty) the call
    succeeds, the new group holds the members of the parent at the other
    indices in their order, and the parent is unchanged.  When the last
    index is not among them the call reads the iterator of the index set
    at its end. *)
Theorem mpi_group_excl_first_pass_distinct {R} (w : OTF2_Writer)
    (start stop group count newgroup : Z) (ranks : list Z) (gp : OTF2_MPI_Group) :
  groups_ w !! group = Some gp → newgroup ≠ group →
  Z.of_nat (length (global_ranks gp)) < 2 ^ 31 →
  count = Z.of_nat (length ranks) →
  NoDup ranks →
  Forall (λ r, 0 ≤ r < Z.of_nat (length (global_ranks gp))) ranks →
  (global_ranks gp = [] ∨ Z.of_nat (length (global_ranks gp)) - 1 ∈ ranks →
   ∃ w', mpi_group_excl_first_pass (R:=R) start stop group count ranks newgroup w
           = Normal OTF2_WRITER_SUCCESS w' ∧
         global_ranks <$> groups_ w' !! newgroup
           = Some (exclude_from 0 (global_ranks gp) ranks) ∧
         groups_ w' !! group = Some gp) ∧
  (global_ranks gp ≠ [] → Z.of_nat (length (global_ranks gp)) - 1 ∉ ranks →
   mpi_group_excl_first_pass (R:=R) start stop group count ranks newgroup w = Undefined).
Proof.
  intros Hgp Hne Hsmall Hcount Hnd Hrange.
  set (P := global_ranks gp) in *.
  set (v0 := global_ranks (default new_group (groups_ w !! newgroup))).
  set (sorted := fold_left (λ s r, set_insert r s) ranks []).
  destruct (fold_set_insert ranks [] ltac:(constructor)) as (Hsort & Helem & Hlen).
  fold sorted in Hsort, Helem, Hlen.
  assert (Hlen' : length sorted = length ranks).
  { rewrite Hlen; [cbn [length]; lia|done|]. intros y _. apply not_elem_of_nil. }
  assert (Helem' : ∀ y, y ∈ sorted ↔ y ∈ ranks).
  { intros y. rewrite Helem, elem_of_nil. tauto. }
  assert (Hrange' : Forall (λ r, 0 ≤ r < Z.of_nat (length P)) sorted).
  { rewrite Forall_forall. intros y Hy. rewrite Forall_forall in Hrange.
    apply Hrange. by apply Helem'. }
  assert (Hbound : Z.of_nat (length sorted) ≤ Z.of_nat (length P) - 0).
  { apply sorted_length_bound; [done|done|lia]. }
  assert (Hprefix :
    mpi_group_excl_first_pass (R:=R) start stop group count ranks newgroup w =
    call (R':=R)
      (bind (for_loop (length P) 0
         (λ i '(iter, nextInsertIndex),
            nextToAvoid <- deref sorted iter ;;
            parent <- group_ref group ;;
            nextRank <- index (global_ranks parent) i ;;
            if decide (nextToAvoid = i)
            then ret (S iter, nextInsertIndex)
            else global_ranks_store newgroup nextInsertIndex nextRank ;;
                 ret (iter, nextInsertIndex + 1))
         (O, 0)) (λ _, return_ OTF2_WRITER_SUCCESS))
      (with_global_ranks newgroup (resize (Z.of_nat (length P) - count) v0) w)).
  { unfold mpi_group_excl_first_pass, call. f_equal.
    rewrite (bind_normal _ _ _ _ _ (groups_at_present _ _ _ Hgp)).
    rewrite (bind_normal _ _ _ _ _ (groups_at_eq _ _)). fold v0.
    rewrite Hcount, Nat2Z.id.
    rewrite (bind_normal _ _ _ _ _ (insert_loop ranks ranks [] [] _ eq_refl)).
    fold sorted.
    assert (Hgp' : groups_ w !! group = Some gp) by done.
    rewrite (bind_normal _ _ _ _ _ (group_ref_other _ _ _ _ _ Hne Hgp')).
    fold P. replace (to_int (Z.of_nat (length P))) with (Z.of_nat (length P)).
    2:{ unfold to_int. rewrite Z.mod_small; lia. }
    assert (Hres : 0 ≤ Z.of_nat (length P) - Z.of_nat (length ranks)) by lia.
    rewrite (bind_normal _ _ _ _ _ (global_ranks_resize_eq _ _ v0 w Hres)).
    by rewrite Nat2Z.id. }
  rewrite Hprefix. clear Hprefix.
  assert (Hlen0 : Z.of_nat (length (resize (Z.of_nat (length P) - count) v0)) =
                  Z.of_nat (length ([] ++ P)) - Z.of_nat (length ([] ++ sorted))).
  { rewrite length_resize; cbn [app]; lia. }
  split.
  - intros Hok.
    assert (Hok' : P = [] ∨ last sorted = Some (Z.of_nat (length ([] ++ P)) - 1)).
    { destruct Hok as [Hok|Hok]; [by left|right]. cbn [app].
      apply sorted_last_max; [done|by apply Helem'|].
      eapply Forall_impl; [exact Hrange'|]. intros; simpl in *; lia. }
    eexists. split.
    + unfold call. rewrite bind_outcome.
      rewrite (excl_loop_ok (R:=OTF2_WRITER_RESULT) w group newgroup gp sorted Hne Hgp
                 P [] [] sorted _ 0 eq_refl eq_refl Hsort Hrange'); done.
    + cbn [take app Z.to_nat length Z.of_nat].
      split; [|by rewrite with_global_ranks_lookup_ne].
      rewrite with_global_ranks_lookup. f_equal. by apply exclude_from_ext.
  - intros Hne2 Hlast. unfold call. rewrite bind_outcome.
    rewrite (excl_loop_undefined (R:=OTF2_WRITER_RESULT) w group newgroup gp sorted
               Hne Hgp P [] [] sorted _ 0 eq_refl Hne2 eq_refl Hsort Hrange'); [done|].
    intros m Hm. cbn [app].
    assert (Hin : m ∈ sorted).
    { clear -Hm. induction sorted as [|a l IH]; [done|].
      destruct l as [|b l]; [injection Hm as ->; by left|]. right. by apply IH. }
    rewrite Forall_forall in Hrange'. specialize (Hrange' m Hin).
    assert (m ≠ Z.of_nat (length P) - 1); [|lia].
    intros ->. apply Hlast. by apply Helem'.
Qed.

Lemma mpi_group_excl_first_pass_distinct_witness :
  (∃ w', mpi_group_excl_first_pass (R:=unit) 0 0 3 3 [4; 0; 2] 4 group_writer
           = Normal OTF2_WRITER_SUCCESS w' ∧
         global_ranks <$> groups_ w' !! 4 = Some [1; 3]) ∧
  mpi_group_excl_first_pass (R:=unit) 0 0 3 2 [2; 0] 4 group_writer = Undefined.
Proof.
  split.
  - destruct (mpi_group_excl_first_pass_distinct (R:=unit) group_writer 0 0 3 3 4 [4; 0; 2]
                (mk_group 3 false [0; 1; 2; 3; 4]) eq_refl ltac:(lia) ltac:(vm_compute; done)
                eq_refl ltac:(compute_done)
                ltac:(repeat constructor; simpl; lia)) as [H _].
    destruct H as (w' & H1 & H2 & _).
    { right. compute_done. }
    exists w'. split; [exact H1|exact H2].
  - apply (mpi_group_excl_first_pass_distinct (R:=unit) group_writer 0 0 3 2 4 [2; 0]
             (mk_group 3 false [0; 1; 2; 3; 4]) eq_refl ltac:(lia) ltac:(vm_compute; done)
             eq_refl ltac:(compute_done)
             ltac:(repeat constructor; simpl; lia)).
    + done.
    + compute_done.
Defined.

Section inclusion_loop.
Context {R : Type}.
Variables (w : OTF2_Writer) (group newgroup : Z) (gp : OTF2_MPI_Group) (ranks : list Z).
Hypothesis Hne : newgroup ≠ group.
Hypothesis Hgp : groups_ w !! group = Some gp.

Lemma incl_loop_ok :
  ∀ (l2 sel2 l1 filled todo : list Z),
    ranks = l1 ++ l2 → selects (global_ranks gp) l2 sel2 →
    length filled = length l1 → length todo = length l2 →
    for_loop (R:=R) (length l2) (Z.of_nat (length l1))
      (λ i (_ : unit),
         r <- index ranks i ;;
         parent <- group_ref group ;;
         x <- index (global_ranks parent) r ;;
         global_ranks_store newgroup i x) tt
      (with_global_ranks newgroup (filled ++ todo) w)
    = Normal tt (with_global_ranks newgroup (filled ++ sel2) w).
Proof.
  induction l2 as [|r l2 IH]; intros sel2 l1 filled todo Hr Hsel Hf Ht.
  - apply Forall2_nil_inv_l in Hsel as ->. destruct todo; [done|done].
  - apply Forall2_cons_inv_l in Hsel as (x & sel2' & [Hr0 Hx] & Hsel & ->).
    destruct todo as [|t todo]; [done|]. cbn [length] in Ht.
    cbn [for_loop length].
    rewrite bind_assoc, (index_app ranks l1 l2 r), bind_ret_l by done.
    rewrite bind_assoc, (bind_normal _ _ _ _ _ (group_ref_other _ _ _ _ _ Hne Hgp)).
    rewrite bind_assoc, (index_lookup _ _ x Hr0 Hx), bind_ret_l.
    assert (Hst : global_ranks_store (R:=R) newgroup (Z.of_nat (length l1)) x
                    (with_global_ranks newgroup (filled ++ t :: todo) w)
                  = Normal tt (with_global_ranks newgroup
                      (<[Z.to_nat (Z.of_nat (length l1)) := x]> (filled ++ t :: todo)) w)).
    { apply global_ranks_store_in. rewrite length_app. cbn [length]. lia. }
    rewrite (bind_normal _ _ _ _ _ Hst).
    replace (<[Z.to_nat (Z.of_nat (length l1)) := x]> (filled ++ t :: todo))
      with ((filled ++ [x]) ++ todo).
    2:{ rewrite Nat2Z.id, <- Hf, <- (assoc_L (++)).
        rewrite insert_app_r_alt by lia. by rewrite Nat.sub_diag. }
    replace (Z.of_nat (length l1) + 1) with (Z.of_nat (length (l1 ++ [r])))
      by (rewrite length_app; cbn; lia).
    rewrite (IH sel2' (l1 ++ [r]) (filled ++ [x]) todo);
      [by rewrite <- (assoc_L (++))|by rewrite <- (assoc_L (++))|done
      |by rewrite !length_app, Hf|lia].
Qed.

Lemma incl_loop_undefined :
  ∀ (l2 l1 filled todo : list Z),
    ranks = l1 ++ l2 →
    Exists (λ r, ¬ (0 ≤ r < Z.of_nat (length (global_ranks gp)))) l2 →
    length filled = length l1 → length todo = length l2 →
    for_loop (R:=R) (length l2) (Z.of_nat (length l1))
      (λ i (_ : unit),
         r <- index ranks i ;;
         parent <- group_ref group ;;
         x <- index (global_ranks parent) r ;;
         global_ranks_store newgroup i x) tt
      (with_global_ranks newgroup (filled ++ todo) w)
    = Undefined.
Proof.
  induction l2 as [|r l2 IH]; intros l1 filled todo Hr Hex Hf Ht.
  - by apply Exists_nil in Hex.
  - destruct todo as [|t todo]; [done|]. cbn [length] in Ht.
    cbn [for_loop length].
    rewrite bind_assoc, (index_app ranks l1 l2 r), bind_ret_l by done.
    rewrite bind_assoc, (bind_normal _ _ _ _ _ (group_ref_other _ _ _ _ _ Hne Hgp)).
    rewrite bind_assoc.
    destruct (decide (0 ≤ r < Z.of_nat (length (global_ranks gp)))) as [Hin|Hout].
    + destruct (lookup_lt_is_Some_2 (global_ranks gp) (Z.to_nat r) ltac:(lia)) as [x Hx].
      rewrite (index_lookup _ _ x (proj1 Hin) Hx), bind_ret_l.
      assert (Hst : global_ranks_store (R:=R) newgroup (Z.of_nat (length l1)) x
                      (with_global_ranks newgroup (filled ++ t :: todo) w)
                    = Normal tt (with_global_ranks newgroup
                        (<[Z.to_nat (Z.of_nat (length l1)) := x]> (filled ++ t :: todo)) w)).
      { apply global_ranks_store_in. rewrite length_app. cbn [length]. lia. }
      rewrite (bind_normal _ _ _ _ _ Hst).
      replace (<[Z.to_nat (Z.of_nat (length l1)) := x]> (filled ++ t :: todo))
        with ((filled ++ [x]) ++ todo).
      2:{ rewrite Nat2Z.id, <- Hf, <- (assoc_L (++)).
          rewrite insert_app_r_alt by lia. by rewrite Nat.sub_diag. }
      replace (Z.of_nat (length l1) + 1) with (Z.of_nat (length (l1 ++ [r])))
        by (rewrite length_app; cbn; lia).
      apply IH; [by rewrite <- (assoc_L (++))| |by rewrite !length_app, Hf|lia].
      apply Exists_cons in Hex as [Hex|Hex]; [done|done].
    + rewrite bind_outcome. unfold index.
      destruct (decide (0 ≤ r)) as [Hr0|]; [|done].
      rewrite (lookup_ge_None_2 (global_ranks gp) (Z.to_nat r)) by lia. done.
Qed.

End inclusion_loop.

(** X16: [mpi_group_incl_first_pass] into a different handle, with as many
    indices as [count] says.  When every index is a position of the
    parent group the call succeeds and the new group holds the parent's
    members at these positions, in the order given and with repetitions;
    the parent is unchanged.  When some index is not a position of the
    parent the call reads outside the parent's member vector. *)
Theorem mpi_group_incl_first_pass_selects {R} (w : OTF2_Writer)
    (start stop group count newgroup : Z) (ranks : list Z) (gp : OTF2_MPI_Group) :
  groups_ w !! group = Some gp → newgroup ≠ group →
  count = Z.of_nat (length ranks) →
  (∀ members, selects (global_ranks gp) ranks members →
     ∃ w', mpi_group_incl_first_pass (R:=R) start stop group count ranks newgroup w
             = Normal OTF2_WRITER_SUCCESS w' ∧
           global_ranks <$> groups_ w' !! newgroup = Some members ∧
           groups_ w' !! group = Some gp) ∧
  (Exists (λ r, ¬ (0 ≤ r < Z.of_nat (length (global_ranks gp)))) ranks →
   mpi_group_incl_first_pass (R:=R) start stop group count ranks newgroup w = Undefined).
Proof.
  intros Hgp Hne Hcount.
  set (v0 := global_ranks (default new_group (groups_ w !! newgroup))).
  assert (Hprefix :
    mpi_group_incl_first_pass (R:=R) start stop group count ranks newgroup w =
    call (R':=R)
      (bind (for_loop (length ranks) 0
         (λ i (_ : unit),
            r <- index ranks i ;;
            parent <- group_ref group ;;
            x <- index (global_ranks parent) r ;;
            global_ranks_store newgroup i x) tt)
         (λ _, return_ OTF2_WRITER_SUCCESS))
      (with_global_ranks newgroup ([] ++ resize count v0) w)).
  { unfold mpi_group_incl_first_pass, call. f_equal.
    rewrite (bind_normal _ _ _ _ _ (groups_at_present _ _ _ Hgp)).
    rewrite (bind_normal _ _ _ _ _ (groups_at_eq _ _)). fold v0.
    assert (Hres : 0 ≤ count) by lia.
    rewrite (bind_normal _ _ _ _ _ (global_ranks_resize_eq _ _ v0 w Hres)).
    by rewrite Hcount, Nat2Z.id. }
  rewrite Hprefix. clear Hprefix.
  assert (Hlen : length (resize count v0) = length ranks).
  { apply Nat2Z.inj. rewrite length_resize; lia. }
  split.
  - intros members Hsel. eexists. split.
    + unfold call. rewrite bind_outcome.
      pose proof (incl_loop_ok (R:=OTF2_WRITER_RESULT) w group newgroup gp ranks Hne Hgp
                    ranks members [] [] (resize count v0) eq_refl Hsel eq_refl Hlen) as Hl.
      change (Z.of_nat (length (@nil Z))) with 0 in Hl. by rewrite Hl.
    + cbn [app]. split; [apply with_global_ranks_lookup|].
      by rewrite with_global_ranks_lookup_ne.
  - intros Hex. unfold call. rewrite bind_outcome.
    pose proof (incl_loop_undefined (R:=OTF2_WRITER_RESULT) w group newgroup gp ranks
                  Hne Hgp ranks [] [] (resize count v0) eq_refl Hex eq_refl Hlen) as Hl.
    change (Z.of_nat (length (@nil Z))) with 0 in Hl. by rewrite Hl.
Qed.

Lemma mpi_group_incl_first_pass_selects_witness :
  (∃ w', mpi_group_incl_first_pass (R:=unit) 0 0 3 3 [4; 0; 4] 4
           (with_global_ranks 3 [10; 11; 12; 13; 14] group_writer)
           = Normal OTF2_WRITER_SUCCESS w' ∧
         global_ranks <$> groups_ w' !! 4 = Some [14; 10; 14]) ∧
  mpi_group_incl_first_pass (R:=unit) 0 0 3 2 [1; 5] 4 group_writer = Undefined.
Proof.
  split.
  - destruct (mpi_group_incl_first_pass_selects (R:=unit)
                (with_global_ranks 3 [10; 11; 12; 13; 14] group_writer) 0 0 3 3 4 [4; 0; 4]
                (mk_group 3 false [10; 11; 12; 13; 14]) eq_refl ltac:(lia) eq_refl)
      as [H _].
    destruct (H [14; 10; 14]) as (w' & H1 & H2 & _).
    { repeat (constructor; [split; [lia|reflexivity]|]). constructor. }
    exists w'. split; [exact H1|exact H2].
  - apply (mpi_group_incl_first_pass_selects (R:=unit) group_writer 0 0 3 2 4 [1; 5]
             (mk_group 3 false [0; 1; 2; 3; 4]) eq_refl ltac:(lia) eq_refl).
    apply Exists_cons_tl, Exists_cons_hd. simpl. lia.
Defined.

Lemma groups_at_lookup {R} (k : Z) (w : OTF2_Writer) :
  ∃ w', groups_at (R:=R) k w = Normal tt w' ∧ comms_ w' = comms_ w ∧
        (∀ k', default new_group (groups_ w' !! k') = default new_group (groups_ w !! k')) ∧
        (∀ k', is_Some (groups_ w' !! k') ↔ k' = k ∨ is_Some (groups_ w !! k')).
Proof.
  unfold groups_at. rewrite bind_gets. destruct (groups_ w !! k) as [g|] eqn:Hk.
  - exists w. split; [done|]. split; [done|]. split; [done|]. intros k'. split; [auto|].
    intros [->|H]; [by rewrite Hk|done].
  - eexists. split; [done|]. split; [done|]. cbn. split; intros k'.
    + destruct (decide (k' = k)) as [->|].
      * by rewrite lookup_insert_eq, Hk.
      * by rewrite lookup_insert_ne.
    + destruct (decide (k' = k)) as [->|].
      * rewrite lookup_insert_eq. split; [by left|by eexists].
      * rewrite lookup_insert_ne by done. split; [by right|]. by intros [?|?].
Qed.

Lemma groups_at_then {R A} (k : Z) (rest : M R A) (w : OTF2_Writer) (seen final : list Z)
    (msg : string) :
  (∀ w1, comms_ w1 = comms_ w →
     (∀ k', default new_group (groups_ w1 !! k') = default new_group (groups_ w !! k')) →
     (∀ k', is_Some (groups_ w1 !! k') ↔ k' ∈ k :: seen ∨ is_Some (groups_ w !! k')) →
     ∃ w', rest w1 = Thrown msg w' ∧ comms_ w' = comms_ w ∧
       (∀ k', default new_group (groups_ w' !! k') = default new_group (groups_ w !! k')) ∧
       (∀ k', is_Some (groups_ w' !! k') ↔ k' ∈ final ∨ is_Some (groups_ w !! k'))) →
  ∀ w0, comms_ w0 = comms_ w →
    (∀ k', default new_group (groups_ w0 !! k') = default new_group (groups_ w !! k')) →
    (∀ k', is_Some (groups_ w0 !! k') ↔ k' ∈ seen ∨ is_Some (groups_ w !! k')) →
    ∃ w', (groups_at k ;; rest) w0 = Thrown msg w' ∧ comms_ w' = comms_ w ∧
      (∀ k', default new_group (groups_ w' !! k') = default new_group (groups_ w !! k')) ∧
      (∀ k', is_Some (groups_ w' !! k') ↔ k' ∈ final ∨ is_Some (groups_ w !! k')).
Proof.
  intros Hrest w0 Hc Hd Hs.
  destruct (groups_at_lookup (R:=R) k w0) as (w1 & H1 & C1 & D1 & S1).
  rewrite (bind_normal _ _ _ _ _ H1). apply Hrest.
  - congruence.
  - intros k'. by rewrite D1.
  - intros k'. rewrite S1, Hs, elem_of_cons. tauto.
Qed.

(** X17: the first pass of the group union, difference, intersection and
    range inclusion never returns: for every input it throws the exception
    "Unimplemented: ...".  Before that it has taken references to the
    groups named in the call, so every handle among them that the writer
    did not know now has an empty record; the records the writer had are
    unchanged, and so is the communicator table. *)
Theorem unimplemented_group_calls_throw {R} (w : OTF2_Writer)
    (start stop group1 group2 newgroup count : Z) (ranges : list (list Z)) :
  let thrown (m : M R OTF2_WRITER_RESULT) (msg : string) (handles : list Z) :=
    ∃ w', m w = Thrown msg w' ∧ comms_ w' = comms_ w ∧
      (∀ k, default new_group (groups_ w' !! k) = default new_group (groups_ w !! k)) ∧
      (∀ k, is_Some (groups_ w' !! k) ↔ k ∈ handles ∨ is_Some (groups_ w !! k)) in
  thrown (mpi_group_union_first_pass start stop group1 group2 newgroup)
    "Unimplemented: mpi_group_union" [newgroup; group2; group1] ∧
  thrown (mpi_group_difference_first_pass start stop group1 group2 newgroup)
    "Unimplemented: mpi_group_difference" [newgroup; group2; group1] ∧
  thrown (mpi_group_intersection_first_pass start stop group1 group2 newgroup)
    "Unimplemented: mpi_group_intersection" [newgroup; group2; group1] ∧
  thrown (mpi_group_range_incl_first_pass start stop group1 count ranges newgroup)
    "Unimplemented: mpi_group_range_incl" [newgroup; group1].
Proof.
  intros thrown.
  assert (Hend : ∀ msg (seen : list Z) w1, comms_ w1 = comms_ w →
    (∀ k', default new_group (groups_ w1 !! k') = default new_group (groups_ w !! k')) →
    (∀ k', is_Some (groups_ w1 !! k') ↔ k' ∈ seen ∨ is_Some (groups_ w !! k')) →
    ∃ w', (throw (R:=OTF2_WRITER_RESULT) (A:=unit) msg ;;
           return_ (A:=OTF2_WRITER_RESULT) OTF2_WRITER_SUCCESS) w1 = Thrown msg w' ∧
      comms_ w' = comms_ w ∧
      (∀ k', default new_group (groups_ w' !! k') = default new_group (groups_ w !! k')) ∧
      (∀ k', is_Some (groups_ w' !! k') ↔ k' ∈ seen ∨ is_Some (groups_ w !! k'))).
  { intros msg seen w1 Hc Hd Hs. by exists w1. }
  assert (Hstart : ∀ k', is_Some (groups_ w !! k') ↔ k' ∈ (@nil Z) ∨ is_Some (groups_ w !! k')).
  { intros k'. rewrite elem_of_nil. tauto. }
  assert (Hcall : ∀ (body : M OTF2_WRITER_RESULT OTF2_WRITER_RESULT) msg (handles : list Z),
    (∃ w', body w = Thrown msg w' ∧ comms_ w' = comms_ w ∧
       (∀ k, default new_group (groups_ w' !! k) = default new_group (groups_ w !! k)) ∧
       (∀ k, is_Some (groups_ w' !! k) ↔ k ∈ handles ∨ is_Some (groups_ w !! k))) →
    thrown (call body) msg handles).
  { intros body msg handles (w' & Hb & H). exists w'. unfold call. by rewrite Hb. }
  repeat split; apply Hcall.
  - apply (groups_at_then group1 _ w [] _ _); [|done..]. intros w1 ? ? ?.
    apply (groups_at_then group2 _ w [group1] _ _); [|done..]. intros w2 ? ? ?.
    apply (groups_at_then newgroup _ w [group2; group1] _ _); [|done..]. intros w3 ? ? ?.
    by apply Hend.
  - apply (groups_at_then group1 _ w [] _ _); [|done..]. intros w1 ? ? ?.
    apply (groups_at_then group2 _ w [group1] _ _); [|done..]. intros w2 ? ? ?.
    apply (groups_at_then newgroup _ w [group2; group1] _ _); [|done..]. intros w3 ? ? ?.
    by apply Hend.
  - apply (groups_at_then group1 _ w [] _ _); [|done..]. intros w1 ? ? ?.
    apply (groups_at_then group2 _ w [group1] _ _); [|done..]. intros w2 ? ? ?.
    apply (groups_at_then newgroup _ w [group2; group1] _ _); [|done..]. intros w3 ? ? ?.
    by apply Hend.
  - apply (groups_at_then group1 _ w [] _ _); [|done..]. intros w1 ? ? ?.
    apply (groups_at_then newgroup _ w [group1] _ _); [|done..]. intros w3 ? ? ?.
    by apply Hend.
Qed.

Lemma mpi_comm_dup_first_pass_eq {R} (start stop comm newcomm : Z) (w : OTF2_Writer) :
  comm ≠ newcomm →
  ∃ w', mpi_comm_dup_first_pass (R:=R) start stop comm newcomm w
          = Normal OTF2_WRITER_SUCCESS w' ∧
    groups_ w' = groups_ w ∧
    comms_ w' !! newcomm =
      Some (mk_comm_rec newcomm (rec_global_id (comm_of comm w))
              (rec_local_group_id (comm_of comm w)) (rec_is_root (comm_of comm w))
              (rec_name (comm_of newcomm w)) (rec_sub_comms (comm_of newcomm w))) ∧
    comms_ w' !! comm =
      Some (mk_comm_rec (rec_local_id (comm_of comm w)) (rec_global_id (comm_of comm w))
              (rec_local_group_id (comm_of comm w)) (rec_is_root (comm_of comm w))
              (rec_name (comm_of comm w)) (rec_sub_comms (comm_of comm w) ++ [newcomm])) ∧
    ∀ k, k ≠ comm → k ≠ newcomm → comms_ w' !! k = comms_ w !! k.
Proof.
  intros Hne. unfold comm_of.
  unfold mpi_comm_dup_first_pass, call, comms_at, comm_update, comm_ref, bind, gets,
    modify, return_.
  destruct (comms_ w !! comm) as [parent|] eqn:Hp;
    destruct (comms_ w !! newcomm) as [old|] eqn:Ho; cbn;
    rewrite ?Hp, ?Ho; cbn;
    repeat (rewrite ?lookup_insert_eq; rewrite ?lookup_insert_ne by done;
            rewrite ?Hp, ?Ho; cbn);
    (eexists; split; [reflexivity|]; cbn;
     repeat (rewrite ?lookup_insert_eq; rewrite ?lookup_insert_ne by done);
     split; [done|]; split; [done|]; split; [done|];
     intros k H1 H2; by rewrite !lookup_insert_ne by done).
Qed.

(** X18: duplicating a communicator into a list of other handles, one
    first-pass call after the other, never fails.  The parent's list of
    children grows by these handles in the order of the calls, which is
    the order the assignment of global identifiers walks, and every
    duplicate carries its own handle and the parent's global id, group and
    root flag.  No other communicator and no group is touched. *)
Theorem dup_each_appends_children {R} (start stop comm : Z) (newcomms : list Z)
    (w : OTF2_Writer) :
  comm ∉ newcomms →
  ∃ w', dup_each (R:=R) start stop comm newcomms w = Normal tt w' ∧
    groups_ w' = groups_ w ∧
    rec_sub_comms (comm_of comm w') = rec_sub_comms (comm_of comm w) ++ newcomms ∧
    (∀ c, c ∈ newcomms →
       is_Some (comms_ w' !! c) ∧
       rec_local_id (comm_of c w') = c ∧
       rec_global_id (comm_of c w') = rec_global_id (comm_of comm w) ∧
       rec_local_group_id (comm_of c w') = rec_local_group_id (comm_of comm w) ∧
       rec_is_root (comm_of c w') = rec_is_root (comm_of comm w)) ∧
    (∀ k, k ≠ comm → k ∉ newcomms → comms_ w' !! k = comms_ w !! k).
Proof.
  revert w. induction newcomms as [|c cs IH]; intros w Hnot.
  - exists w. split; [done|]. split; [done|]. split; [by rewrite app_nil_r|].
    split; [|done]. intros c Hc. by apply elem_of_nil in Hc.
  - apply not_elem_of_cons in Hnot as [Hne Hnot].
    destruct (mpi_comm_dup_first_pass_eq (R:=R) start stop comm c w Hne)
      as (w1 & H1 & Hg1 & Hc1 & Hp1 & Hf1).
    destruct (IH w1 Hnot) as (w' & H' & Hg' & Hs' & Hch' & Hf').
    exists w'. split; [cbn [dup_each]; by rewrite (bind_normal _ _ _ _ _ H1)|].
    split; [congruence|].
    assert (Hparent : comm_of comm w1 =
              mk_comm_rec (rec_local_id (comm_of comm w)) (rec_global_id (comm_of comm w))
                (rec_local_group_id (comm_of comm w)) (rec_is_root (comm_of comm w))
                (rec_name (comm_of comm w)) (rec_sub_comms (comm_of comm w) ++ [c])).
    { unfold comm_of at 1. by rewrite Hp1. }
    split; [rewrite Hs', Hparent; cbn; by rewrite <- (assoc_L (++))|].
    split.
    + intros x Hx. destruct (decide (x ∈ cs)) as [Hin|Hout].
      * destruct (Hch' x Hin) as (E0 & E1 & E2 & E3 & E4).
        rewrite Hparent in E2, E3, E4. cbn in E2, E3, E4.
        repeat split; assumption.
      * apply elem_of_cons in Hx as [->|Hx]; [|done].
        assert (Hk : comms_ w' !! c = comms_ w1 !! c) by (apply Hf'; done).
        unfold comm_of. rewrite Hk, Hc1. cbn. split; [by eexists|done].
    + intros k Hk Hkn. apply not_elem_of_cons in Hkn as [Hkc Hkn].
      rewrite Hf' by done. by apply Hf1.
Qed.

Lemma dup_each_appends_children_witness :
  ∃ w0 w',
    register_comm_world (R:=unit) 0 (new_writer 4 0 (-1)) = Normal tt w0 ∧
    dup_each (R:=unit) 0 0 MPI_COMM_WORLD_ID [5; 7; 6] w0 = Normal tt w' ∧
    rec_sub_comms (comm_of MPI_COMM_WORLD_ID w') = [5; 7; 6] ∧
    rec_local_group_id (comm_of 7 w') = COMM_WORLD_GROUP_ID.
Proof.
  eexists _. 
  destruct (dup_each_appends_children (R:=unit) 0 0 MPI_COMM_WORLD_ID [5; 7; 6]
              (set_comms_ (<[MPI_COMM_WORLD_ID :=
                               mk_comm_rec MPI_COMM_WORLD_ID MPI_COMM_WORLD_ID
                                 COMM_WORLD_GROUP_ID false "MPI_COMM_WORLD" []]> ∅)
                 (set_groups_ (<[COMM_WORLD_GROUP_ID :=
                                   mk_group COMM_WORLD_GROUP_ID true []]> ∅)
                    (new_writer 4 0 (-1))))
              ltac:(compute_done)) as (w' & H1 & _ & H2 & H3 & _).
  exists w'. split; [vm_compute; reflexivity|]. split; [exact H1|].
  split; [exact H2|].
  destruct (H3 7 ltac:(compute_done)) as (_ & _ & _ & H4 & _). exact H4.
Defined.
(** X19: [mpi_comm_create_first_pass] with a parent other than the new
    handle.  For a group with a first member the call succeeds: the new
    communicator is appended to the parent's children, its root flag is
    set when the writer's world rank is that first member and otherwise
    left as it was, and its local id, global id and group id are not
    written.  For a group that is empty or that the writer does not know
    (it is then created empty) the call reads the first element of an
    empty vector. *)
Theorem mpi_comm_create_first_pass_root {R} (start stop comm group newcomm : Z)
    (w : OTF2_Writer) :
  comm ≠ newcomm →
  (∀ g first others, groups_ w !! group = Some g → global_ranks g = first :: others →
     ∃ w', mpi_comm_create_first_pass (R:=R) start stop comm group newcomm w
             = Normal OTF2_WRITER_SUCCESS w' ∧
       groups_ w' = groups_ w ∧
       rec_is_root (comm_of newcomm w') =
         (bool_decide (rank (world_ w) = first) || rec_is_root (comm_of newcomm w)) ∧
       rec_local_id (comm_of newcomm w') = rec_local_id (comm_of newcomm w) ∧
       rec_global_id (comm_of newcomm w') = rec_global_id (comm_of newcomm w) ∧
       rec_local_group_id (comm_of newcomm w') = rec_local_group_id (comm_of newcomm w) ∧
       rec_sub_comms (comm_of comm w') = rec_sub_comms (comm_of comm w) ++ [newcomm] ∧
       ∀ k, k ≠ comm → k ≠ newcomm → comms_ w' !! k = comms_ w !! k) ∧
  (global_ranks (default new_group (groups_ w !! group)) = [] →
   mpi_comm_create_first_pass (R:=R) start stop comm group newcomm w = Undefined).
Proof.
  intros Hne. split.
  - intros g first others Hg Hfirst. unfold comm_of.
    assert (Hi : ∀ w1, index (R:=OTF2_WRITER_RESULT) (first :: others) 0 w1 = Normal first w1)
      by done.
    unfold mpi_comm_create_first_pass, call, comms_at, groups_at, comm_update, group_ref,
      bind, gets, modify, return_.
    destruct (comms_ w !! comm) as [parent|] eqn:Hp;
      destruct (comms_ w !! newcomm) as [old|] eqn:Ho; cbn -[index];
      repeat (rewrite ?lookup_insert_eq; rewrite ?lookup_insert_ne by done;
              rewrite ?Hp, ?Ho, ?Hg; cbn -[index]);
      rewrite Hfirst, Hi;
      destruct (decide (rank (world_ w) = first)) as [Hr|Hr];
      rewrite ?(bool_decide_eq_true_2 _ Hr), ?(bool_decide_eq_false_2 _ Hr);
      unfold ret; cbn;
      (eexists; split; [reflexivity|]; cbn;
       repeat (rewrite ?lookup_insert_eq; rewrite ?lookup_insert_ne by done;
               rewrite ?Hp, ?Ho; cbn);
       repeat (split; [done|]);
       intros k H1 H2; by rewrite !lookup_insert_ne by done).
  - intros Hempty.
    assert (Hi : ∀ w1, index (R:=OTF2_WRITER_RESULT) (@nil Z) 0 w1 = Undefined) by done.
    unfold mpi_comm_create_first_pass, call, comms_at, groups_at, comm_update, group_ref,
      bind, gets, modify, return_.
    destruct (comms_ w !! comm) as [parent|] eqn:Hp;
      destruct (comms_ w !! newcomm) as [old|] eqn:Ho;
      destruct (groups_ w !! group) as [g|] eqn:Hg; cbn -[index] in *;
      repeat (rewrite ?lookup_insert_eq; rewrite ?lookup_insert_ne by done;
              rewrite ?Hp, ?Ho, ?Hg; cbn -[index]);
      rewrite ?Hempty, Hi; done.
Qed.

Lemma mpi_comm_create_first_pass_root_witness :
  (∃ w', mpi_comm_create_first_pass (R:=unit) 0 0 0 3 9 group_writer
           = Normal OTF2_WRITER_SUCCESS w' ∧
         rec_is_root (comm_of 9 w') = true ∧ rec_sub_comms (comm_of 0 w') = [9]) ∧
  mpi_comm_create_first_pass (R:=unit) 0 0 0 8 9 group_writer = Undefined.
Proof.
  destruct (mpi_comm_create_first_pass_root (R:=unit) 0 0 0 3 9 group_writer ltac:(lia))
    as [H1 _].
  destruct (H1 (mk_group 3 false [0; 1; 2; 3; 4]) 0 [1; 2; 3; 4] eq_refl eq_refl)
    as (w' & Hw & _ & Hroot & _ & _ & _ & Hsubs & _).
  split.
  - exists w'. split; [exact Hw|]. split; [exact Hroot|exact Hsubs].
  - apply (mpi_comm_create_first_pass_root (R:=unit) 0 0 0 8 9 group_writer ltac:(lia)).
    reflexivity.
Defined.

(** ** More on the two passes of the agreement *)

Section agreement_more.
Import GlobalIds.

Lemma assign_loop_walk_inv (fuel : nat) (g : global_id_assigner) (ptrs : gmap Z (list Z)) :
  (∀ comm t t' comms r, pointers comms = ptrs →
     assign_global_ids_comm fuel comm g comms t = Some r →
     is_Some (visits_from fuel ptrs comm t') ∧ pointers r.1 = ptrs) →
  ∀ subs t here k comms r, pointers comms = ptrs →
    assign_loop fuel g subs comms t = Some r →
    is_Some (visits_below fuel ptrs here subs k) ∧ pointers r.1 = ptrs.
Proof.
  intros IH. induction subs as [|sub rest IHs]; intros t here k comms r Hp Hr.
  - cbn in Hr. injection Hr as <-. split; [by eexists|done].
  - cbn [assign_loop] in Hr.
    destruct (assign_global_ids_comm fuel sub g comms (tree_advance t))
      as [[comms1 t1]|] eqn:H1; [|done].
    destruct (IH sub (tree_advance t) (child_coordinate here k) comms _ Hp H1)
      as [[v Hv] Hp1].
    destruct (IHs t1 here (S k) comms1 r Hp1 Hr) as [[vs Hvs] Hp2].
    split; [|done]. cbn [visits_below]. rewrite Hv.
    change (visits_below fuel ptrs here rest (S k)) with
      (visits_below fuel ptrs here rest (S k)).
    fold (visits_below fuel ptrs here). rewrite Hvs. by eexists.
Qed.

Lemma assign_comm_walk_inv (fuel : nat) (g : global_id_assigner) (ptrs : gmap Z (list Z)) :
  ∀ comm t t' comms r, pointers comms = ptrs →
    assign_global_ids_comm fuel comm g comms t = Some r →
    is_Some (visits_from fuel ptrs comm t') ∧ pointers r.1 = ptrs.
Proof.
  induction fuel as [|fuel IH]; intros comm t t' comms r Hp Hr; [done|].
  rewrite assign_global_ids_comm_eq in Hr. rewrite visits_from_eq.
  destruct (comms !! comm) as [c|] eqn:Hc; [|done].
  assert (Hptr : ptrs !! comm = Some (rec_sub_comms c)).
  { rewrite <- Hp. unfold pointers. by rewrite lookup_fmap, Hc. }
  rewrite Hptr. unfold assign_global_ids_subs in Hr.
  destruct (assign_loop fuel g (rec_sub_comms c)
              (alter (set_global_id (get_id g t)) comm comms) (tree_add_level t))
    as [[comms1 t1]|] eqn:Hl; [|done].
  injection Hr as <-.
  destruct (assign_loop_walk_inv fuel g ptrs IH (rec_sub_comms c) (tree_add_level t) t' 0%nat
              _ _ ltac:(rewrite <- Hp; apply (pointers_store_id g comms (comm, t))) Hl)
    as [[vs Hvs] Hp1].
  rewrite Hvs. split; [by eexists|done].
Qed.

Lemma assign_global_ids_walk_inv (fuel : nat) (g : global_id_assigner) (w w' : OTF2_Writer) :
  assign_global_ids fuel g w = Some w' → is_Some (walk fuel w).
Proof.
  unfold assign_global_ids. intros Hr.
  destruct (comms_index MPI_COMM_WORLD_ID w) as [world w1] eqn:Hi.
  unfold assign_global_ids_subs in Hr.
  destruct (assign_loop fuel g (rec_sub_comms world) (comms_ w1) (tree_add_level []))
    as [[comms1 t1]|] eqn:Hl; [|done].
  destruct (assign_loop_walk_inv fuel g (pointers (comms_ w1))
              (assign_comm_walk_inv fuel g (pointers (comms_ w1)))
              (rec_sub_comms world) (tree_add_level []) [] 0%nat (comms_ w1) _ eq_refl Hl)
    as [Hv _].
  destruct (comms_ w !! MPI_COMM_WORLD_ID) as [c|] eqn:Hc.
  - rewrite (comms_index_present _ c) in Hi by done. injection Hi as <- <-.
    unfold walk. by rewrite Hc.
  - destruct (walk_absent fuel w Hc) as [-> _]. by eexists.
Qed.

Lemma visits_below_none (fuel : nat) (ptrs : gmap Z (list Z)) (e : Z) :
  (∀ here, visits_from fuel ptrs e here = None) →
  ∀ subs here k, e ∈ subs → visits_below fuel ptrs here subs k = None.
Proof.
  intros He. induction subs as [|sub rest IH]; intros here k Hin.
  - by apply elem_of_nil in Hin.
  - cbn [visits_below]. apply elem_of_cons in Hin as [<-|Hin].
    + by rewrite He.
    + destruct (visits_from fuel ptrs sub (child_coordinate here k)); [|done].
      fold (visits_below fuel ptrs here). by rewrite IH.
Qed.

Lemma visits_from_cycle (ptrs : gmap Z (list Z)) :
  ∀ fuel d here, tc (points ptrs) d d → visits_from fuel ptrs d here = None.
Proof.
  induction fuel as [|fuel IH]; intros d here Hd; [done|].
  rewrite visits_from_eq.
  assert (∃ e, points ptrs d e ∧ tc (points ptrs) e e) as (e & (subs & Hs & He) & Hee).
  { inversion Hd as [? ? H1|? e ? H1 H2]; subst.
    - exists d. split; [done|]. by apply tc_once.
    - exists e. split; [done|]. by eapply tc_r. }
  rewrite Hs. rewrite (visits_below_none fuel ptrs e); [done| |done].
  intros here'. by apply IH.
Qed.

Lemma visits_from_reaches (ptrs : gmap Z (list Z)) (c d : Z) :
  rtc (points ptrs) c d → (∀ fuel here, visits_from fuel ptrs d here = None) →
  ∀ fuel here, visits_from fuel ptrs c here = None.
Proof.
  induction 1 as [c|c c' d (subs & Hs & Hin) _ IH]; intros Hd; [done|].
  intros [|fuel] here; [done|]. rewrite visits_from_eq, Hs.
  rewrite (visits_below_none fuel ptrs c'); [done| |done].
  intros here'. by apply IH.
Qed.


(** X20: on a table in which a record that the walk reaches lies on a
    cycle of [sub_comms] pointers, neither pass of the agreement returns,
    whatever depth the recursion is given: the source recurses without
    end.  Duplicating a communicator into its own handle makes such a
    table. *)
Theorem cyclic_table_never_returns (w : OTF2_Writer) (c d : Z) :
  c ∈ rec_sub_comms (comm_of MPI_COMM_WORLD_ID w) →
  rtc (points (pointers (comms_ w))) c d →
  tc (points (pointers (comms_ w))) d d →
  ∀ (fuel : nat) (a g : global_id_assigner),
    walk fuel w = None ∧ agree_global_ids fuel a w = None ∧
    assign_global_ids fuel g w = None.
Proof.
  intros Hc Hcd Hdd fuel a g.
  assert (Hw : walk fuel w = None).
  { unfold walk. apply (visits_below_none fuel _ c); [|exact Hc].
    intros here. apply (visits_from_reaches _ c d Hcd).
    intros fuel' here'. by apply visits_from_cycle. }
  split; [done|]. split.
  - destruct (agree_global_ids fuel a w) as [[a' w']|] eqn:Ha; [|done].
    apply agree_global_ids_walk_inv in Ha. rewrite Hw in Ha. by destruct Ha.
  - destruct (assign_global_ids fuel g w) as [w'|] eqn:Ha; [|done].
    apply assign_global_ids_walk_inv in Ha. rewrite Hw in Ha. by destruct Ha.
Qed.

Lemma cyclic_table_never_returns_witness :
  rec_sub_comms (comm_of MPI_COMM_WORLD_ID self_dup_rank) = [MPI_COMM_WORLD_ID] ∧
  agree_global_ids 1000 (fresh_assigner 1) self_dup_rank = None ∧
  assign_global_ids 1000 (fresh_assigner 1) self_dup_rank = None.
Proof.
  split; [vm_compute; reflexivity|].
  assert (Hworld : MPI_COMM_WORLD_ID
                     ∈ rec_sub_comms (comm_of MPI_COMM_WORLD_ID self_dup_rank)).
  { vm_compute. apply list_elem_of_here. }
  assert (Hcycle : tc (points (pointers (comms_ self_dup_rank)))
                     MPI_COMM_WORLD_ID MPI_COMM_WORLD_ID).
  { apply tc_once. exists [MPI_COMM_WORLD_ID]. split; [vm_compute; reflexivity|].
    apply list_elem_of_here. }
  destruct (cyclic_table_never_returns self_dup_rank MPI_COMM_WORLD_ID MPI_COMM_WORLD_ID
              Hworld (rtc_refl _ _) Hcycle 1000%nat (fresh_assigner 1) (fresh_assigner 1))
    as (_ & Hagree & Hassign).
  split; [exact Hagree|exact Hassign].
Defined.

(** X21: what the assign pass leaves.  On a writer whose world
    communicator is registered and whose walk exists, the pass returns;
    every record of a communicator the walk visits holds the identifier
    found at the coordinate of its last visit, every other record, the
    world communicator's among them when it is no one's child, holds what
    it held; nothing but the [global_id] members changes: not the
    children, the root flags, the handles or the groups, and no record is
    created. *)
Theorem assign_global_ids_writes_last_visit (fuel : nat) (g : global_id_assigner)
    (w : OTF2_Writer) (v : list (Z * list Z)) :
  walk fuel w = Some v → is_Some (comms_ w !! MPI_COMM_WORLD_ID) →
  ∃ w', assign_global_ids fuel g w = Some w' ∧
    (∀ k, comms_ w' !! k =
          match last_visit k v with
          | Some t => set_global_id (get_id g t) <$> comms_ w !! k
          | None => comms_ w !! k
          end) ∧
    (∀ k t, last_visit k v = Some t → rec_global_id <$> comms_ w' !! k = Some (get_id g t)) ∧
    pointers (comms_ w') = pointers (comms_ w) ∧
    w' = set_comms_ (comms_ w') w.
Proof.
  intros Hv [world Hworld].
  rewrite (assign_global_ids_walk fuel g w v Hv).
  rewrite (comms_index_present _ world w Hworld). cbn [snd].
  eexists. split; [reflexivity|].
  assert (Hk : ∀ k, comms_ (set_comms_ (fold_left (store_id g) v (comms_ w)) w) !! k =
                    match last_visit k v with
                    | Some t => set_global_id (get_id g t) <$> comms_ w !! k
                    | None => comms_ w !! k
                    end).
  { intros k. destruct w. cbn. apply fold_store_id_lookup. }
  split; [exact Hk|]. split; [|split].
  - intros k t Hlast. rewrite Hk, Hlast.
    destruct (visits_have_records (pointers (comms_ w)) k t fuel) as [_ Hb].
    destruct (Hb _ _ _ _ Hv (last_visit_elem k t v Hlast)) as [subs Hsubs].
    unfold pointers in Hsubs. rewrite lookup_fmap in Hsubs.
    destruct (comms_ w !! k) as [rec|]; [done|done].
  - destruct w. cbn. apply pointers_fold_store_id.
  - by destruct w.
Qed.

Lemma assign_global_ids_writes_last_visit_witness :
  ∃ w', assign_global_ids 2 (mk_assigner [] 13 (<[[3] := 12]> (<[[2] := 10]> ∅)))
          (example_rank 0 2 4 2) = Some w' ∧
    rec_global_id <$> comms_ w' !! 2 = Some 12 ∧
    rec_global_id <$> comms_ w' !! 4 = Some 10 ∧
    rec_global_id <$> comms_ w' !! MPI_COMM_WORLD_ID = Some MPI_COMM_WORLD_ID.
Proof.
  destruct (assign_global_ids_writes_last_visit 2
              (mk_assigner [] 13 (<[[3] := 12]> (<[[2] := 10]> ∅)))
              (example_rank 0 2 4 2) [(2, [1]); (4, [2]); (2, [3])]
              ltac:(vm_compute; reflexivity) ltac:(vm_compute; by eexists))
    as (w' & Hw' & Hk & Hlast & _ & _).
  exists w'. split; [exact Hw'|]. split; [|split].
  - apply (Hlast 2 [3]). vm_compute. reflexivity.
  - apply (Hlast 4 [2]). vm_compute. reflexivity.
  - rewrite (Hk MPI_COMM_WORLD_ID). vm_compute. reflexivity.
Defined.

Lemma equal_length_suffixes (l1 l2 l : list Z) :
  l1 `suffix_of` l → l2 `suffix_of` l → length l1 = length l2 → l1 = l2.
Proof.
  intros H1 H2 Hlen. destruct (suffix_weak_total l1 l2 l H1 H2) as [H|H].
  - apply suffix_length_eq; [done|lia].
  - symmetry. apply suffix_length_eq; [done|lia].
Qed.

Lemma visits_below_coordinates (fuel : nat) (ptrs : gmap Z (list Z)) :
  (∀ comm here v, visits_from fuel ptrs comm here = Some v →
     (∀ x, x ∈ v → here `suffix_of` x.2) ∧ NoDup (v.*2)) →
  ∀ subs here k v, visits_below fuel ptrs here subs k = Some v →
    (∀ x, x ∈ v → ∃ j, (k ≤ j)%nat ∧ child_coordinate here j `suffix_of` x.2) ∧
    NoDup (v.*2).
Proof.
  intros IH. induction subs as [|sub rest IHs]; intros here k v Hv.
  - injection Hv as <-. split; [by intros x ?%elem_of_nil|constructor].
  - cbn [visits_below] in Hv.
    destruct (visits_from fuel ptrs sub (child_coordinate here k)) as [v1|] eqn:H1;
      [|done].
    fold (visits_below fuel ptrs here) in Hv.
    destruct (visits_below fuel ptrs here rest (S k)) as [vs|] eqn:H2; [|done].
    injection Hv as <-.
    destruct (IH _ _ _ H1) as [Hs1 Hn1]. destruct (IHs _ _ _ H2) as [Hs2 Hn2].
    split.
    + intros x [Hx|Hx]%elem_of_app.
      * exists k. split; [lia|by apply Hs1].
      * destruct (Hs2 x Hx) as (j & Hj & Hsuf). exists j. split; [lia|done].
    + rewrite fmap_app. apply NoDup_app. split; [done|]. split; [|done].
      intros t (x & -> & Hx)%list_elem_of_fmap (y & Hxy & Hy)%list_elem_of_fmap.
      destruct (Hs2 y Hy) as (j & Hj & Hsuf). rewrite <- Hxy in Hsuf.
      assert (Heq : child_coordinate here k = child_coordinate here j).
      { apply (equal_length_suffixes _ _ x.2); [by apply Hs1|done|done]. }
      unfold child_coordinate in Heq. injection Heq as Heq. lia.
Qed.

Lemma visits_from_coordinates (ptrs : gmap Z (list Z)) :
  ∀ fuel comm here v, visits_from fuel ptrs comm here = Some v →
    (∀ x, x ∈ v → here `suffix_of` x.2) ∧ NoDup (v.*2).
Proof.
  induction fuel as [|fuel IH]; intros comm here v Hv; [done|].
  rewrite visits_from_eq in Hv.
  destruct (ptrs !! comm) as [subs|]; [|done].
  destruct (visits_below fuel ptrs here subs 0) as [vs|] eqn:Hvs; [|done].
  injection Hv as <-.
  destruct (visits_below_coordinates fuel ptrs IH _ _ _ _ Hvs) as [Hs Hn].
  split.
  - intros x [->|Hx]%elem_of_cons; [cbn; reflexivity|].
    destruct (Hs x Hx) as (j & _ & Hsuf). unfold child_coordinate in Hsuf.
    by apply suffix_cons_l in Hsuf.
  - cbn. apply NoDup_cons. split; [|done].
    intros (x & Hhere & Hx)%list_elem_of_fmap.
    destruct (Hs x Hx) as (j & _ & Hsuf). rewrite <- Hhere in Hsuf.
    apply suffix_length in Hsuf. unfold child_coordinate in Hsuf. cbn in Hsuf. lia.
Qed.

Lemma root_coordinates_NoDup (comms : gmap Z OTF2_MPI_Comm_rec) (v : list (Z * list Z)) :
  NoDup (v.*2) → NoDup (root_coordinates comms v).
Proof.
  intros Hn. eapply sublist_NoDup; [exact Hn|].
  clear Hn. induction v as [|x v IH]; [constructor|].
  unfold root_coordinates. cbn [omap list_omap fmap list_fmap].
  fold (root_coordinates comms v).
  destruct (comms !! x.1) as [c|]; [destruct (rec_is_root c)|];
    [by apply sublist_skip|by apply sublist_cons|by apply sublist_cons].
Qed.

Lemma fold_assign_at_next_id (l : list (list Z)) :
  ∀ a, next_id (fold_left assign_at l a) = next_id a + Z.of_nat (length l).
Proof.
  induction l as [|t l IH]; intros a; [cbn; lia|].
  cbn [fold_left length]. rewrite IH. cbn. lia.
Qed.

Lemma fold_assign_at_other (t : list Z) (l : list (list Z)) :
  ∀ a, t ∉ l → ids (fold_left assign_at l a) !! t = ids a !! t.
Proof.
  induction l as [|t' l IH]; intros a Hin; [done|].
  cbn [fold_left]. apply not_elem_of_cons in Hin as [Hne Hin].
  rewrite IH by done. cbn. by rewrite lookup_insert_ne.
Qed.

Lemma fold_assign_at_nth (l : list (list Z)) :
  NoDup l → ∀ a i t, l !! i = Some t →
    ids (fold_left assign_at l a) !! t = Some (next_id a + Z.of_nat i).
Proof.
  induction 1 as [|t' l Hin Hn IH]; intros a i t Hi; [done|].
  cbn [fold_left]. destruct i as [|i].
  - injection Hi as ->. rewrite fold_assign_at_other by done. cbn.
    rewrite lookup_insert_eq. f_equal. lia.
  - cbn in Hi. rewrite (IH _ i t Hi). cbn. f_equal. lia.
Qed.

(** X22: what the agree pass of one rank draws.  On a writer whose walk
    exists the pass returns with the assigner back at the empty
    coordinate.  The coordinates of the visits are pairwise distinct, and
    the visits of records whose root flag is set are numbered in the
    order of the walk: the one at position [i] among them gets the
    identifier [next_id + i] at its coordinate, the counter grows by
    their number, and the identifiers at all other coordinates stay.  The
    pass writes no record; it creates the world communicator's when the
    writer had none. *)
Theorem agree_global_ids_numbers_roots (fuel : nat) (a : global_id_assigner)
    (w : OTF2_Writer) (v : list (Z * list Z)) :
  walk fuel w = Some v → cursor a = [] →
  NoDup (v.*2) ∧
  ∃ a', agree_global_ids fuel a w = Some (a', (comms_index MPI_COMM_WORLD_ID w).2) ∧
    cursor a' = [] ∧
    next_id a' = next_id a + Z.of_nat (length (root_coordinates (comms_ w) v)) ∧
    (∀ i t, root_coordinates (comms_ w) v !! i = Some t →
       ids a' !! t = Some (next_id a + Z.of_nat i)) ∧
    (∀ t, t ∉ root_coordinates (comms_ w) v → ids a' !! t = ids a !! t) ∧
    (is_Some (comms_ w !! MPI_COMM_WORLD_ID) → (comms_index MPI_COMM_WORLD_ID w).2 = w).
Proof.
  intros Hv Ha.
  assert (Hn : NoDup (v.*2)).
  { unfold walk in Hv.
    by destruct (visits_below_coordinates fuel _
                   (visits_from_coordinates _ fuel) _ _ _ _ Hv). }
  split; [done|].
  rewrite (agree_global_ids_walk fuel a w v Hv Ha). eexists. split; [reflexivity|].
  split; [by rewrite fold_assign_at_cursor|].
  split; [apply fold_assign_at_next_id|].
  split; [intros i t Hi; apply fold_assign_at_nth; [by apply root_coordinates_NoDup|done]|].
  split; [intros t Ht; by apply fold_assign_at_other|].
  intros [world Hworld]. by rewrite (comms_index_present _ world).
Qed.

Lemma agree_global_ids_numbers_roots_witness :
  ∃ a', agree_global_ids 2 (fresh_assigner 10) (example_rank 1 3 4 9)
          = Some (a', example_rank 1 3 4 9) ∧
    next_id a' = 12 ∧ ids a' !! [1] = Some 10 ∧ ids a' !! [3] = Some 11 ∧
    ids a' !! [2] = None.
Proof.
  destruct (agree_global_ids_numbers_roots 2 (fresh_assigner 10) (example_rank 1 3 4 9)
              [(3, [1]); (4, [2]); (9, [3])] ltac:(vm_compute; reflexivity) eq_refl)
    as (_ & a' & Ha' & _ & Hnext & Hnth & Hother & Hsame).
  assert (Hroots : root_coordinates (comms_ (example_rank 1 3 4 9))
                     [(3, [1]); (4, [2]); (9, [3])] = [[1]; [3]])
    by (vm_compute; reflexivity).
  rewrite Hroots in Hnext, Hnth, Hother.
  rewrite Hsame in Ha' by (vm_compute; by eexists).
  exists a'. split; [exact Ha'|]. split; [exact Hnext|].
  split; [exact (Hnth 0%nat [1] eq_refl)|]. split; [exact (Hnth 1%nat [3] eq_refl)|].
  rewrite (Hother [2]); [reflexivity|].
  intros H. repeat (apply elem_of_cons in H as [H|H]; [discriminate|]).
  by apply elem_of_nil in H.
Defined.

End agreement_more.
